(** * Voxel Seattle Center: agent kinematics and voxel shell extraction

    A shallow embedding of the motion code (Train, TrafficCar, HeroTaxi,
    NewsHelicopter, Elevator) and of the voxel helpers (createSteppedLobe,
    rotatePoint, addTri, addHex), followed by the properties the
    specification states about them.

    Number model.  A JavaScript number is either NaN or a finite value.
    Finite values are modelled as exact rationals in canonical form ([Qc]),
    so that equality of numbers is Leibniz equality and every definition
    computes.  Rounding of binary64 arithmetic and overflow to an infinity
    are not modelled; a division by zero yields NaN. *)

From Stdlib Require Import QArith Qcanon Qround Qabs ZArith List Lia Lqa Bool String.
From Stdlib Require Import Permutation.
Import ListNotations.

(* ================================================================= *)
(** ** JavaScript numbers *)

Module JS.

Inductive num : Type :=
| NaN
| Fin (q : Qc).

Declare Scope js_scope.
Delimit Scope js_scope with js.
Bind Scope js_scope with num.

(** The decimal literal [n/d], e.g. [lit 1 100] for [0.01]. *)
Definition lit (n : Z) (d : positive) : num := Fin (Q2Qc (n # d)).
Definition ofZ (z : Z) : num := Fin (Q2Qc (inject_Z z)).

Definition isNaN (x : num) : bool :=
  match x with NaN => true | Fin _ => false end.

Definition lift1 (f : Qc -> Qc) (x : num) : num :=
  match x with Fin a => Fin (f a) | NaN => NaN end.

Definition lift2 (f : Qc -> Qc -> Qc) (x y : num) : num :=
  match x, y with
  | Fin a, Fin b => Fin (f a b)
  | _, _ => NaN
  end.

Definition add : num -> num -> num := lift2 Qcplus.
Definition sub : num -> num -> num := lift2 Qcminus.
Definition mul : num -> num -> num := lift2 Qcmult.
Definition neg : num -> num := lift1 Qcopp.

Definition qzero (a : Qc) : bool := Qeq_bool a 0.

Definition div (x y : num) : num :=
  match x, y with
  | Fin a, Fin b => if qzero b then NaN else Fin (a / b)
  | _, _ => NaN
  end.

(** Comparisons: every comparison with NaN is false. *)
Definition cmp (test : comparison -> bool) (x y : num) : bool :=
  match x, y with
  | Fin a, Fin b => test (a ?= b)%Qc
  | _, _ => false
  end.

Definition ltb : num -> num -> bool :=
  cmp (fun c => match c with Lt => true | _ => false end).
Definition leb : num -> num -> bool :=
  cmp (fun c => match c with Gt => false | _ => true end).
Definition gtb : num -> num -> bool :=
  cmp (fun c => match c with Gt => true | _ => false end).
Definition geb : num -> num -> bool :=
  cmp (fun c => match c with Lt => false | _ => true end).
(** [===] on two numbers. *)
Definition eqb : num -> num -> bool :=
  cmp (fun c => match c with Eq => true | _ => false end).

(** Truthiness of a number, as used by [||] and [&&]. *)
Definition truthy (x : num) : bool :=
  match x with NaN => false | Fin a => negb (qzero a) end.

(** [v || d] where the left operand is a number or [undefined]. *)
Definition or_default (v : option num) (d : num) : num :=
  match v with
  | Some x => if truthy x then x else d
  | None => d
  end.

Definition Math_max (x y : num) : num :=
  match x, y with
  | Fin a, Fin b => if geb x y then x else y
  | _, _ => NaN
  end.

Definition Math_min (x y : num) : num :=
  match x, y with
  | Fin a, Fin b => if leb x y then x else y
  | _, _ => NaN
  end.

Definition Math_abs (x : num) : num :=
  match x with
  | NaN => NaN
  | Fin a => if ltb x (ofZ 0) then neg x else x
  end.

Definition Math_sign (x : num) : num :=
  match x with
  | NaN => NaN
  | Fin a => if gtb x (ofZ 0) then ofZ 1
             else if ltb x (ofZ 0) then ofZ (-1) else ofZ 0
  end.

(** [Math.round]: the nearest integer, halves rounded up. *)
Definition Math_round (x : num) : num :=
  match x with
  | NaN => NaN
  | Fin a => ofZ (Qfloor (this a + (1 # 2)))
  end.

Definition qtrunc (a : Qc) : Z :=
  if Qle_bool 0 (this a) then Qfloor (this a) else Qceiling (this a).

(** [x % y]: the remainder has the sign of the dividend. *)
Definition rem (x y : num) : num :=
  match x, y with
  | Fin a, Fin b =>
      if qzero b then NaN
      else Fin (a - b * Q2Qc (inject_Z (qtrunc (a / b))))
  | _, _ => NaN
  end.

(** [THREE.MathUtils.clamp] and [lerp]. *)
Definition clamp (value lo hi : num) : num := Math_max lo (Math_min hi value).
Definition lerp (x y t : num) : num := add (mul (sub (ofZ 1) t) x) (mul t y).

(** Structural equality of numbers (NaN equal to itself), the equality of
    the decimal strings of two numbers. *)
Definition same (x y : num) : bool :=
  match x, y with
  | NaN, NaN => true
  | Fin a, Fin b => Qeq_bool a b
  | _, _ => false
  end.

End JS.

Import JS.

Notation "x + y" := (JS.add x y) : js_scope.
Notation "x - y" := (JS.sub x y) : js_scope.
Notation "x * y" := (JS.mul x y) : js_scope.
Notation "x / y" := (JS.div x y) : js_scope.
Notation "- x" := (JS.neg x) : js_scope.
Notation "x <? y" := (JS.ltb x y) : js_scope.
Notation "x <=? y" := (JS.leb x y) : js_scope.
Notation "x >? y" := (JS.gtb x y) : js_scope.
Notation "x >=? y" := (JS.geb x y) : js_scope.
Notation "x 'mod' y" := (JS.rem x y) : js_scope.
Notation "v '|||' d" := (JS.or_default v d) (at level 50, left associativity) : js_scope.

(** The transcendental functions of the host's [Math] object.  Their
    values are numbers like any other; the code is modelled for whatever
    functions the host provides. *)
Class MathLib : Type := {
  Math_cos : num -> num;
  Math_sin : num -> num;
  Math_sqrt : num -> num;
  Math_PI : num
}.

(** A rational stand-in for the host functions, to run examples with:
    Taylor polynomials for sine and cosine, four Newton steps for the
    square root. *)
Definition polyMath : MathLib := {|
  Math_cos := fun a =>
    (ofZ 1 - a * a / ofZ 2 + a * a * a * a / ofZ 24)%js;
  Math_sin := fun a =>
    (a - a * a * a / ofZ 6 + a * a * a * a * a / ofZ 120)%js;
  Math_sqrt := fun a =>
    let step := fun r => ((r + a / r) / ofZ 2)%js in
    if (a <=? ofZ 0)%js then (if isNaN a then NaN else ofZ 0)
    else step (step (step (step ((a + ofZ 1) / ofZ 2)%js)));
  Math_PI := lit 355 113
|}.

(** A vector with numeric components. *)
Record Vec : Type := mkVec { vx : num; vy : num; vz : num }.

Definition vzero : Vec := mkVec (ofZ 0) (ofZ 0) (ofZ 0).
Definition vplus (a b : Vec) : Vec :=
  mkVec (vx a + vx b)%js (vy a + vy b)%js (vz a + vz b)%js.
Definition vscale (a : Vec) (k : num) : Vec :=
  mkVec (vx a * k)%js (vy a * k)%js (vz a * k)%js.
(** [v.addScaledVector(a, k)]. *)
Definition addScaledVector (v a : Vec) (k : num) : Vec := vplus v (vscale a k).

(* ================================================================= *)
(** ** Values returned by a curve, and scene-graph transforms *)

(** A property of a returned object: absent, or a number (possibly NaN). *)
Inductive jsfield : Type :=
| Undefined
| Number (n : num).

Definition typeof_number (f : jsfield) : bool :=
  match f with Number _ => true | Undefined => false end.

(** [a + b] on two properties: [undefined + n] is NaN. *)
Definition field_add (a b : jsfield) : jsfield :=
  match a, b with
  | Number m, Number n => Number (m + n)%js
  | _, _ => Number NaN
  end.

Record Vector3 : Type := mkVector3 { x : jsfield; y : jsfield; z : jsfield }.

Definition vec (a b c : num) : Vector3 := mkVector3 (Number a) (Number b) (Number c).

(** [p.clone().add(t)]. *)
Definition vadd (p t : Vector3) : Vector3 :=
  mkVector3 (field_add (x p) (x t)) (field_add (y p) (y t)) (field_add (z p) (z t)).

(** What [getPointAt] / [getTangentAt] hand back: [None] stands for [null]
    or [undefined], [Some v] for an object with properties [x], [y], [z]. *)
Definition sample : Type := option Vector3.

Record Curve : Type := mkCurve {
  getPointAt : num -> sample;
  getTangentAt : num -> sample
}.

(** A scene-graph node: its position and the target of its last [lookAt]
    (which fixes its orientation); [None] is the identity orientation. *)
Record Object3D : Type := mkObject3D {
  position : Vector3;
  lookTarget : option Vector3
}.

Definition newGroup : Object3D :=
  mkObject3D (vec (ofZ 0) (ofZ 0) (ofZ 0)) None.

(* ================================================================= *)
(** ** constants.js *)

Definition TRAIN_LENGTH_RATIO : num := lit 1 100.
Definition CAR_GAP : num := lit 5 10000.

Inductive CarType : Type := HEAD | BODY | TAIL.

(* ================================================================= *)
(** ** train.js *)

Module Train.

(** The properties of [config] the constructor reads; each may be
    missing. *)
Module Config.
Record Config : Type := mkConfig {
  initialProgress : option num;
  speed : option num;
  direction : option num
}.
End Config.

Inductive State : Type := MOVING | STOPPED.

Record Car : Type := mkCar {
  group : Object3D;
  type : CarType;
  offset : num
}.

Record Train : Type := mkTrain {
  curve : option Curve;
  progress : num;
  speed : num;
  direction : num;
  state : State;
  stopTimer : num;
  cars : list Car
}.

Definition TRAIN_SPAN : num := (ofZ 3 * (TRAIN_LENGTH_RATIO + CAR_GAP))%js.
Definition TRACK_BUFFER : num := lit 1 100.
Definition STOP_DURATION : num := ofZ 5.

Definition maxProgress : num := (ofZ 1 - TRACK_BUFFER)%js.
Definition minProgress : num := (TRAIN_SPAN + TRACK_BUFFER)%js.

(** The parameter of a car slot before the safety clamp. *)
Definition slotT (t : Train) (car : Car) : num := (progress t - offset car)%js.

(** The parameter handed to the curve. *)
Definition clampedT (t : num) : num :=
  Math_max (lit 1 10000) (Math_min (lit 9999 10000) t).

(** The body of the [forEach] in [updateCarPositions], for one car. *)
Definition placeCar (c : Curve) (t : Train) (car : Car) : Car :=
  let tt := slotT t car in
  if isNaN tt then car
  else
    let ct := clampedT tt in
    match getPointAt c ct, getTangentAt c ct with
    | Some pos, Some tangent =>
        if typeof_number (x pos) && typeof_number (x tangent) then
          let lookTarget' := vadd pos tangent in
          let g :=
            if typeof_number (x lookTarget')
            then mkObject3D pos (Some lookTarget')
            else mkObject3D pos (lookTarget (group car)) in
          mkCar g (type car) (offset car)
        else car
    | _, _ => car
    end.

Definition updateCarPositions (t : Train) : Train :=
  match curve t with
  | None => t
  | Some c =>
      mkTrain (curve t) (progress t) (speed t) (direction t) (state t)
              (stopTimer t) (map (placeCar c t) (cars t))
  end.

Definition carTypes : list CarType := [HEAD; BODY; BODY; TAIL].

Definition newCar (i : nat) (ty : CarType) : Car :=
  mkCar newGroup ty (ofZ (Z.of_nat i) * (TRAIN_LENGTH_RATIO + CAR_GAP))%js.

Fixpoint buildCars (i : nat) (tys : list CarType) : list Car :=
  match tys with
  | [] => []
  | ty :: rest => newCar i ty :: buildCars (S i) rest
  end.

(** The train as it is in the constructor just before the first
    [updateCarPositions]. *)
Definition unplaced (config : Config.Config) (c : option Curve) : Train :=
  mkTrain c
    (Math_max (TRAIN_SPAN + TRACK_BUFFER)%js
       (Math_min (ofZ 1 - TRACK_BUFFER)%js (Config.initialProgress config ||| ofZ 0)%js))
    (Config.speed config ||| lit 1 10)%js (Config.direction config ||| ofZ 1)%js
    MOVING (ofZ 0) (buildCars 0 carTypes).

Definition constructor (config : Config.Config) (c : option Curve) : Train :=
  updateCarPositions (unplaced config c).

Definition speedScale : num := lit 1 10.

Definition update (delta : num) (t : Train) : Train :=
  if isNaN delta then t
  else
    match state t with
    | STOPPED =>
        let timer := (stopTimer t - delta)%js in
        mkTrain (curve t) (progress t) (speed t) (direction t)
                (if (timer <=? ofZ 0)%js then MOVING else STOPPED)
                timer (cars t)
    | MOVING =>
        let p := (progress t + direction t * speed t * delta * speedScale)%js in
        let t' :=
          if (p >=? maxProgress)%js then
            mkTrain (curve t) maxProgress (speed t) (ofZ (-1)) STOPPED
                    STOP_DURATION (cars t)
          else if (p <=? minProgress)%js then
            mkTrain (curve t) minProgress (speed t) (ofZ 1) STOPPED
                    STOP_DURATION (cars t)
          else
            mkTrain (curve t) p (speed t) (direction t) (state t)
                    (stopTimer t) (cars t) in
        updateCarPositions t'
    end.

(** [lo <= x <= hi], false when [x] is NaN. *)
Definition within (lo hi x : num) : bool := (lo <=? x)%js && (x <=? hi)%js.

(** The offsets of the four car slots, [i * (TRAIN_LENGTH_RATIO + CAR_GAP)]. *)
Definition slotOffsets : list num :=
  map (fun i => (ofZ i * (TRAIN_LENGTH_RATIO + CAR_GAP))%js) [0; 1; 2; 3]%Z.

(** The progress a moving train advances to, before the limit checks. *)
Definition stepP (p dir sp d : Qc) : Qc := (p + dir * sp * d * Q2Qc (1 # 10))%Qc.

(** The animation loop: one [update] per frame, oldest frame first. *)
Fixpoint run (deltas : list num) (t : Train) : Train :=
  match deltas with
  | [] => t
  | d :: rest => run rest (update d t)
  end.

(** What the state machine maintains: a finite progress between the two
    stops, finite speed and direction, and the four slot offsets. *)
Definition Inv (t : Train) : Prop :=
  within minProgress maxProgress (progress t) = true /\
  isNaN (speed t) = false /\
  isNaN (direction t) = false /\
  map offset (cars t) = slotOffsets.

(** The guard of [placeCar] turns a sample down when it is [null] or
    [undefined], or when its [x] is not of type number. *)
Definition rejected (s : sample) : bool :=
  match s with
  | None => true
  | Some v => negb (typeof_number (x v))
  end.

(** A finite vector: three numeric components, none of them NaN. *)
Definition finiteField (f : jsfield) : bool :=
  match f with Number (Fin _) => true | _ => false end.

Definition finiteSample (s : sample) : bool :=
  match s with
  | Some v => finiteField (x v) && finiteField (y v) && finiteField (z v)
  | None => false
  end.

(** The red train of index.js. *)
Definition redConfig : Config.Config :=
  Config.mkConfig (Some (lit 5 100)) (Some (lit 35 100)) (Some (ofZ 1)).

(** [n] frames of the same duration [d]. *)
Definition frames (n : nat) (d : num) : list num := repeat d n.

(** A straight track along the z axis, and a curve whose points are NaN. *)
Definition straightCurve : Curve :=
  mkCurve (fun t => Some (vec (lit 15 2) (ofZ 12) (ofZ 80 - ofZ 230 * t)%js))
          (fun _ => Some (vec (ofZ 0) (ofZ 0) (ofZ (-1)))).

Definition nanCurve : Curve :=
  mkCurve (fun _ => Some (vec NaN NaN NaN))
          (fun _ => Some (vec (ofZ 0) (ofZ 0) (ofZ (-1)))).

Definition nullCurve : Curve :=
  mkCurve (fun _ => None) (fun _ => Some (vec (ofZ 0) (ofZ 0) (ofZ (-1)))).

End Train.

(* ================================================================= *)
(** ** Closed-loop followers: TrafficCar and HeroTaxi *)

(** Both followers keep the position and, through [Matrix4.lookAt(pos,
    nextPos, up)], an orientation fixed by the pair of samples; the node
    records the second sample as its look target. *)

Module TrafficCar.

Record TrafficCar : Type := mkTrafficCar {
  curve : option Curve;
  progress : num;
  speed : num;
  group : Object3D
}.

Definition constructor (c : option Curve) (initialProgress speed : num) : TrafficCar :=
  mkTrafficCar c initialProgress speed newGroup.

Definition LOOP_SPEED_SCALE : num := lit 5 10000.

(** The progress after the advance and the wrap of one frame. *)
Definition advance (delta : num) (car : TrafficCar) : num :=
  let p := (progress car + speed car * delta * LOOP_SPEED_SCALE)%js in
  if (p >? ofZ 1)%js then (p - ofZ 1)%js else p.

(** One frame.  The second component lists the parameters handed to
    [getPointAt], in call order. *)
Definition update (delta : num) (car : TrafficCar) : TrafficCar * list num :=
  let p := advance delta car in
  match curve car with
  | None => (mkTrafficCar (curve car) p (speed car) (group car), [])
  | Some c =>
      let t1 := p in
      let t2 := ((p + lit 5 1000) mod ofZ 1)%js in
      let g :=
        match getPointAt c t1, getPointAt c t2 with
        | Some pos, Some nextPos =>
            if typeof_number (x pos) then mkObject3D pos (Some nextPos)
            else group car
        | _, _ => group car
        end in
      (mkTrafficCar (curve car) p (speed car) g, [t1; t2])
  end.

(** The cars of [TrafficSystem]: car [i] of [NUM_CARS = 20] starts at
    [i / 20] with speed [SPEED_BASE = 60]. *)
Definition systemCar (c : option Curve) (i : Z) : TrafficCar :=
  constructor c (ofZ i / ofZ 20)%js (ofZ 60).

End TrafficCar.

Module HeroTaxi.

Record HeroTaxi : Type := mkHeroTaxi {
  curve : option Curve;
  progress : num;
  speed : num;
  group : Object3D
}.

(** [TAXI_PATH] is the argument [c]. *)
Definition constructor (c : option Curve) : HeroTaxi :=
  mkHeroTaxi c (lit 85 100) (ofZ 70) newGroup.

Definition LOOP_SPEED_SCALE : num := lit 5 10000.

Definition advance (delta : num) (taxi : HeroTaxi) : num :=
  let p := (progress taxi + speed taxi * delta * LOOP_SPEED_SCALE)%js in
  if (p >? ofZ 1)%js then (p - ofZ 1)%js else p.

Definition update (delta : num) (taxi : HeroTaxi) : HeroTaxi * list num :=
  let p := advance delta taxi in
  match curve taxi with
  | None => (mkHeroTaxi (curve taxi) p (speed taxi) (group taxi), [])
  | Some c =>
      let t1 := p in
      let t2 := ((p + lit 5 1000) mod ofZ 1)%js in
      let g :=
        match getPointAt c t1, getPointAt c t2 with
        | Some pos, Some nextPos =>
            if typeof_number (x pos) then mkObject3D pos (Some nextPos)
            else group taxi
        | _, _ => group taxi
        end in
      (mkHeroTaxi (curve taxi) p (speed taxi) g, [t1; t2])
  end.

End HeroTaxi.

(** A parameter the closed curve is defined at. *)
Definition inUnit (t : num) : bool := (ofZ 0 <=? t)%js && (t <=? ofZ 1)%js.

(* ================================================================= *)
(** ** NewsHelicopter *)

Module NewsHelicopter.
Section WithMath.
Context {M : MathLib}.

(** The first connected gamepad: the three stick axes read by the
    controls and the value of button 7 (the right trigger). *)
Record Gamepad : Type := mkGamepad {
  axes0 : num;
  axes1 : num;
  axes2 : num;
  button7 : num
}.

(** The group turns about the vertical axis only ([rotation.x] and
    [rotation.z] are never written to anything but 0), the body pitches
    and rolls.  [gimbalTarget] is the target of the gimbal's last
    [lookAt]; [soundVolume] is [None] without an audio service. *)
Record NewsHelicopter : Type := mkNewsHelicopter {
  landingPos : Vec;
  groupPosition : Vec;
  groupRotationY : num;
  bodyRotationX : num;
  bodyRotationZ : num;
  isManual : bool;
  velocity : Vec;
  angularVelocity : num;
  rotorSpeed : num;
  targetRotorSpeed : num;
  mainRotorRotationY : num;
  tailRotorRotationX : num;
  soundVolume : option num;
  gimbalTarget : option Vec
}.

Definition ACCEL : num := ofZ 60.
Definition LIFT : num := ofZ 40.
Definition GRAVITY : num := ofZ 20.
Definition FRICTION : num := lit 97 100.
Definition ANGULAR_ACCEL : num := ofZ 2.
Definition ANGULAR_FRICTION : num := lit 92 100.
Definition MAX_TILT : num := lit 4 10.

Definition constructor (landingPadPos : option Vec) (audio : bool) : NewsHelicopter :=
  let landing := match landingPadPos with Some v => v | None => vzero end in
  mkNewsHelicopter landing landing (ofZ 0) (ofZ 0) (ofZ 0) false vzero
    (ofZ 0) (ofZ 0) (ofZ 0) (ofZ 0) (ofZ 0)
    (if audio then Some (ofZ 0) else None) None.

(** [v.applyQuaternion(q)] for the rotation by [yaw] about the y axis,
    and for its inverse. *)
Definition applyYaw (yaw : num) (v : Vec) : Vec :=
  let c := Math_cos yaw in
  let s := Math_sin yaw in
  mkVec (vx v * c + vz v * s)%js (vy v) (vz v * c - vx v * s)%js.

Definition applyYawInverse (yaw : num) (v : Vec) : Vec :=
  let c := Math_cos yaw in
  let s := Math_sin yaw in
  mkVec (vx v * c - vz v * s)%js (vy v) (vz v * c + vx v * s)%js.

(** [v.normalize()]: division by [length() || 1]. *)
Definition normalize (v : Vec) : Vec :=
  let len := Math_sqrt (vx v * vx v + vy v * vy v + vz v * vz v)%js in
  let k := (Some len ||| ofZ 1)%js in
  mkVec (vx v / k)%js (vy v / k)%js (vz v / k)%js.

Definition deadzone (a : num) : num :=
  if (Math_abs a >? lit 15 100)%js then a else ofZ 0.

Definition updateHelicopterControls (gp : option Gamepad) (delta : num)
    (h : NewsHelicopter) : NewsHelicopter :=
  let h1 :=
    match gp with
    | None => h
    | Some pad =>
        let leftStickX := deadzone (axes0 pad) in
        let leftStickY := deadzone (axes1 pad) in
        let rightStickX := deadzone (axes2 pad) in
        let rightTrigger := button7 pad in
        let av := ((angularVelocity h - rightStickX * ANGULAR_ACCEL * delta)
                   * ANGULAR_FRICTION)%js in
        let yaw := (groupRotationY h + av * delta)%js in
        let forward := applyYaw yaw (mkVec (ofZ 0) (ofZ 0) (ofZ 1)) in
        let right := applyYaw yaw (mkVec (ofZ 1) (ofZ 0) (ofZ 0)) in
        let v1 := addScaledVector (velocity h) forward (- leftStickY * ACCEL * delta)%js in
        let v2 := addScaledVector v1 right (leftStickX * ACCEL * delta)%js in
        let v3 := mkVec (vx v2)
                        (vy v2 - GRAVITY * delta + rightTrigger * LIFT * delta)%js
                        (vz v2) in
        let onFloor := (vy (groupPosition h) <? ofZ 2)%js in
        let pos := if onFloor
                   then mkVec (vx (groupPosition h)) (ofZ 2) (vz (groupPosition h))
                   else groupPosition h in
        let v4 := if onFloor && (vy v3 <? ofZ 0)%js
                  then mkVec (vx v3) (ofZ 0) (vz v3) else v3 in
        mkNewsHelicopter (landingPos h) pos yaw (bodyRotationX h) (bodyRotationZ h)
          (isManual h) v4 av (rotorSpeed h) (targetRotorSpeed h)
          (mainRotorRotationY h) (tailRotorRotationX h) (soundVolume h)
          (gimbalTarget h)
    end in
  let pos := addScaledVector (groupPosition h1) (velocity h1) delta in
  let vel := vscale (velocity h1) FRICTION in
  let localVel := applyYawInverse (groupRotationY h1) vel in
  let targetPitch := (vz localVel * lit 2 100)%js in
  let targetRoll := (- vx localVel * lit 2 100)%js in
  let clampedPitch := clamp targetPitch (- MAX_TILT)%js MAX_TILT in
  let clampedRoll := clamp targetRoll (- MAX_TILT)%js MAX_TILT in
  let lookT := vplus pos (applyYaw (groupRotationY h1)
                                   (mkVec (ofZ 0) (ofZ (-50)) (ofZ 100))) in
  mkNewsHelicopter (landingPos h1) pos (groupRotationY h1)
    (lerp (bodyRotationX h1) clampedPitch (delta * ofZ 3)%js)
    (lerp (bodyRotationZ h1) clampedRoll (delta * ofZ 3)%js)
    (isManual h1) vel (angularVelocity h1) (rotorSpeed h1) (targetRotorSpeed h1)
    (mainRotorRotationY h1) (tailRotorRotationX h1) (soundVolume h1)
    (Some lookT).

Definition update (gp : option Gamepad) (delta : num) (h : NewsHelicopter)
    : NewsHelicopter :=
  let rotor :=
    if (rotorSpeed h <? targetRotorSpeed h)%js then (rotorSpeed h + delta * ofZ 10)%js
    else if (rotorSpeed h >? targetRotorSpeed h)%js then (rotorSpeed h - delta * ofZ 5)%js
    else rotorSpeed h in
  let mainY := (mainRotorRotationY h - rotor * delta * ofZ 20)%js in
  let tailX := (tailRotorRotationX h - rotor * delta * ofZ 30)%js in
  let volume :=
    match soundVolume h with
    | Some _ => Some (Math_min (ofZ 1) (rotor / ofZ 5)%js)
    | None => None
    end in
  if isManual h then
    updateHelicopterControls gp delta
      (mkNewsHelicopter (landingPos h) (groupPosition h) (groupRotationY h)
         (bodyRotationX h) (bodyRotationZ h) (isManual h) (velocity h)
         (angularVelocity h) rotor (ofZ 20) mainY tailX volume (gimbalTarget h))
  else
    let forward := normalize (mkVec (ofZ 0) (ofZ (-1)) (ofZ 3)) in
    let targetWorld := vplus (landingPos h) (vscale forward (ofZ 200)) in
    mkNewsHelicopter (landingPos h) (landingPos h) (ofZ 0) (ofZ 0) (ofZ 0)
      (isManual h) vzero (ofZ 0) rotor (ofZ 0) mainY tailX volume
      (Some targetWorld).

(** The states after each frame of a run, oldest first; a frame is the
    gamepad state and the frame time. *)
Fixpoint trace (frames : list (option Gamepad * num)) (h : NewsHelicopter)
    : list NewsHelicopter :=
  match frames with
  | [] => []
  | (gp, delta) :: rest => update gp delta h :: trace rest (update gp delta h)
  end.

(** What the parked helicopter shows after a frame. *)
Definition parkedAt (landing : Vec) (h : NewsHelicopter) : Prop :=
  groupPosition h = landing /\ velocity h = vzero /\
  angularVelocity h = ofZ 0 /\ targetRotorSpeed h = ofZ 0.

End WithMath.
End NewsHelicopter.

(* ================================================================= *)
(** ** Symmetry helpers *)

Record XZ : Type := mkXZ { px : num; pz : num }.

Section Rotate.
Context {M : MathLib}.

Definition rotatePoint (x z angleDeg : num) : XZ :=
  let rad := (angleDeg * (Math_PI / ofZ 180))%js in
  let c := Math_cos rad in
  let s := Math_sin rad in
  mkXZ (x * c - z * s)%js (x * s + z * c)%js.

End Rotate.

(* ================================================================= *)
(** ** Elevator *)

Module Elevator.
Section WithMath.
Context {M : MathLib}.

Inductive Mode : Type := wait | up | down.

Record State : Type := mkState {
  y : num;
  targetY : num;
  velocity : num;
  mode : Mode;
  waitTime : num
}.

Record Elevator : Type := mkElevator {
  angle : num;
  speedOffset : num;
  state : State;
  carGroupY : num;
  soundDummy : Vec
}.

(** [random] is the value [Math.random()] returns in the constructor. *)
Definition constructor (angle speedOffset random : num) : Elevator :=
  mkElevator angle speedOffset
    (mkState (ofZ 10) (ofZ 415) (ofZ 0) wait (random * ofZ 5 + speedOffset)%js)
    (ofZ 0) vzero.

Definition MAX_SPEED : num := ofZ 15.
Definition ACCEL : num := ofZ 10.
Definition STOP_Y_TOP : num := ofZ 415.
Definition STOP_Y_BOT : num := ofZ 10.

(** The velocity of a moving car after the acceleration and the braking of
    one frame. *)
Definition nextVelocity (delta : num) (s : State) : num :=
  let dist := (targetY s - y s)%js in
  let dir := Math_sign dist in
  let v1 := if (Math_abs (velocity s) <? MAX_SPEED)%js
            then (velocity s + dir * ACCEL * delta)%js else velocity s in
  if (Math_abs dist <? ofZ 50)%js then (v1 * lit 95 100)%js else v1.

(** The test that ends a move: within the epsilon of the target, or a
    velocity against the travel direction. *)
Definition arrives (delta : num) (s : State) : bool :=
  let dist := (targetY s - y s)%js in
  let dir := Math_sign dist in
  let v := nextVelocity delta s in
  (Math_abs dist <? ofZ 1)%js
  || ((dir >? ofZ 0)%js && (v <? ofZ 0)%js)
  || ((dir <? ofZ 0)%js && (v >? ofZ 0)%js).

(** The state part of [update]; [random] is the value [Math.random()]
    returns when the frame draws a new dwell. *)
Definition step (delta random : num) (s : State) : State :=
  match mode s with
  | wait =>
      let wt := (waitTime s - delta)%js in
      if (wt <=? ofZ 0)%js then
        if (y s <? ofZ 100)%js
        then mkState (y s) STOP_Y_TOP (velocity s) up wt
        else mkState (y s) STOP_Y_BOT (velocity s) down wt
      else mkState (y s) (targetY s) (velocity s) (mode s) wt
  | _ =>
      let v := nextVelocity delta s in
      if arrives delta s then
        mkState (targetY s) (targetY s) (ofZ 0) wait (ofZ 3 + random * ofZ 5)%js
      else
        mkState (y s + v * delta)%js (targetY s) v (mode s) (waitTime s)
  end.

Definition update (delta random : num) (e : Elevator) : Elevator :=
  let s := step delta random (state e) in
  let p := rotatePoint (ofZ 11) (ofZ 0) (angle e) in
  mkElevator (angle e) (speedOffset e) s (y s)
             (mkVec (px p) (y s + ofZ 3)%js (pz p)).

(** A run: one pair of frame time and random draw per frame. *)
Fixpoint run (frames : list (num * num)) (e : Elevator) : Elevator :=
  match frames with
  | [] => e
  | (delta, random) :: rest => run rest (update delta random e)
  end.

(** The states after each frame of a run, oldest first. *)
Fixpoint trace (frames : list (num * num)) (e : Elevator) : list Elevator :=
  match frames with
  | [] => []
  | (delta, random) :: rest =>
      update delta random e :: trace rest (update delta random e)
  end.

(** The four legs of the shuttle cycle, read off the state. *)
Inductive Phase : Type := AtBottom | GoingUp | AtTop | GoingDown.

Definition nextPhase (p : Phase) : Phase :=
  match p with
  | AtBottom => GoingUp
  | GoingUp => AtTop
  | AtTop => GoingDown
  | GoingDown => AtBottom
  end.

Definition phase (s : State) : Phase :=
  match mode s with
  | wait => if (y s <? ofZ 100)%js then AtBottom else AtTop
  | up => GoingUp
  | down => GoingDown
  end.

(** A sequence of phases that, starting from [p], stays or moves on to the
    next leg of the cycle at each frame. *)
Fixpoint follows (p : Phase) (l : list Phase) : Prop :=
  match l with
  | [] => True
  | q :: rest => (q = p \/ q = nextPhase p) /\ follows q rest
  end.

(** While waiting the car stands exactly at an endpoint with velocity 0;
    while moving its target is the endpoint of that direction. *)
Definition Inv (s : State) : Prop :=
  match mode s with
  | wait => (y s = STOP_Y_BOT \/ y s = STOP_Y_TOP) /\ velocity s = ofZ 0
  | up => targetY s = STOP_Y_TOP
  | down => targetY s = STOP_Y_BOT
  end.

(** [n] frames of the state machine at the same frame time and draw. *)
Fixpoint iterate (delta random : num) (n : nat) (s : State) : State :=
  match n with
  | O => s
  | S n' => iterate delta random n' (step delta random s)
  end.

(** The state a move ends in: on the target, at rest, waiting. *)
Definition arrivedAt (t : num) (random : num) : State :=
  mkState t t (ofZ 0) wait (ofZ 3 + random * ofZ 5)%js.

Definition q415 : Qc := Q2Qc (inject_Z 415).
Definition q10 : Qc := Q2Qc (inject_Z 10).

(** A random draw as [Math.random()] yields them: in [[0, 1)]. *)
Definition isRandom (r : num) : bool := (ofZ 0 <=? r)%js && (r <? ofZ 1)%js.

End WithMath.
End Elevator.

(* ================================================================= *)
(** ** The tower's voxel emitters: add, addTri, addHex *)

Module Needle.
Section WithMath.
Context {M : MathLib}.

Record Voxel : Type := mkVoxel { x : num; y : num; z : num; color : string }.

(** The four lists of [generateNeedleVoxels]. *)
Record Voxels : Type := mkVoxels {
  solidVoxels : list Voxel;
  glassVoxels : list Voxel;
  rotatingVoxels : list Voxel;
  rotatingGlassVoxels : list Voxel
}.

Definition empty : Voxels := mkVoxels [] [] [] [].

(** [type] is the last argument of the emitters; a call without it passes
    the default ["solid"]. *)
Definition add (x y z : num) (color type : string) (st : Voxels) : Voxels :=
  let v := mkVoxel (Math_round x) (Math_round y) (Math_round z) color in
  if (type =? "glass")%string then
    mkVoxels (solidVoxels st) (glassVoxels st ++ [v]) (rotatingVoxels st)
             (rotatingGlassVoxels st)
  else if (type =? "rotating")%string then
    mkVoxels (solidVoxels st) (glassVoxels st) (rotatingVoxels st ++ [v])
             (rotatingGlassVoxels st)
  else if (type =? "rotatingGlass")%string then
    mkVoxels (solidVoxels st) (glassVoxels st) (rotatingVoxels st)
             (rotatingGlassVoxels st ++ [v])
  else
    mkVoxels (solidVoxels st ++ [v]) (glassVoxels st) (rotatingVoxels st)
             (rotatingGlassVoxels st).

Definition addTri (x y z : num) (color type : string) (st : Voxels) : Voxels :=
  fold_left
    (fun st angle =>
       let p := rotatePoint x z angle in
       add (px p) y (pz p) color type st)
    [ofZ 0; ofZ 120; ofZ 240] st.

Definition addHex (x y z : num) (color type : string) (st : Voxels) : Voxels :=
  fold_left
    (fun st i =>
       let p := rotatePoint x z (ofZ i * ofZ 60)%js in
       add (px p) y (pz p) color type st)
    [0; 1; 2; 3; 4; 5]%Z st.

(** The list a voxel of the given [type] goes to. *)
Inductive Channel : Type := Solid | Glass | Rotating | RotatingGlass.

Definition channel (type : string) : Channel :=
  if (type =? "glass")%string then Glass
  else if (type =? "rotating")%string then Rotating
  else if (type =? "rotatingGlass")%string then RotatingGlass
  else Solid.

Definition listOf (c : Channel) (st : Voxels) : list Voxel :=
  match c with
  | Solid => solidVoxels st
  | Glass => glassVoxels st
  | Rotating => rotatingVoxels st
  | RotatingGlass => rotatingGlassVoxels st
  end.

(** The rotation of the plane by an angle of cosine [c] and sine [s]. *)
Definition rotate2D (c s x z : num) : XZ :=
  mkXZ (x * c - z * s)%js (x * s + z * c)%js.

Definition radians (angleDeg : num) : num := (angleDeg * (Math_PI / ofZ 180))%js.

(** The voxel the emitters place for the point [(x, y, z)] turned by
    [angleDeg] about the vertical axis: the turned point on the integer
    grid. *)
Definition voxelAt (x y z angleDeg : num) (color : string) : Voxel :=
  let p := rotate2D (Math_cos (radians angleDeg)) (Math_sin (radians angleDeg)) x z in
  mkVoxel (Math_round (px p)) (Math_round y) (Math_round (pz p)) color.

End WithMath.
End Needle.

(* ================================================================= *)
(** ** createSteppedLobe *)

Module Lobe.

Record Dimensions : Type := mkDimensions { w : num; h : num; d : num }.

(** Grid keys.  The source builds the string ["ix,iy,iz"] and parses it
    back with [split] and [Number]; a key is modelled as the triple of
    numbers, compared as their decimal strings are (NaN equal to NaN). *)
Definition Key : Type := (num * num * num)%type.

Definition key_eqb (a b : Key) : bool :=
  let '(ax, ay, az) := a in
  let '(bx, by_, bz) := b in
  same ax bx && same ay by_ && same az bz.

(** A [Map] in insertion order. *)
Definition Grid : Type := list (Key * Vec).

Definition has (g : Grid) (k : Key) : bool :=
  existsb (fun e => key_eqb (fst e) k) g.

(** [grid.set(key, value)]: an existing key keeps its place. *)
Fixpoint set (g : Grid) (k : Key) (v : Vec) : Grid :=
  match g with
  | [] => [(k, v)]
  | (k', v') :: rest =>
      if key_eqb k' k then (k', v) :: rest else (k', v') :: set rest k v
  end.

Definition voxelSize : num := lit 125 100.

(** [for (let x = x0; cond(x); x += voxelSize) body(x)], over a state. *)
Fixpoint forLoop {S : Type} (fuel : nat) (cond : num -> bool) (x : num)
    (body : num -> S -> S) (s : S) : S :=
  match fuel with
  | O => s
  | Datatypes.S fuel' =>
      if cond x then forLoop fuel' cond (x + voxelSize)%js body (body x s)
      else s
  end.

(** A bound on the number of rounds of a loop from [lo] up to [hi]. *)
Definition tripCount (lo hi : num) : nat :=
  match ((hi - lo) / voxelSize)%js with
  | Fin q => Z.to_nat (Qfloor (this q) + 1)
  | NaN => O
  end.

Section Generator.
Variable center : Vec.
Variable dimensions : Dimensions.
Variable shapeFn : num -> num -> num -> bool.
Variable exclusionFn : option (num -> num -> num -> bool).

(** The body of the innermost loop. *)
Definition cell (x y z : num) (grid : Grid) : Grid :=
  let nx := (x / w dimensions)%js in
  let ny := ((y - h dimensions / ofZ 2) / (h dimensions / ofZ 2))%js in
  let nz := (z / d dimensions)%js in
  if shapeFn nx ny nz then
    let vx := (vx center + x)%js in
    let vy := (vy center + y)%js in
    let vz := (vz center + z)%js in
    let excluded :=
      match exclusionFn with
      | Some f => f vx vy vz
      | None => false
      end in
    if excluded then grid
    else
      let ix := Math_round (x / voxelSize)%js in
      let iy := Math_round (y / voxelSize)%js in
      let iz := Math_round (z / voxelSize)%js in
      set grid (ix, iy, iz) (mkVec vx vy vz)
  else grid.

(** The three nested loops that fill the grid, with the fuel of each. *)
Definition sweepWith (fuelY fuelX fuelZ : nat) : Grid :=
  let w := w dimensions in
  let h := h dimensions in
  let d := d dimensions in
  forLoop fuelY (fun y => (y <? h)%js) (ofZ 0)
    (fun y =>
       forLoop fuelX (fun x => (x <=? w)%js) (- w)%js
         (fun x =>
            forLoop fuelZ (fun z => (z <=? d)%js) (- d)%js
              (fun z => cell x y z)))
    [].

Definition sweep : Grid :=
  let w := w dimensions in
  let h := h dimensions in
  let d := d dimensions in
  sweepWith (tripCount (ofZ 0) h) (tripCount (- w)%js w) (tripCount (- d)%js d).

End Generator.

Definition neighbors (k : Key) : list Key :=
  let '(ix, iy, iz) := k in
  [ ((ix + ofZ 1)%js, iy, iz); ((ix - ofZ 1)%js, iy, iz);
    (ix, (iy + ofZ 1)%js, iz); (ix, (iy - ofZ 1)%js, iz);
    (ix, iy, (iz + ofZ 1)%js); (ix, iy, (iz - ofZ 1)%js) ].

(** The test of the boundary extraction: some neighbour is not in the
    grid. *)
Definition exposed (grid : Grid) (k : Key) : bool :=
  existsb (fun nKey => negb (has grid nKey)) (neighbors k).

(** The [grid.forEach] that collects the boundary voxels: the entries it
    keeps, and the values it pushes. *)
Definition kept (grid : Grid) : Grid :=
  filter (fun e => exposed grid (fst e)) grid.

Definition boundary (grid : Grid) : list Vec := map snd (kept grid).

(** An instanced mesh: its instance count and the translations written
    with [setMatrixAt], by index. *)
Record InstancedMesh : Type := mkInstancedMesh {
  count : nat;
  instanceMatrix : list Vec;
  castShadow : bool;
  receiveShadow : bool
}.

(** The children of [parent] after the call.  The scene, the colour and
    the material parameters do not bear on the voxels and are left out. *)
Definition createSteppedLobe (center : Vec) (dimensions : Dimensions)
    (shapeFn : num -> num -> num -> bool)
    (parent : list InstancedMesh)
    (exclusionFn : option (num -> num -> num -> bool)) : list InstancedMesh :=
  let grid := sweep center dimensions shapeFn exclusionFn in
  let voxels := boundary grid in
  let mesh := mkInstancedMesh (List.length voxels) voxels true true in
  parent ++ [mesh].

(** The keys of a solid cube of side [n] whose least corner is
    [(a, b, c)]. *)
Definition axis (a : Z) (n : nat) : list num :=
  map (fun i => ofZ (a + Z.of_nat i)) (seq 0 n).

Definition cubeKeys (a b c : Z) (n : nat) : list Key :=
  list_prod (list_prod (axis a n) (axis b n)) (axis c n).

(** A grid that holds exactly the cells of that cube, each once. *)
Definition SolidCube (grid : Grid) (a b c : Z) (n : nat) : Prop :=
  NoDup (map fst grid) /\
  forall k, In k (map fst grid) <-> In k (cubeKeys a b c n).

(** Cells of the cube with no face on its surface. *)
Definition interiorKeys (a b c : Z) (n : nat) : list Key :=
  cubeKeys (a + 1) (b + 1) (c + 1) (n - 2).

Definition inner (a : Z) (n : nat) (x : num) : bool :=
  existsb (same x) (axis (a + 1) (n - 2)).

Definition interiorb (a b c : Z) (n : nat) (k : Key) : bool :=
  let '(x, y, z) := k in inner a n x && inner b n y && inner c n z.



Definition cube3 : Dimensions := mkDimensions (lit 125 100) (lit 375 100) (lit 125 100).

(** A shape function that is true everywhere, and the dimensions that make
    the sweep visit [n] cells along each axis. *)
Definition solid (nx ny nz : num) : bool := true.

Definition cubeDimensions (n : nat) : Dimensions :=
  let half := (voxelSize * ofZ (Z.of_nat (n - 1)) / ofZ 2)%js in
  mkDimensions half (voxelSize * ofZ (Z.of_nat n))%js half.

(** The least index of that cube along x and z. *)
Definition cubeOrigin (n : nat) : Z := (- (Z.of_nat (n - 1) / 2))%Z.

(** The values a loop variable takes in [n] rounds from [lo]. *)
Definition vsq : Qc := Q2Qc (125 # 100).

Definition steps (lo : Qc) (n : nat) : list num :=
  map (fun k => Fin (lo + Q2Qc (inject_Z (Z.of_nat k)) * vsq)%Qc) (seq 0 n).

Definition halfq (n : nat) : Qc :=
  (vsq * Q2Qc (inject_Z (Z.of_nat (n - 1))) / Q2Qc (inject_Z 2))%Qc.

Definition heightq (n : nat) : Qc := (vsq * Q2Qc (inject_Z (Z.of_nat n)))%Qc.

(** The key of the cell visited at [(x, y, z)]. *)
Definition keyOf (x y z : num) : Key :=
  (Math_round (x / voxelSize)%js, Math_round (y / voxelSize)%js,
   Math_round (z / voxelSize)%js).

(** A checker for [SolidCube], to run on a computed grid. *)
Definition memKey (l : list Key) (k : Key) : bool := existsb (key_eqb k) l.

Fixpoint nodupKeys (l : list Key) : bool :=
  match l with
  | [] => true
  | k :: rest => negb (memKey rest k) && nodupKeys rest
  end.

Definition solidCubeb (grid : Grid) (a b c : Z) (n : nat) : bool :=
  nodupKeys (map fst grid)
  && forallb (memKey (cubeKeys a b c n)) (map fst grid)
  && forallb (memKey (map fst grid)) (cubeKeys a b c n).

End Lobe.

(* ================================================================= *)
(** ** Camera targets and frame times *)

(** The object the [getCameraTarget] methods return. *)
Module Camera.
Record Target (V : Type) : Type := mkTarget { position : V; lookAt : V }.
Arguments mkTarget {V} _ _.
Arguments position {V} _.
Arguments lookAt {V} _.
End Camera.

(** [a - b] on two properties. *)
Definition field_sub (a b : jsfield) : jsfield :=
  match a, b with
  | Number m, Number n => Number (m - n)%js
  | _, _ => Number NaN
  end.

Definition toVector3 (v : Vec) : Vector3 := vec (vx v) (vy v) (vz v).

(** The number a property is read as in arithmetic: [undefined] gives
    NaN. *)
Definition toNumber (f : jsfield) : num :=
  match f with Number n => n | Undefined => NaN end.

(** [Math.floor]. *)
Definition Math_floor (x : num) : num :=
  match x with
  | NaN => NaN
  | Fin a => ofZ (Qfloor (this a))
  end.

(** The sum of the frame times of a run. *)
Definition elapsed (deltas : list num) : num := fold_right JS.add (ofZ 0) deltas.

(** A frame time between 0 and [hi] seconds. *)
Definition frameWithin (hi : num) (d : num) : bool := (ofZ 0 <=? d)%js && (d <=? hi)%js.

(* ================================================================= *)
(** ** train.js: getCameraTarget, and the two stops *)

Module TrainCamera.
Import Train.
Section WithQuaternion.
(** [v.applyQuaternion(node.quaternion)]: the orientation of a node is
    the work of three.js's [lookAt]; the camera code is modelled for any
    such rotation. *)
Variable applyQuaternion : Object3D -> Vec -> Vec.

Definition leadCarIndex (t : Train) : nat :=
  if eqb (direction t) (ofZ 1) then 0%nat else 3%nat.

Definition getCameraTarget (t : Train) : Camera.Target Vector3 :=
  match nth_error (cars t) (leadCarIndex t) with
  | None =>
      Camera.mkTarget (vec (ofZ 0) (ofZ 0) (ofZ 0)) (vec (ofZ 0) (ofZ 0) (ofZ 0))
  | Some car =>
      let forward := eqb (direction t) (ofZ 1) in
      let localPos := if forward then mkVec (ofZ 0) (lit 22 10) (lit 28 10)
                      else mkVec (ofZ 0) (lit 22 10) (lit (-28) 10) in
      let lookDir := if forward then mkVec (ofZ 0) (ofZ 0) (ofZ 1)
                     else mkVec (ofZ 0) (ofZ 0) (ofZ (-1)) in
      let worldPos :=
        vadd (position (group car)) (toVector3 (applyQuaternion (group car) localPos)) in
      let worldLookDir := applyQuaternion (group car) lookDir in
      let lookAt := vadd worldPos (toVector3 (vscale worldLookDir (ofZ 50))) in
      Camera.mkTarget worldPos
        (mkVector3 (x lookAt) (field_sub (y lookAt) (Number (ofZ 5))) (z lookAt))
  end.

End WithQuaternion.
End TrainCamera.

Module Shuttle.
Import Train.

(** The blue train of index.js. *)
Definition blueConfig : Config.Config :=
  Config.mkConfig (Some (lit 95 100)) (Some (lit 32 100)) (Some (ofZ (-1))).

(** Standing at one of the two stops, with the direction that leads away
    from it. *)
Definition AtStop (t : Train) : Prop :=
  (progress t = maxProgress /\ direction t = ofZ (-1)) \/
  (progress t = minProgress /\ direction t = ofZ 1).

End Shuttle.

(* ================================================================= *)
(** ** TrafficSystem, and runs of one follower *)

Module TrafficSystem.

Record TrafficSystem : Type := mkTrafficSystem {
  cars : list TrafficCar.TrafficCar
}.

Definition SPEED_BASE : num := ofZ 60.
Definition NUM_CARS : nat := 20.

(** [c] is [TAXI_PATH]; the colours drawn with [Math.random] do not bear
    on the motion. *)
Definition constructor (c : option Curve) : TrafficSystem :=
  mkTrafficSystem
    (map (fun i =>
            TrafficCar.constructor c
              (ofZ (Z.of_nat i) / ofZ (Z.of_nat NUM_CARS))%js SPEED_BASE)
         (seq 0 NUM_CARS)).

Definition update (delta : num) (s : TrafficSystem) : TrafficSystem :=
  mkTrafficSystem (map (fun car => fst (TrafficCar.update delta car)) (cars s)).

Fixpoint run (deltas : list num) (s : TrafficSystem) : TrafficSystem :=
  match deltas with
  | [] => s
  | d :: rest => run rest (update d s)
  end.




End TrafficSystem.

(** Runs of a single follower: the car after the frames, and the curve
    parameters sampled on the way, in call order. *)
Module Followers.

Fixpoint trafficRun (deltas : list num) (car : TrafficCar.TrafficCar)
    : TrafficCar.TrafficCar * list num :=
  match deltas with
  | [] => (car, [])
  | d :: rest =>
      let '(car1, ts) := TrafficCar.update d car in
      let '(car2, ts') := trafficRun rest car1 in
      (car2, ts ++ ts')
  end.

Fixpoint taxiRun (deltas : list num) (taxi : HeroTaxi.HeroTaxi)
    : HeroTaxi.HeroTaxi * list num :=
  match deltas with
  | [] => (taxi, [])
  | d :: rest =>
      let '(taxi1, ts) := HeroTaxi.update d taxi in
      let '(taxi2, ts') := taxiRun rest taxi1 in
      (taxi2, ts ++ ts')
  end.

End Followers.

(* ================================================================= *)
(** ** Elevator: camera target, cabin voxels, bounds of the motion *)

Module ElevatorView.
Import Elevator.
Section WithMath.
Context {M : MathLib}.

Definition getCameraTarget (e : Elevator) : Camera.Target Vec :=
  let r := ofZ 11 in
  let h := (y (state e) + ofZ 3)%js in
  let p := rotatePoint r (ofZ 0) (angle e) in
  let pos := mkVec (px p) h (pz p) in
  let rad := (angle e * (Math_PI / ofZ 180))%js in
  let dir := mkVec (Math_cos rad) (ofZ 0) (Math_sin rad) in
  let lookAt := vplus pos (vscale dir (ofZ 100)) in
  Camera.mkTarget pos (mkVec (vx lookAt) (vy lookAt - ofZ 20)%js (vz lookAt)).

End WithMath.

(** What bounds the speed: finite position, target and velocity, and a
    velocity within [MAX_SPEED + ACCEL * D]. *)
Definition Bounded (D : Qc) (s : State) : Prop :=
  exists yq tq vq : Qc,
    y s = Fin yq /\ targetY s = Fin tq /\ velocity s = Fin vq /\
    (- (15 + 10 * this D) <= this vq)%Q /\ (this vq <= 15 + 10 * this D)%Q.

(** The car is inside the shaft, up to the travel of one frame. *)
Definition InShaft (D : Qc) (s : State) : Prop :=
  exists yq : Qc,
    y s = Fin yq /\
    (10 - (15 + 10 * this D) * this D <= this yq)%Q /\
    (this yq <= 415 + (15 + 10 * this D) * this D)%Q.

End ElevatorView.

(** The voxels of an elevator car, built in the Elevator constructor. *)
Module ElevatorCabin.
Section WithMath.
Context {M : MathLib}.

Definition cDoor : string := "#333333".
Definition cFloor : string := "#1a1a1a".

(** The type and the colour of the cell [(dx, dy, dz)]; [color] is the
    body colour of the car. *)
Definition classify (color : string) (dy dx dz : Z) : string * string :=
  if (dy =? 0)%Z then ("solid"%string, cFloor)
  else if (dy =? 5)%Z then ("solid"%string, color)
  else if (dx =? 1)%Z then ("glass"%string, color)
  else if (dx =? 0)%Z then
    (if (dz =? 0)%Z then ("empty"%string, color) else ("glass"%string, color))
  else
    (if (dz =? 0)%Z then ("solid"%string, cDoor) else ("solid"%string, color)).

Record Cabin : Type := mkCabin {
  solidVoxels : list Needle.Voxel;
  glassVoxels : list Needle.Voxel
}.

(** The body of the innermost loop. *)
Definition cell (angle : num) (color : string) (dy dx dz : Z) (cabin : Cabin) : Cabin :=
  let pLocal := rotatePoint (ofZ 11 + ofZ dx)%js (ofZ dz) angle in
  let '(type, vColor) := classify color dy dx dz in
  if (type =? "empty")%string then cabin
  else
    let v := Needle.mkVoxel (px pLocal) (ofZ dy) (pz pLocal) vColor in
    if (type =? "glass")%string
    then mkCabin (solidVoxels cabin) (glassVoxels cabin ++ [v])
    else mkCabin (solidVoxels cabin ++ [v]) (glassVoxels cabin).

(** [for dy in 0..5, for dx in -1..1, for dz in -1..1]. *)
Definition voxels (angle : num) (color : string) : Cabin :=
  fold_left
    (fun cabin dy =>
       fold_left
         (fun cabin dx =>
            fold_left (fun cabin dz => cell angle color dy dx dz cabin)
                      [-1; 0; 1]%Z cabin)
         [-1; 0; 1]%Z cabin)
    [0; 1; 2; 3; 4; 5]%Z (mkCabin [] []).

(** The number of voxels of a list on the layer [dy]. *)
Definition onLayer (dy : Z) (l : list Needle.Voxel) : nat :=
  List.length (filter (fun v => same (Needle.y v) (ofZ dy)) l).

End WithMath.
End ElevatorCabin.

(* ================================================================= *)
(** ** SpaceNeedle *)

Module SpaceNeedle.
Section WithMath.
Context {M : MathLib}.

Record SpaceNeedle : Type := mkSpaceNeedle {
  elevators : list Elevator.Elevator;
  rotatingGroupRotationY : num;
  blinkLightIntensity : num;
  time : num
}.

(** [r0], [r1], [r2] are the values [Math.random()] returns in the three
    Elevator constructors. *)
Definition constructor (r0 r1 r2 : num) : SpaceNeedle :=
  mkSpaceNeedle
    [ Elevator.constructor (ofZ 60) (ofZ 0) r0;
      Elevator.constructor (ofZ 180) (ofZ 2) r1;
      Elevator.constructor (ofZ 300) (ofZ 4) r2 ]
    (ofZ 0) (ofZ 500) (ofZ 0).

(** [elevators.forEach(e => e.update(delta))]; [random i] is the draw of
    elevator [i] in this frame. *)
Fixpoint updateEach (delta : num) (random : nat -> num) (i : nat)
    (es : list Elevator.Elevator) : list Elevator.Elevator :=
  match es with
  | [] => []
  | e :: rest =>
      Elevator.update delta (random i) e :: updateEach delta random (S i) rest
  end.

Definition update (delta : num) (random : nat -> num) (n : SpaceNeedle) : SpaceNeedle :=
  let time' := (time n + delta)%js in
  mkSpaceNeedle
    (updateEach delta random 0 (elevators n))
    (rotatingGroupRotationY n + delta * lit 5 100)%js
    (if (Math_sin (time' * ofZ 5) >? ofZ 0)%js then ofZ 500 else ofZ 0)
    time'.

Fixpoint run (frames : list (num * (nat -> num))) (n : SpaceNeedle) : SpaceNeedle :=
  match frames with
  | [] => n
  | (delta, random) :: rest => run rest (update delta random n)
  end.

(** The frames one elevator sees in a run of the tower. *)
Definition framesOf (i : nat) (frames : list (num * (nat -> num))) : list (num * num) :=
  map (fun f => (fst f, snd f i)) frames.

End WithMath.
End SpaceNeedle.

(* ================================================================= *)
(** ** The voxel emitters on the integer grid *)

Module NeedleGrid.
Import Needle.

(** A coordinate on the integer grid; NaN is what [Math.round] gives for
    NaN. *)
Definition integral (n : num) : Prop := n = NaN \/ exists k : Z, n = ofZ k.

Definition onGrid (v : Voxel) : Prop := integral (x v) /\ integral (y v) /\ integral (z v).

Definition allOnGrid (st : Voxels) : Prop :=
  Forall onGrid (solidVoxels st) /\ Forall onGrid (glassVoxels st) /\
  Forall onGrid (rotatingVoxels st) /\ Forall onGrid (rotatingGlassVoxels st).

End NeedleGrid.

(* ================================================================= *)
(** ** checkExclusion, and the voxels of a lobe *)

Module Exclusion.

Definition TRACK_HEIGHT : num := ofZ 12.

(** The museum's position in the world. *)
Definition mopopWorldPos : Vec := mkVec (ofZ (-70)) (ofZ 0) (ofZ (-280)).

(** [Math.abs(a - b) < 60] on a property that may be missing. *)
Definition within60 (a : jsfield) (b : num) : bool :=
  match a with
  | Number n => (Math_abs (n - b) <? ofZ 60)%js
  | Undefined => false
  end.

(** The test of the [forEach] that collects the track points near the
    museum; [None] is a [null] or [undefined] entry. *)
Definition relevant (p : option Vector3) : bool :=
  match p with
  | Some q => within60 (z q) (vz mopopWorldPos) && within60 (x q) (vx mopopWorldPos)
  | None => false
  end.

(** [tracks] are the results of [getSpacedPoints(400)] on the two tracks;
    [None] stands for a missing track or a missing result. *)
Definition relevantTrackPoints (tracks : list (option (list (option Vector3))))
    : list (option Vector3) :=
  flat_map (fun pts => match pts with
                       | Some l => filter relevant l
                       | None => []
                       end) tracks.

Section CheckExclusion.
(** [mopop.matrix], applied with [applyMatrix4]; [None] when it is
    missing. *)
Variable matrix : option (Vec -> Vec).
Variable points : list (option Vector3).

(** The body of the loop over the track points: [true] when the point
    is closer than 4 to [v] in the horizontal plane. *)
Definition near (v : Vec) (p : option Vector3) : bool :=
  match p with
  | None => false
  | Some q =>
      match x q, z q with
      | Number qx, Number qz =>
          let dx := (qx - vx v)%js in
          let dz := (qz - vz v)%js in
          (dx * dx + dz * dz <? ofZ 16)%js
      | _, _ => false
      end
  end.

(** The arguments are the numbers [createSteppedLobe] passes. *)
Definition checkExclusion (localX localY localZ : num) : bool :=
  if (localY <? TRACK_HEIGHT - ofZ 2)%js || (localY >? TRACK_HEIGHT + ofZ 6)%js then false
  else
    let v := mkVec localX localY localZ in
    let v := match matrix with Some m => m v | None => v end in
    match points with
    | [] => false
    | _ => existsb (near v) points
    end.

End CheckExclusion.

(** [v.applyMatrix4(mopop.matrix)] under its guard. *)
Definition toWorld (matrix : option (Vec -> Vec)) (v : Vec) : Vec :=
  match matrix with Some m => m v | None => v end.

(** Whether the height is in the band the exclusion looks at. *)
Definition inBand (localY : num) : bool :=
  negb ((localY <? TRACK_HEIGHT - ofZ 2)%js || (localY >? TRACK_HEIGHT + ofZ 6)%js).

End Exclusion.

Module LobeBox.
Import Lobe.

(** The box a lobe's voxels are generated in. *)
Definition inBox (center : Vec) (dims : Dimensions) (v : Vec) : bool :=
  (vx center - w dims <=? vx v)%js && (vx v <=? vx center + w dims)%js
  && (vy center <=? vy v)%js && (vy v <? vy center + h dims)%js
  && (vz center - d dims <=? vz v)%js && (vz v <=? vz center + d dims)%js.

(** A voxel of the sweep: the cell position [(x, y, z)] it was made at
    passes the shape test and is not excluded. *)
Definition Passes (center : Vec) (dims : Dimensions)
    (shapeFn : num -> num -> num -> bool)
    (exclusionFn : option (num -> num -> num -> bool)) (v : Vec) : Prop :=
  exists x y z : num,
    v = mkVec (vx center + x)%js (vy center + y)%js (vz center + z)%js /\
    shapeFn (x / w dims)%js ((y - h dims / ofZ 2) / (h dims / ofZ 2))%js (z / d dims)%js
    = true /\
    match exclusionFn with
    | Some f => f (vx v) (vy v) (vz v) = false
    | None => True
    end.

End LobeBox.

(* ================================================================= *)
(** ** createTrack: the piers, and the road surface under them *)

Module Track.

Definition PIER_SPACING : num := ofZ 20.

(** The height of the ground under a pier (the ramps of the Fifth Avenue
    cut). *)
Definition groundY (x z : num) : num :=
  if (x >? ofZ (-10))%js && (x <? ofZ 40)%js then
    if (z <? ofZ (-200))%js && (z >? ofZ (-245))%js then
      let rampLen := ofZ 45 in
      let dist := (z - ofZ (-245))%js in
      let tRamp := Math_max (ofZ 0) (Math_min (ofZ 1) (dist / rampLen)%js) in
      (ofZ (-12) * (ofZ 1 - tRamp))%js
    else if (z >? ofZ 80)%js && (z <? ofZ 140)%js then
      let rampLen := ofZ 60 in
      let dist := (z - ofZ 80)%js in
      let tRamp := Math_max (ofZ 0) (Math_min (ofZ 1) (dist / rampLen)%js) in
      (ofZ (-12) * tRamp)%js
    else ofZ 0
  else ofZ 0.

Definition beamHalfHeight : num := ofZ 1.
Definition capHeight : num := lit 15 10.
Definition capTopY : num := (- beamHalfHeight)%js.
Definition capCy : num := (capTopY - capHeight / ofZ 2)%js.
Definition capBottomY : num := (capTopY - capHeight)%js.

(** A pier that was added to the track: the position of its node, the
    target of the [lookAt] its heading is taken from, and the height and
    the centre of its column in the node's frame. *)
Record Pier : Type := mkPier {
  pierPosition : Vector3;
  yawTarget : option Vector3;
  columnHeight : num;
  columnCy : num
}.

(** The body of the loop over the piers; [None] when the round adds
    nothing. *)
Definition pierAt (c : Curve) (t : num) : option Pier :=
  match getPointAt c t with
  | None => None
  | Some position =>
      if negb (typeof_number (x position)) then None
      else
        let lookTarget :=
          match getTangentAt c t with
          | Some tangent => Some (vadd position tangent)
          | None => None
          end in
        let groundY := groundY (toNumber (x position)) (toNumber (z position)) in
        let topRel := capBottomY in
        let botRel := (groundY - toNumber (y position))%js in
        let columnHeight := (topRel - botRel)%js in
        let columnCy := (topRel - columnHeight / ofZ 2)%js in
        if (columnHeight >? lit 5 10)%js
        then Some (mkPier position lookTarget columnHeight columnCy)
        else None
  end.

(** The curve parameters of the rounds [i = 0 .. count]. *)
Definition pierParameters (length : num) : list num :=
  match Math_floor (length / PIER_SPACING)%js with
  | NaN => []
  | Fin count =>
      map (fun i => (ofZ (Z.of_nat i) / Fin count)%js)
          (seq 0 (Z.to_nat (Qfloor (this count) + 1)))
  end.

(** The piers of a track; [length] is [curve.getLength()]. *)
Definition createTrack (c : Curve) (length : num) : list Pier :=
  flat_map (fun t => match pierAt c t with Some p => [p] | None => [] end)
           (pierParameters length).

End Track.

(** The road surface that createFifthAvePavement lays at the row [z] and
    the column [x]. *)
Module Pavement.

Definition roadMinX : num := ofZ (-2).
Definition roadMaxX : num := ofZ 22.

Definition isRamp (z : num) : bool :=
  ((z <? ofZ (-200))%js && (z >? ofZ (-245))%js)
  || ((z >? ofZ 80)%js && (z <? ofZ 140)%js).

Definition ySurface (z : num) : num :=
  if (z <? ofZ (-200))%js && (z >? ofZ (-245))%js then
    let rampLen := ofZ 45 in
    let dist := (z - ofZ (-245))%js in
    let t := (dist / rampLen)%js in
    (ofZ (-12) * (ofZ 1 - t))%js
  else if (z >? ofZ 80)%js && (z <? ofZ 140)%js then
    let rampLen := ofZ 60 in
    let dist := (z - ofZ 80)%js in
    let t := Math_min (ofZ 1) (dist / rampLen)%js in
    (ofZ (-12) * t)%js
  else ofZ 0.

Definition isRoad (x : num) : bool := (x >=? roadMinX)%js && (x <=? roadMaxX)%js.

Definition yBase (x z : num) : num :=
  if isRamp z && negb (isRoad x) then ofZ 0 else ySurface z.

End Pavement.

(* ================================================================= *)
(** ** WestlakeMall: the gears *)

Module WestlakeMall.

(** The mall, as far as [update] goes: [rotation.y] of each gear, in the
    order the gears were pushed. *)
Record WestlakeMall : Type := mkWestlakeMall {
  gears : list num
}.

(** [buildEscalators] makes two gear chambers of three gears each; a new
    group has no rotation. *)
Definition constructor : WestlakeMall := mkWestlakeMall (repeat (ofZ 0) 6).

(** [gears.forEach((gear, i) => ...)], from index [i] on. *)
Fixpoint turnFrom (i : nat) (delta : num) (rotations : list num) : list num :=
  match rotations with
  | [] => []
  | r :: rest =>
      let dir := if Nat.even i then ofZ 1 else ofZ (-1) in
      (r + delta * lit 15 10 * dir)%js :: turnFrom (S i) delta rest
  end.

Definition update (delta : num) (m : WestlakeMall) : WestlakeMall :=
  mkWestlakeMall (turnFrom 0 delta (gears m)).

Fixpoint run (deltas : list num) (m : WestlakeMall) : WestlakeMall :=
  match deltas with
  | [] => m
  | d :: rest => run rest (update d m)
  end.

(** Six gears that alternate between the angle [a] and its opposite. *)
Definition alternating (a : Qc) : list num :=
  [Fin a; Fin (- a); Fin a; Fin (- a); Fin a; Fin (- a)].

End WestlakeMall.

(* ################################################################# *)
(** * Properties *)

(* ================================================================= *)
(** ** Reasoning about numbers *)

Section NumFacts.

Lemma this_add (a b : Qc) : (this (a + b)%Qc == this a + this b)%Q.
Proof. unfold Qcplus, Q2Qc. cbn [this]. apply Qred_correct. Qed.

Lemma this_sub (a b : Qc) : (this (a - b)%Qc == this a - this b)%Q.
Proof.
  unfold Qcminus, Qcplus, Qcopp, Q2Qc. cbn [this].
  rewrite !Qred_correct. reflexivity.
Qed.

Lemma this_mul (a b : Qc) : (this (a * b)%Qc == this a * this b)%Q.
Proof. unfold Qcmult, Q2Qc. cbn [this]. apply Qred_correct. Qed.

Lemma this_opp (a : Qc) : (this (- a)%Qc == - this a)%Q.
Proof. unfold Qcopp, Q2Qc. cbn [this]. apply Qred_correct. Qed.

Lemma this_Q2Qc (q : Q) : (this (Q2Qc q) == q)%Q.
Proof. unfold Q2Qc. cbn [this]. apply Qred_correct. Qed.

Lemma Qc_ext (a b : Qc) : (this a == this b)%Q -> a = b.
Proof. apply Qc_is_canon. Qed.

Lemma ltb_Fin (a b : Qc) : (Fin a <? Fin b)%js = true <-> (this a < this b)%Q.
Proof.
  unfold ltb, cmp, Qccompare. rewrite Qlt_alt.
  destruct (this a ?= this b)%Q; split; congruence.
Qed.

Lemma leb_Fin (a b : Qc) : (Fin a <=? Fin b)%js = true <-> (this a <= this b)%Q.
Proof.
  unfold leb, cmp, Qccompare. rewrite Qle_alt.
  destruct (this a ?= this b)%Q; split; congruence.
Qed.

Lemma gtb_Fin (a b : Qc) : (Fin a >? Fin b)%js = true <-> (this b < this a)%Q.
Proof.
  unfold gtb, cmp, Qccompare. rewrite Qgt_alt.
  destruct (this a ?= this b)%Q; split; congruence.
Qed.

Lemma geb_Fin (a b : Qc) : (Fin a >=? Fin b)%js = true <-> (this b <= this a)%Q.
Proof.
  unfold geb, cmp, Qccompare. rewrite Qge_alt.
  destruct (this a ?= this b)%Q; split; congruence.
Qed.

Lemma ltb_Fin_false (a b : Qc) : (Fin a <? Fin b)%js = false <-> (this b <= this a)%Q.
Proof.
  rewrite <- not_true_iff_false, ltb_Fin. split; [apply Qnot_lt_le | apply Qle_not_lt].
Qed.

Lemma leb_Fin_false (a b : Qc) : (Fin a <=? Fin b)%js = false <-> (this b < this a)%Q.
Proof.
  rewrite <- not_true_iff_false, leb_Fin. split; [apply Qnot_le_lt | apply Qlt_not_le].
Qed.

Lemma gtb_Fin_false (a b : Qc) : (Fin a >? Fin b)%js = false <-> (this a <= this b)%Q.
Proof.
  rewrite <- not_true_iff_false, gtb_Fin. split; [apply Qnot_lt_le | apply Qle_not_lt].
Qed.

Lemma geb_Fin_false (a b : Qc) : (Fin a >=? Fin b)%js = false <-> (this a < this b)%Q.
Proof.
  rewrite <- not_true_iff_false, geb_Fin. split; [apply Qnot_le_lt | apply Qlt_not_le].
Qed.

Lemma or_default_Fin (v : option num) (d : Qc) : exists q, (v ||| Fin d)%js = Fin q.
Proof.
  destruct v as [[|a]|]; cbn; eauto.
  destruct (negb (qzero a)); eauto.
Qed.

Lemma archimedes (a k : Q) :
  (0 < k)%Q -> exists m : nat, (a <= inject_Z (Z.of_nat m) * k)%Q.
Proof.
  intros Hk. exists (Z.to_nat (Qceiling (a / k))).
  assert (H1 : (a / k <= inject_Z (Qceiling (a / k)))%Q) by apply Qle_ceiling.
  assert (H2 : (inject_Z (Qceiling (a / k))
                <= inject_Z (Z.of_nat (Z.to_nat (Qceiling (a / k)))))%Q).
  { rewrite <- Zle_Qle. lia. }
  assert (H3 : (a == a / k * k)%Q) by (field; lra).
  rewrite H3 at 1. apply Qmult_le_compat_r; lra.
Qed.

Lemma this_ofnat_S (k : nat) :
  (inject_Z (Z.of_nat (S k)) == inject_Z (Z.of_nat k) + 1)%Q.
Proof. rewrite Nat2Z.inj_succ, <- Z.add_1_r, inject_Z_plus. reflexivity. Qed.

End NumFacts.

(** Turn the comparisons of finite numbers in the context and the goal
    into facts about rationals, ready for [lra]. *)
Ltac js2q :=
  repeat match goal with
  | H : (Fin _ <? Fin _)%js = true |- _ => apply ltb_Fin in H
  | H : (Fin _ <=? Fin _)%js = true |- _ => apply leb_Fin in H
  | H : (Fin _ >? Fin _)%js = true |- _ => apply gtb_Fin in H
  | H : (Fin _ >=? Fin _)%js = true |- _ => apply geb_Fin in H
  | H : (Fin _ <? Fin _)%js = false |- _ => apply ltb_Fin_false in H
  | H : (Fin _ <=? Fin _)%js = false |- _ => apply leb_Fin_false in H
  | H : (Fin _ >? Fin _)%js = false |- _ => apply gtb_Fin_false in H
  | H : (Fin _ >=? Fin _)%js = false |- _ => apply geb_Fin_false in H
  | |- (Fin _ <? Fin _)%js = true => apply ltb_Fin
  | |- (Fin _ <=? Fin _)%js = true => apply leb_Fin
  | |- (Fin _ >? Fin _)%js = true => apply gtb_Fin
  | |- (Fin _ >=? Fin _)%js = true => apply geb_Fin
  | |- (Fin _ <? Fin _)%js = false => apply ltb_Fin_false
  | |- (Fin _ <=? Fin _)%js = false => apply leb_Fin_false
  | |- (Fin _ >? Fin _)%js = false => apply gtb_Fin_false
  | |- (Fin _ >=? Fin _)%js = false => apply geb_Fin_false
  | |- Fin _ = Fin _ => f_equal
  | |- @eq Qc _ _ => apply Qc_ext
  end;
  repeat match goal with
  | H : context [this (Qcplus _ _)] |- _ => rewrite this_add in H
  | H : context [this (Qcminus _ _)] |- _ => rewrite this_sub in H
  | H : context [this (Qcmult _ _)] |- _ => rewrite this_mul in H
  | H : context [this (Qcopp _)] |- _ => rewrite this_opp in H
  | H : context [this (Q2Qc _)] |- _ => rewrite this_Q2Qc in H
  | |- context [this (Qcplus _ _)] => rewrite this_add
  | |- context [this (Qcminus _ _)] => rewrite this_sub
  | |- context [this (Qcmult _ _)] => rewrite this_mul
  | |- context [this (Qcopp _)] => rewrite this_opp
  | |- context [this (Q2Qc _)] => rewrite this_Q2Qc
  end.

(** Closed equalities between records of numbers: compare field by field,
    and canonical rationals by their value. *)
Ltac num_eq :=
  vm_compute;
  repeat first [ reflexivity | apply Qc_ext; reflexivity | progress f_equal ].

(** Integer literals as fractions, for [lra]. *)
Ltac qlit := unfold inject_Z in *.

(** Decide the comparisons of the goal from the context. *)
Ltac settle b :=
  first
    [ let E := fresh "E" in
      assert (E : b = true) by (unfold ofZ, lit; js2q; qlit; lra); rewrite E
    | let E := fresh "E" in
      assert (E : b = false) by (unfold ofZ, lit; js2q; qlit; lra); rewrite E ].

Ltac settle_all :=
  repeat match goal with
         | |- context [JS.ltb (Fin ?a) ?b] => settle (JS.ltb (Fin a) b)
         | |- context [JS.gtb (Fin ?a) ?b] => settle (JS.gtb (Fin a) b)
         | |- context [JS.ltb (ofZ ?a) ?b] => settle (JS.ltb (ofZ a) b)
         | |- context [JS.gtb (ofZ ?a) ?b] => settle (JS.gtb (ofZ a) b)
         end.

(* ================================================================= *)
(** ** Train *)

Module TrainFacts.
Import Train.

Lemma minProgress_val : minProgress = lit 83 2000.
Proof. num_eq. Qed.

Lemma maxProgress_val : maxProgress = lit 99 100.
Proof. num_eq. Qed.

Lemma placeCar_offset c t car : offset (placeCar c t car) = offset car.
Proof.
  unfold placeCar. destruct (isNaN (slotT t car)); [reflexivity|].
  destruct (getPointAt c _) as [pos|]; [|reflexivity].
  destruct (getTangentAt c _) as [tg|]; [|reflexivity].
  destruct (typeof_number (x pos) && typeof_number (x tg)); reflexivity.
Qed.

Lemma updateCarPositions_fields t :
  progress (updateCarPositions t) = progress t /\
  speed (updateCarPositions t) = speed t /\
  direction (updateCarPositions t) = direction t /\
  state (updateCarPositions t) = state t /\
  stopTimer (updateCarPositions t) = stopTimer t /\
  map offset (cars (updateCarPositions t)) = map offset (cars t).
Proof.
  unfold updateCarPositions. destruct (curve t) as [c|]; cbn; repeat split; trivial.
  rewrite map_map. apply map_ext. intros car. apply placeCar_offset.
Qed.

Lemma Inv_updateCarPositions t : Inv t -> Inv (updateCarPositions t).
Proof.
  unfold Inv. destruct (updateCarPositions_fields t) as (-> & -> & -> & _ & _ & ->).
  trivial.
Qed.

Lemma within_clamp (p : num) :
  isNaN p = false ->
  within minProgress maxProgress (Math_max minProgress (Math_min maxProgress p)) = true.
Proof.
  rewrite minProgress_val, maxProgress_val. destruct p as [|q]; [discriminate|]. intros _.
  unfold Math_min, Math_max, within, lit.
  destruct (Fin _ <=? Fin q)%js eqn:E1; cbn match;
    destruct (Fin _ >=? Fin _)%js eqn:E2; cbn match;
    apply andb_true_intro; split; js2q; lra.
Qed.

Lemma Inv_constructor cfg c : Inv (constructor cfg c).
Proof.
  unfold constructor, unplaced. apply Inv_updateCarPositions.
  unfold Inv. cbn [progress speed direction cars].
  destruct (or_default_Fin (Config.initialProgress cfg) (Q2Qc (inject_Z 0))) as [p Hp].
  destruct (or_default_Fin (Config.speed cfg) (Q2Qc (1 # 10))) as [s Hs].
  destruct (or_default_Fin (Config.direction cfg) (Q2Qc (inject_Z 1))) as [d Hd].
  unfold ofZ, lit in *. rewrite Hs, Hd. repeat split; trivial.
  change (ofZ 3 * (TRAIN_LENGTH_RATIO + CAR_GAP) + TRACK_BUFFER)%js with minProgress.
  change (Fin (Q2Qc (inject_Z 1)) - TRACK_BUFFER)%js with maxProgress.
  apply within_clamp. rewrite Hp. reflexivity.
Qed.

Lemma Inv_update d t : Inv t -> Inv (update d t).
Proof.
  intros (Hp & Hs & Hd & Ho). unfold update.
  destruct (isNaN d) eqn:Hn; [repeat split; assumption|].
  destruct (state t).
  - apply Inv_updateCarPositions.
    destruct (_ >=? maxProgress)%js eqn:E1; [|destruct (_ <=? minProgress)%js eqn:E2].
    + repeat split; trivial.
    + repeat split; trivial.
    + unfold Inv. cbn [progress speed direction cars]. repeat split; trivial.
      destruct (progress t) as [|p]; [discriminate|].
      destruct (speed t) as [|s]; [discriminate|].
      destruct (direction t) as [|dir]; [discriminate|].
      destruct d as [|dl]; [discriminate|].
      revert E1 E2. rewrite minProgress_val, maxProgress_val.
      unfold within, speedScale, lit. cbn [add mul lift2]. intros E1 E2.
      apply andb_true_intro; split; js2q; lra.
  - repeat split; trivial.
Qed.

Lemma Inv_run ds : forall t, Inv t -> Inv (run ds t).
Proof.
  induction ds as [|d ds IH]; intros t Ht; cbn; [assumption|].
  apply IH, Inv_update, Ht.
Qed.

Lemma Inv_slots t :
  Inv t ->
  Forall (fun car =>
            within TRACK_BUFFER (ofZ 1 - TRACK_BUFFER)%js (slotT t car) = true /\
            clampedT (slotT t car) = slotT t car) (cars t).
Proof.
  intros (Hp & _ & _ & Ho). apply Forall_forall. intros car Hin.
  assert (Hoff : In (offset car) slotOffsets)
    by (rewrite <- Ho; apply in_map, Hin).
  unfold slotT. destruct (progress t) as [|p]; [discriminate|].
  revert Hp. rewrite minProgress_val, maxProgress_val. unfold within, lit.
  intros Hp. apply andb_prop in Hp. destruct Hp as [H1 H2]. js2q.
  assert (Hcases : exists o, offset car = Fin o /\
            (0 <= this o /\ this o <= 63 # 2000)%Q).
  { cbn in Hoff. repeat destruct Hoff as [Hoff|Hoff]; try contradiction;
      rewrite <- Hoff; eexists; (split; [reflexivity|]); vm_compute;
      split; discriminate. }
  destruct Hcases as (o & -> & Ho1 & Ho2).
  assert (Hw : ((lit 1 100 <=? Fin (p - o))%js && (Fin (p - o) <=? lit 99 100)%js) = true).
  { unfold lit. apply andb_true_intro; split; js2q; lra. }
  split.
  - replace TRACK_BUFFER with (lit 1 100) by reflexivity.
    replace (ofZ 1 - lit 1 100)%js with (lit 99 100) by (symmetry; num_eq).
    exact Hw.
  - apply andb_prop in Hw. destruct Hw as [Hw1 Hw2]. unfold lit in *. js2q.
    cbn [sub lift2]. unfold clampedT, Math_min, Math_max, lit.
    assert (E1 : (Fin (Q2Qc (9999 # 10000)) <=? Fin (p - o))%js = false) by (js2q; lra).
    rewrite E1.
    assert (E2 : (Fin (Q2Qc (1 # 10000)) >=? Fin (p - o))%js = false) by (js2q; lra).
    rewrite E2. reflexivity.
Qed.

(** The red train at one second per frame: 26 frames below the upper stop,
    the 27th reaches it; five frames of dwell, then it moves back. *)
Example red_train_run :
  let t0 := constructor redConfig (Some straightCurve) in
  progress t0 = lit 5 100 /\
  progress (run (frames 26 (ofZ 1)) t0) = lit 96 100 /\
  progress (run (frames 27 (ofZ 1)) t0) = lit 99 100 /\
  state (run (frames 27 (ofZ 1)) t0) = STOPPED /\
  state (run (frames 31 (ofZ 1)) t0) = STOPPED /\
  state (run (frames 32 (ofZ 1)) t0) = MOVING /\
  progress (run (frames 33 (ofZ 1)) t0) = lit 955 1000.
Proof. cbv zeta. repeat split; num_eq. Qed.

(** C10.  [update(NaN)] returns at once: the whole train (progress,
    direction, state, stop timer and every car transform) is the train it
    was called on. *)
Theorem update_NaN_unchanged (t : Train) : update NaN t = t.
Proof. reflexivity. Qed.

(** C1.  Train span safety.  After the constructor and any number of
    [update] calls, with any frame times (NaN included) and any numeric
    configuration, the four car slots have the offsets
    [i * (TRAIN_LENGTH_RATIO + CAR_GAP)], [i = 0..3], and for each of them
    [progress - offset] lies in [[TRACK_BUFFER, 1 - TRACK_BUFFER]]; the
    safety clamp leaves it as it is, so that value is the parameter the
    curve is sampled at. *)
Theorem train_span_safety (cfg : Config.Config) (c : option Curve) (deltas : list num) :
  let t := run deltas (constructor cfg c) in
  map offset (cars t) = slotOffsets /\
  Forall (fun car =>
            within TRACK_BUFFER (ofZ 1 - TRACK_BUFFER)%js (slotT t car) = true /\
            clampedT (slotT t car) = slotT t car) (cars t).
Proof.
  intros t.
  assert (Ht : Inv t) by apply Inv_run, Inv_constructor.
  split; [apply Ht | apply Inv_slots, Ht].
Qed.

(** *** One frame of a moving train, field by field *)

Lemma update_moving_top t p dir sp d :
  state t = MOVING -> progress t = Fin p -> speed t = Fin sp ->
  direction t = Fin dir ->
  (99 # 100 <= this (stepP p dir sp d))%Q ->
  let t' := update (Fin d) t in
  progress t' = maxProgress /\ direction t' = ofZ (-1) /\ state t' = STOPPED /\
  stopTimer t' = STOP_DURATION /\ speed t' = Fin sp.
Proof.
  intros Hst Hp Hs Hd Hle. cbv zeta. unfold update. cbn [isNaN]. rewrite Hst, Hp, Hs, Hd.
  cbn [add mul lift2 speedScale lit]. fold (stepP p dir sp d).
  rewrite maxProgress_val. unfold lit.
  assert (E : (Fin (stepP p dir sp d) >=? Fin (Q2Qc (99 # 100)))%js = true) by (js2q; lra).
  rewrite E.
  match goal with |- context [updateCarPositions ?u] =>
    destruct (updateCarPositions_fields u) as (-> & -> & -> & -> & -> & _) end.
  cbn. repeat split; trivial.
Qed.

Lemma update_moving_bottom t p dir sp d :
  state t = MOVING -> progress t = Fin p -> speed t = Fin sp ->
  direction t = Fin dir ->
  (this (stepP p dir sp d) <= 83 # 2000)%Q ->
  let t' := update (Fin d) t in
  progress t' = minProgress /\ direction t' = ofZ 1 /\ state t' = STOPPED /\
  stopTimer t' = STOP_DURATION /\ speed t' = Fin sp.
Proof.
  intros Hst Hp Hs Hd Hle. cbv zeta. unfold update. cbn [isNaN]. rewrite Hst, Hp, Hs, Hd.
  cbn [add mul lift2 speedScale lit]. fold (stepP p dir sp d).
  rewrite maxProgress_val, minProgress_val. unfold lit.
  assert (E : (Fin (stepP p dir sp d) >=? Fin (Q2Qc (99 # 100)))%js = false) by (js2q; lra).
  assert (E' : (Fin (stepP p dir sp d) <=? Fin (Q2Qc (83 # 2000)))%js = true) by (js2q; lra).
  rewrite E, E'.
  match goal with |- context [updateCarPositions ?u] =>
    destruct (updateCarPositions_fields u) as (-> & -> & -> & -> & -> & _) end.
  cbn. repeat split; trivial.
Qed.

Lemma update_moving_between t p dir sp d :
  state t = MOVING -> progress t = Fin p -> speed t = Fin sp ->
  direction t = Fin dir ->
  (83 # 2000 < this (stepP p dir sp d))%Q -> (this (stepP p dir sp d) < 99 # 100)%Q ->
  let t' := update (Fin d) t in
  progress t' = Fin (stepP p dir sp d) /\ direction t' = Fin dir /\
  state t' = MOVING /\ stopTimer t' = stopTimer t /\ speed t' = Fin sp.
Proof.
  intros Hst Hp Hs Hd Hlo Hhi. cbv zeta. unfold update. cbn [isNaN]. rewrite Hst, Hp, Hs, Hd.
  cbn [add mul lift2 speedScale lit]. fold (stepP p dir sp d).
  rewrite maxProgress_val, minProgress_val. unfold lit.
  assert (E : (Fin (stepP p dir sp d) >=? Fin (Q2Qc (99 # 100)))%js = false) by (js2q; lra).
  assert (E' : (Fin (stepP p dir sp d) <=? Fin (Q2Qc (83 # 2000)))%js = false) by (js2q; lra).
  rewrite E, E'.
  match goal with |- context [updateCarPositions ?u] =>
    destruct (updateCarPositions_fields u) as (-> & -> & -> & -> & -> & _) end.
  cbn. repeat split; trivial.
Qed.

Lemma this_stepP p dir sp d :
  (this (stepP p dir sp d) == this p + this dir * (this sp * this d) * (1 # 10))%Q.
Proof. unfold stepP. js2q. ring. Qed.

Lemma this_stepP_forward p sp d :
  (this (stepP p (Q2Qc (inject_Z 1)) sp d) == this p + (this sp * this d) * (1 # 10))%Q.
Proof. rewrite this_stepP, this_Q2Qc. change (inject_Z 1) with 1%Q. ring. Qed.

Lemma this_stepP_backward p sp d :
  (this (stepP p (Q2Qc (inject_Z (-1))) sp d) == this p - (this sp * this d) * (1 # 10))%Q.
Proof. rewrite this_stepP, this_Q2Qc. change (inject_Z (-1)) with (-1)%Q. ring. Qed.

Lemma update_stopped t tau d :
  state t = STOPPED -> stopTimer t = Fin tau ->
  let t' := update (Fin d) t in
  progress t' = progress t /\ direction t' = direction t /\
  speed t' = speed t /\ stopTimer t' = Fin (tau - d) /\
  state t' = (if (Fin (tau - d) <=? ofZ 0)%js then MOVING else STOPPED).
Proof.
  intros Hst Ht. cbv zeta. unfold update. cbn [isNaN]. rewrite Hst, Ht. cbn.
  repeat split; trivial.
Qed.

(** A step that brings the progress to the upper stop from elsewhere turns
    the train round and arms the dwell timer. *)
Lemma first_reach_step t d :
  progress t <> maxProgress -> progress (update d t) = maxProgress ->
  direction (update d t) = ofZ (-1) /\ state (update d t) = STOPPED /\
  stopTimer (update d t) = STOP_DURATION.
Proof.
  unfold update. destruct (isNaN d); [congruence|].
  destruct (state t); cbn [progress]; [|congruence].
  match goal with |- context [updateCarPositions ?u] =>
    destruct (updateCarPositions_fields u) as (-> & _ & -> & -> & -> & _) end.
  destruct (_ >=? maxProgress)%js eqn:E0; [cbn; auto|].
  destruct (_ <=? minProgress)%js eqn:E; cbn [progress].
  - intros _ H. exfalso. revert H. rewrite minProgress_val, maxProgress_val.
    intros H.
    apply (f_equal (fun n => match n with Fin q => this q | NaN => 0%Q end)) in H.
    vm_compute in H. discriminate.
  - intros _ H. rewrite H in E0. vm_compute in E0. discriminate.
Qed.

(** *** The shuttle scenario at a constant frame time *)

Lemma run_frames_S n d t : run (frames (S n) d) t = run (frames n d) (update d t).
Proof. reflexivity. Qed.

(** Moving forward, the train reaches the upper stop after finitely many
    frames, and not before. *)
Lemma climb (sp d : Qc) (Hk : (0 < this sp * this d)%Q) :
  forall (m : nat) t p,
    state t = MOVING -> progress t = Fin p -> speed t = Fin sp ->
    direction t = ofZ 1 ->
    (83 # 2000 <= this p)%Q -> (this p < 99 # 100)%Q ->
    ((99 # 100) - this p <= inject_Z (Z.of_nat m) * ((this sp * this d) * (1 # 10)))%Q ->
    exists n : nat,
      (forall j, (j < n)%nat ->
                 (progress (run (frames j (Fin d)) t) <? maxProgress)%js = true) /\
      let t1 := run (frames n (Fin d)) t in
      progress t1 = maxProgress /\ direction t1 = ofZ (-1) /\
      state t1 = STOPPED /\ stopTimer t1 = STOP_DURATION /\ speed t1 = Fin sp.
Proof.
  set (k := (this sp * this d)%Q) in *.
  induction m as [|m IH]; intros t p Hst Hp Hs Hd Hlo Hhi Hm.
  - exfalso. change (inject_Z (Z.of_nat 0)) with 0%Q in Hm. lra.
  - assert (Hstep := this_stepP_forward p sp d). fold k in Hstep.
    assert (Hbelow : (progress t <? maxProgress)%js = true).
    { rewrite Hp, maxProgress_val. unfold lit. js2q. lra. }
    destruct (Qlt_le_dec (this (stepP p (Q2Qc (inject_Z 1)) sp d)) (99 # 100)) as [Hlt|Hge].
    + destruct (update_moving_between t p _ sp d Hst Hp Hs Hd) as (Hp' & Hd' & Hst' & _ & Hs');
        [lra | lra |].
      destruct (IH (update (Fin d) t) _ Hst' Hp' Hs' Hd') as (n & Hbefore & Hat);
        [lra | lra | |].
      * rewrite Nat2Z.inj_succ, <- Z.add_1_r, inject_Z_plus in Hm.
        change (inject_Z 1) with 1%Q in Hm. lra.
      * exists (S n). split.
        -- intros [|j] Hj; [exact Hbelow|]. rewrite run_frames_S. apply Hbefore. lia.
        -- rewrite run_frames_S. exact Hat.
    + exists 1%nat. split.
      * intros j Hj. replace j with 0%nat by lia. exact Hbelow.
      * cbn [frames repeat run]. apply (update_moving_top t p _ sp d Hst Hp Hs Hd Hge).
Qed.

(** A stopped train leaves again after finitely many frames, with the
    progress and the direction it stopped with. *)
Lemma dwell (d : Qc) (Hd : (0 < this d)%Q) :
  forall (m : nat) t tau,
    state t = STOPPED -> stopTimer t = Fin tau ->
    (this tau <= inject_Z (Z.of_nat (S m)) * this d)%Q ->
    exists n : nat,
      (forall j, (j < n)%nat ->
                 let u := run (frames j (Fin d)) t in
                 state u = STOPPED /\ progress u = progress t /\
                 direction u = direction t) /\
      let t2 := run (frames n (Fin d)) t in
      state t2 = MOVING /\ progress t2 = progress t /\
      direction t2 = direction t /\ speed t2 = speed t.
Proof.
  induction m as [|m IH]; intros t tau Hst Ht Hm;
    destruct (update_stopped t tau d Hst Ht) as (Hp' & Hd' & Hs' & Ht' & Hst');
    destruct (Fin (tau - d) <=? ofZ 0)%js eqn:E.
  - exists 1%nat. split.
    + intros j Hj. replace j with 0%nat by lia. cbn. auto.
    + cbn [frames repeat run]. auto.
  - exfalso. unfold ofZ in E. js2q. change (inject_Z (Z.of_nat 1)) with 1%Q in Hm.
    change (inject_Z 0) with 0%Q in E. lra.
  - exists 1%nat. split.
    + intros j Hj. replace j with 0%nat by lia. cbn. auto.
    + cbn [frames repeat run]. auto.
  - destruct (IH (update (Fin d) t) _ Hst' Ht') as (n & Hbefore & Hat).
    + js2q. rewrite Nat2Z.inj_succ, <- Z.add_1_r, inject_Z_plus in Hm.
      change (inject_Z 1) with 1%Q in Hm. lra.
    + exists (S n). split.
      * intros [|j] Hj; [cbn; auto|]. rewrite run_frames_S. cbv zeta.
        destruct (Hbefore j) as (H1 & H2 & H3); [lia|].
        rewrite H1, H2, H3. auto.
      * rewrite run_frames_S. cbv zeta in *.
        destruct Hat as (H1 & H2 & H3 & H4). rewrite H1, H2, H3, H4. auto.
Qed.

(** Moving backward between the stops, every frame lowers the progress. *)
Lemma descend_step (sp d : Qc) (Hk : (0 < this sp * this d)%Q) t p :
  state t = MOVING -> progress t = Fin p -> speed t = Fin sp ->
  direction t = ofZ (-1) ->
  (83 # 2000 < this p)%Q -> (this p <= 99 # 100)%Q ->
  (progress (update (Fin d) t) <? progress t)%js = true /\
  (state (update (Fin d) t) = MOVING ->
   exists p', progress (update (Fin d) t) = Fin p' /\
              speed (update (Fin d) t) = Fin sp /\
              direction (update (Fin d) t) = ofZ (-1) /\
              (83 # 2000 < this p')%Q /\ (this p' <= 99 # 100)%Q).
Proof.
  intros Hst Hp Hs Hd Hlo Hhi.
  assert (Hstep := this_stepP_backward p sp d).
  set (k := (this sp * this d)%Q) in *.
  destruct (Qlt_le_dec (83 # 2000) (this (stepP p (Q2Qc (inject_Z (-1))) sp d))) as [Hgt|Hle].
  - destruct (update_moving_between t p _ sp d Hst Hp Hs Hd) as (Hp' & Hd' & Hst' & _ & Hs');
      [lra | lra |].
    rewrite Hp', Hp. split; [js2q; lra|].
    intros _. eexists. repeat split; try eassumption; lra.
  - destruct (update_moving_bottom t p _ sp d Hst Hp Hs Hd Hle) as (Hp' & _ & Hst' & _).
    rewrite Hp', Hp, Hst', minProgress_val. unfold lit. split; [js2q; lra|].
    discriminate.
Qed.

Lemma descend (sp d : Qc) (Hk : (0 < this sp * this d)%Q) :
  forall (k : nat) t p,
    state t = MOVING -> progress t = Fin p -> speed t = Fin sp ->
    direction t = ofZ (-1) ->
    (83 # 2000 < this p)%Q -> (this p <= 99 # 100)%Q ->
    (forall j, (j <= k)%nat -> state (run (frames j (Fin d)) t) = MOVING) ->
    (progress (run (frames (S k) (Fin d)) t) <? progress (run (frames k (Fin d)) t))%js = true.
Proof.
  induction k as [|k IH]; intros t p Hst Hp Hs Hd Hlo Hhi Hall.
  - cbn [frames repeat run]. apply (descend_step sp d Hk t p); assumption.
  - rewrite !run_frames_S.
    destruct (descend_step sp d Hk t p Hst Hp Hs Hd Hlo Hhi) as (_ & Hnext).
    assert (Hst' : state (update (Fin d) t) = MOVING) by (apply (Hall 1%nat); lia).
    destruct (Hnext Hst') as (p' & Hp' & Hs' & Hd' & Hlo' & Hhi').
    apply (IH _ p'); try assumption.
    intros j Hj. rewrite <- run_frames_S. apply Hall. lia.
Qed.

Lemma unplaced_fields cfg c :
  progress (constructor cfg c) = progress (unplaced cfg c) /\
  speed (constructor cfg c) = speed (unplaced cfg c) /\
  direction (constructor cfg c) = direction (unplaced cfg c) /\
  state (constructor cfg c) = MOVING.
Proof.
  unfold constructor.
  destruct (updateCarPositions_fields (unplaced cfg c)) as (-> & -> & -> & -> & _).
  auto.
Qed.

(** C6.  The red train of index.js ([speed = 0.35], [direction = 1],
    [initialProgress = 0.05]).  Whatever the frame times, the update that
    first brings the progress to [1 - TRACK_BUFFER] leaves the direction at
    [-1], the state STOPPED and the timer at the fixed [STOP_DURATION > 0].
    At any constant positive frame time [d] this happens after some [n]
    frames; after [m] more frames, during which the train stands at the
    stop with direction [-1], it is MOVING again with direction [-1], and
    from then on every update lowers the progress for as long as the train
    keeps moving. *)
Theorem red_train_scenario (c : option Curve) (d : Qc) (Hd : (0 < d)%Qc) :
  let t0 := constructor redConfig c in
  (forall ds dl,
      progress (run ds t0) <> maxProgress ->
      progress (update dl (run ds t0)) = maxProgress ->
      direction (update dl (run ds t0)) = ofZ (-1) /\
      state (update dl (run ds t0)) = STOPPED /\
      stopTimer (update dl (run ds t0)) = STOP_DURATION) /\
  (ofZ 0 <? STOP_DURATION)%js = true /\
  exists n m : nat,
    let t1 := run (frames n (Fin d)) t0 in
    let t2 := run (frames m (Fin d)) t1 in
    (forall j, (j < n)%nat ->
               (progress (run (frames j (Fin d)) t0) <? maxProgress)%js = true) /\
    progress t1 = maxProgress /\ direction t1 = ofZ (-1) /\
    state t1 = STOPPED /\ stopTimer t1 = STOP_DURATION /\
    (forall j, (j < m)%nat ->
               let u := run (frames j (Fin d)) t1 in
               state u = STOPPED /\ progress u = maxProgress /\
               direction u = ofZ (-1)) /\
    state t2 = MOVING /\ progress t2 = maxProgress /\ direction t2 = ofZ (-1) /\
    (forall k,
        (forall j, (j <= k)%nat -> state (run (frames j (Fin d)) t2) = MOVING) ->
        (progress (run (frames (S k) (Fin d)) t2)
           <? progress (run (frames k (Fin d)) t2))%js = true).
Proof.
  intros t0. split; [intros ds dl; apply first_reach_step|]. split; [reflexivity|].
  pose (sp := Q2Qc (35 # 100)).
  assert (Hd' : (0 < this d)%Q) by exact Hd.
  assert (Hsp : (this sp == 7 # 20)%Q) by reflexivity.
  assert (Hk : (0 < this sp * this d)%Q).
  { rewrite Hsp. apply Qmult_lt_0_compat; [reflexivity | exact Hd']. }
  destruct (unplaced_fields redConfig c) as (Hp0 & Hs0 & Hd0 & Hst0).
  fold t0 in Hp0, Hs0, Hd0, Hst0.
  assert (Hp0' : progress t0 = Fin (Q2Qc (5 # 100))) by (rewrite Hp0; num_eq).
  assert (Hs0' : speed t0 = Fin sp) by (rewrite Hs0; num_eq).
  assert (Hd0' : direction t0 = ofZ 1) by (rewrite Hd0; num_eq).
  assert (Hstart : (this (Q2Qc (5 # 100)) == 1 # 20)%Q) by reflexivity.
  destruct (archimedes ((99 # 100) - (1 # 20)) (this sp * this d * (1 # 10))) as [m1 Hm1];
    [lra|].
  destruct (climb sp d Hk m1 t0 _ Hst0 Hp0' Hs0' Hd0') as (n & Hbefore & Hat);
    [rewrite Hstart; lra | rewrite Hstart; lra | rewrite Hstart; exact Hm1 |].
  cbv zeta in Hat. destruct Hat as (Hp1 & Hd1 & Hst1 & Ht1 & Hs1).
  set (t1 := run (frames n (Fin d)) t0) in *.
  destruct (archimedes 5 (this d) Hd') as [m2 Hm2].
  destruct (dwell d Hd' m2 t1 (Q2Qc (inject_Z 5)) Hst1 Ht1) as (m & Hstand & Hleave).
  { rewrite this_Q2Qc, Nat2Z.inj_succ, <- Z.add_1_r, inject_Z_plus.
    change (inject_Z 5) with 5%Q. change (inject_Z 1) with 1%Q. lra. }
  cbv zeta in Hleave. destruct Hleave as (Hst2 & Hp2 & Hd2 & Hs2).
  exists n, m. cbv zeta. fold t1. repeat split; trivial.
  - apply Hstand, H.
  - rewrite <- Hp1. apply Hstand, H.
  - rewrite <- Hd1. apply Hstand, H.
  - congruence.
  - congruence.
  - intros k Hall.
    apply (descend sp d Hk k _ (Q2Qc (99 # 100))); trivial.
    + rewrite Hp2, Hp1. apply maxProgress_val.
    + congruence.
    + congruence.
    + vm_compute. reflexivity.
    + vm_compute. discriminate.
Qed.

Lemma red_train_scenario_witness :
  exists n m : nat,
    let d := lit 1 60 in
    let t1 := run (frames n d) (constructor redConfig (Some straightCurve)) in
    let t2 := run (frames m d) t1 in
    progress t1 = maxProgress /\ state t1 = STOPPED /\
    state t2 = MOVING /\ direction t2 = ofZ (-1) /\
    (progress (update d t2) <? progress t2)%js = true.
Proof.
  destruct (red_train_scenario (Some straightCurve) (Q2Qc (1 # 60)))
    as (_ & _ & n & m & _ & Hp1 & _ & Hst1 & _ & _ & Hst2 & _ & Hd2 & Hdown).
  - reflexivity.
  - exists n, m. cbv zeta. repeat split; trivial.
    apply (Hdown 0%nat). intros j Hj. replace j with 0%nat by lia. exact Hst2.
Defined.

Lemma placeCar_rejected c t car :
  rejected (getPointAt c (clampedT (slotT t car))) = true \/
  rejected (getTangentAt c (clampedT (slotT t car))) = true ->
  placeCar c t car = car.
Proof.
  unfold placeCar, rejected. intros H.
  destruct (isNaN (slotT t car)); [reflexivity|].
  destruct (getPointAt c _) as [pos|]; [|reflexivity].
  destruct (getTangentAt c _) as [tg|]; [|reflexivity].
  destruct (typeof_number (x pos)), (typeof_number (x tg)); cbn in *;
    try reflexivity.
  destruct H; discriminate.
Qed.

Lemma placeCar_accepted c t car pos tg :
  isNaN (slotT t car) = false ->
  getPointAt c (clampedT (slotT t car)) = Some pos ->
  getTangentAt c (clampedT (slotT t car)) = Some tg ->
  typeof_number (x pos) = true -> typeof_number (x tg) = true ->
  group (placeCar c t car) = mkObject3D pos (Some (vadd pos tg)).
Proof.
  unfold placeCar. intros -> -> -> Hp Ht. rewrite Hp, Ht. cbn [andb group].
  unfold vadd at 1. cbn [x].
  destruct (x pos), (x tg); try discriminate. reflexivity.
Qed.

(** C3, as the code has it.  The guard of [updateCarPositions] is a type
    check: when [getPointAt] or [getTangentAt] hands back [null],
    [undefined] or an object whose [x] is not of type number, the car is
    left exactly as it was.  There is no finiteness check: a returned
    vector whose [x] is a number is copied to the car position as it is,
    NaN components included. *)
Theorem updateCarPositions_guard (t : Train) (c : Curve) (i : nat) (car : Car)
    (Hc : curve t = Some c) (Hi : nth_error (cars t) i = Some car) :
  let ct := clampedT (slotT t car) in
  (rejected (getPointAt c ct) = true \/ rejected (getTangentAt c ct) = true ->
   nth_error (cars (updateCarPositions t)) i = Some car) /\
  (forall pos tg,
      isNaN (slotT t car) = false ->
      getPointAt c ct = Some pos -> getTangentAt c ct = Some tg ->
      typeof_number (x pos) = true -> typeof_number (x tg) = true ->
      exists car',
        nth_error (cars (updateCarPositions t)) i = Some car' /\
        group car' = mkObject3D pos (Some (vadd pos tg))).
Proof.
  intros ct. unfold updateCarPositions. rewrite Hc. cbn [cars].
  rewrite nth_error_map, Hi. cbn [option_map]. split.
  - intros H. f_equal. apply placeCar_rejected, H.
  - intros pos tg Hn Hp Ht Hxp Hxt. eexists. split; [reflexivity|].
    eapply placeCar_accepted; eassumption.
Qed.

Lemma updateCarPositions_guard_witness :
  nth_error (cars (updateCarPositions (unplaced redConfig (Some nullCurve)))) 3
  = nth_error (cars (unplaced redConfig (Some nullCurve))) 3.
Proof.
  pose (t := unplaced redConfig (Some nullCurve)).
  pose (car := newCar 3 TAIL).
  refine (proj1 (updateCarPositions_guard t nullCurve 3 car _ _) _).
  - reflexivity.
  - reflexivity.
  - left. reflexivity.
Defined.

(** C3 with the finiteness test of the specification does not hold: on a
    curve whose points have NaN components the sample is not finite, yet
    the head car takes the NaN position. *)
Lemma nan_sample_reaches_car :
  let t := unplaced redConfig (Some nanCurve) in
  let car := newCar 0 HEAD in
  nth_error (cars t) 0 = Some car /\
  finiteSample (getPointAt nanCurve (clampedT (slotT t car))) = false /\
  exists car',
    nth_error (cars (updateCarPositions t)) 0 = Some car' /\
    position (group car') = vec NaN NaN NaN /\
    position (group car') <> position (group car).
Proof.
  cbv zeta. split; [reflexivity|]. split; [reflexivity|].
  eexists. split; [reflexivity|]. split; [reflexivity|].
  cbn. discriminate.
Qed.

End TrainFacts.

(* ================================================================= *)
(** ** TrafficCar and HeroTaxi *)

Module FollowerFacts.

Lemma inUnit_Fin (a : Qc) :
  inUnit (Fin a) = true <-> (0 <= this a)%Q /\ (this a <= 1)%Q.
Proof.
  unfold inUnit, ofZ. rewrite andb_true_iff, !leb_Fin, !this_Q2Qc.
  change (inject_Z 0) with 0%Q. change (inject_Z 1) with 1%Q. tauto.
Qed.

(** The remainder modulo 1 of a number that is not negative is in
    [[0, 1)]. *)
Lemma rem_one_unit (a : Qc) :
  (0 <= this a)%Q -> inUnit (Fin a mod ofZ 1)%js = true.
Proof.
  intros Ha. unfold rem, ofZ.
  assert (Hz : qzero (Q2Qc (inject_Z 1)) = false) by reflexivity.
  rewrite Hz. apply inUnit_Fin.
  assert (Hdiv : (this (a / Q2Qc (inject_Z 1))%Qc == this a)%Q).
  { unfold Qcdiv, Qcinv. rewrite this_mul, !this_Q2Qc.
    change (/ inject_Z 1)%Q with 1%Q. ring. }
  assert (Htr : qtrunc (a / Q2Qc (inject_Z 1))%Qc = Qfloor (this a)).
  { unfold qtrunc.
    assert (Hb : Qle_bool 0 (this (a / Q2Qc (inject_Z 1))%Qc) = true)
      by (apply Qle_bool_iff; rewrite Hdiv; exact Ha).
    rewrite Hb. apply Qfloor_comp, Hdiv. }
  rewrite Htr, this_sub, this_mul, !this_Q2Qc.
  assert (H1 := Qfloor_le (this a)). assert (H2 := Qlt_floor (this a)).
  rewrite inject_Z_plus in H2. change (inject_Z 1) with 1%Q in *. lra.
Qed.

(** The wrap by one subtraction brings the progress back into [[0, 1]]
    when the frame advances it by at most a lap. *)
Lemma wrap_short_frame (p step : Qc) :
  (0 <= this p)%Q -> (this p <= 1)%Q -> (0 <= this step)%Q -> (this step <= 1)%Q ->
  inUnit (if (Fin (p + step) >? ofZ 1)%js
          then (Fin (p + step) - ofZ 1)%js else Fin (p + step)) = true.
Proof.
  intros H1 H2 H3 H4. unfold ofZ.
  destruct (Fin (p + step) >? Fin (Q2Qc (inject_Z 1)))%js eqn:E;
    cbn [sub lift2]; apply inUnit_Fin; js2q;
    change (inject_Z 1) with 1%Q in *; lra.
Qed.

(** At frames that advance the progress by at most one lap both samples
    of a traffic car are taken inside [[0, 1]]. *)
Lemma traffic_short_frame (car : TrafficCar.TrafficCar) (p sp delta : Qc) :
  TrafficCar.progress car = Fin p -> TrafficCar.speed car = Fin sp ->
  (0 <= this p)%Q -> (this p <= 1)%Q ->
  (0 <= this sp * this delta * (5 # 10000))%Q ->
  (this sp * this delta * (5 # 10000) <= 1)%Q ->
  Forall (fun t => inUnit t = true) (snd (TrafficCar.update (Fin delta) car)).
Proof.
  intros Hp Hs H1 H2 H3 H4. unfold TrafficCar.update.
  assert (Hadv : exists q, TrafficCar.advance (Fin delta) car = Fin q /\
                           inUnit (Fin q) = true).
  { unfold TrafficCar.advance, TrafficCar.LOOP_SPEED_SCALE, lit. rewrite Hp, Hs.
    cbn [add mul lift2].
    assert (Hw := wrap_short_frame p (sp * delta * Q2Qc (5 # 10000))%Qc H1 H2).
    rewrite !this_mul, this_Q2Qc in Hw. specialize (Hw H3 H4).
    destruct (Fin _ >? ofZ 1)%js; cbn [sub lift2 ofZ] in *; eauto. }
  destruct Hadv as (q & -> & Hq).
  destruct (TrafficCar.curve car); cbn [snd]; [|constructor].
  constructor; [exact Hq|]. constructor; [|constructor].
  unfold lit. cbn [add lift2]. apply rem_one_unit.
  apply inUnit_Fin in Hq. rewrite this_add, this_Q2Qc. lra.
Qed.

(** The same for the taxi. *)
Lemma taxi_short_frame (taxi : HeroTaxi.HeroTaxi) (p sp delta : Qc) :
  HeroTaxi.progress taxi = Fin p -> HeroTaxi.speed taxi = Fin sp ->
  (0 <= this p)%Q -> (this p <= 1)%Q ->
  (0 <= this sp * this delta * (5 # 10000))%Q ->
  (this sp * this delta * (5 # 10000) <= 1)%Q ->
  Forall (fun t => inUnit t = true) (snd (HeroTaxi.update (Fin delta) taxi)).
Proof.
  intros Hp Hs H1 H2 H3 H4. unfold HeroTaxi.update.
  assert (Hadv : exists q, HeroTaxi.advance (Fin delta) taxi = Fin q /\
                           inUnit (Fin q) = true).
  { unfold HeroTaxi.advance, HeroTaxi.LOOP_SPEED_SCALE, lit. rewrite Hp, Hs.
    cbn [add mul lift2].
    assert (Hw := wrap_short_frame p (sp * delta * Q2Qc (5 # 10000))%Qc H1 H2).
    rewrite !this_mul, this_Q2Qc in Hw. specialize (Hw H3 H4).
    destruct (Fin _ >? ofZ 1)%js; cbn [sub lift2 ofZ] in *; eauto. }
  destruct Hadv as (q & -> & Hq).
  destruct (HeroTaxi.curve taxi); cbn [snd]; [|constructor].
  constructor; [exact Hq|]. constructor; [|constructor].
  unfold lit. cbn [add lift2]. apply rem_one_unit.
  apply inUnit_Fin in Hq. rewrite this_add, this_Q2Qc. lra.
Qed.

(** C5 at a long frame.  The wrap is a single subtraction, so a frame that
    advances the progress by more than a lap leaves it above 1.  After a
    40 second frame the last car of the traffic loop (progress 0.95, speed
    60) samples the curve at 1.15, and the taxi (progress 0.85, speed 70)
    at 1.25; only the look-ahead parameter, reduced with [%], is in
    [[0, 1]]. *)
Theorem wrap_misses_long_frame (c : Curve) :
  let car := TrafficCar.systemCar (Some c) 19 in
  let taxi := HeroTaxi.constructor (Some c) in
  inUnit (TrafficCar.progress car) = true /\
  inUnit (HeroTaxi.progress taxi) = true /\
  snd (TrafficCar.update (ofZ 40) car) = [lit 23 20; lit 31 200] /\
  snd (HeroTaxi.update (ofZ 40) taxi) = [lit 5 4; lit 51 200] /\
  inUnit (lit 23 20) = false /\ inUnit (lit 5 4) = false.
Proof.
  cbv zeta. repeat split; try reflexivity; num_eq.
Qed.

End FollowerFacts.

(* ================================================================= *)
(** ** NewsHelicopter *)

Module HelicopterFacts.
Import NewsHelicopter.
Section WithMath.
Context {M : MathLib}.

Lemma update_parked gp delta h :
  isManual h = false ->
  parkedAt (landingPos h) (update gp delta h) /\
  isManual (update gp delta h) = false /\
  landingPos (update gp delta h) = landingPos h.
Proof.
  intros Hm. unfold update. rewrite Hm. cbn. unfold parkedAt. cbn. auto.
Qed.

Lemma trace_parked frames : forall h,
  isManual h = false ->
  Forall (parkedAt (landingPos h)) (trace frames h).
Proof.
  induction frames as [|[gp delta] rest IH]; intros h Hm; cbn [trace].
  - constructor.
  - destruct (update_parked gp delta h Hm) as (Hp & Hm' & Hl).
    constructor; [exact Hp|]. rewrite <- Hl. apply IH, Hm'.
Qed.

End WithMath.

(** C7.  Helicopter parked determinism.  With [isManual = false], after
    every frame of any run (any gamepad state, any frame time, NaN
    included) the group position is the stored landing position, the
    velocity is the zero vector, the angular velocity is 0 and the rotor
    target speed is 0. *)
Theorem parked_determinism {M : MathLib} (h : NewsHelicopter)
    (frames : list (option Gamepad * num)) :
  isManual h = false ->
  Forall (fun h' =>
            groupPosition h' = landingPos h /\ velocity h' = vzero /\
            angularVelocity h' = ofZ 0 /\ targetRotorSpeed h' = ofZ 0)
         (trace frames h).
Proof. intros Hm. apply (trace_parked frames h Hm). Qed.

Lemma parked_determinism_witness :
  let pad := mkVec (ofZ 30) (ofZ 120) (ofZ (-45)) in
  let stick := mkGamepad (ofZ 1) (ofZ (-1)) (lit 1 2) (ofZ 1) in
  Forall (fun h' =>
            groupPosition h' = pad /\ velocity h' = vzero /\
            angularVelocity h' = ofZ 0 /\ targetRotorSpeed h' = ofZ 0)
         (trace (M := polyMath)
                [(None, lit 1 60); (Some stick, NaN); (Some stick, ofZ 100)]
                (constructor (Some pad) true)).
Proof.
  cbv zeta.
  apply (parked_determinism (M := polyMath)
           (constructor (Some (mkVec (ofZ 30) (ofZ 120) (ofZ (-45)))) true)).
  reflexivity.
Defined.

End HelicopterFacts.

(* ================================================================= *)
(** ** Elevator *)

Module ElevatorFacts.
Import Elevator.

Lemma bottom_below_100 : (STOP_Y_BOT <? ofZ 100)%js = true.
Proof. reflexivity. Qed.

Lemma top_not_below_100 : (STOP_Y_TOP <? ofZ 100)%js = false.
Proof. reflexivity. Qed.

Lemma step_Inv delta r s : Inv s -> Inv (step delta r s).
Proof.
  unfold Inv, step. destruct (mode s) eqn:Hm.
  - intros [Hy Hv]. destruct (_ <=? ofZ 0)%js.
    + destruct (y s <? ofZ 100)%js; reflexivity.
    + cbn. rewrite ?Hm. auto.
  - intros Ht. destruct (arrives delta s); cbn; rewrite ?Hm; auto.
  - intros Ht. destruct (arrives delta s); cbn; rewrite ?Hm; auto.
Qed.

Lemma step_phase delta r s :
  Inv s -> phase (step delta r s) = phase s \/ phase (step delta r s) = nextPhase (phase s).
Proof.
  unfold Inv, step, phase. destruct (mode s) eqn:Hm.
  - intros [[Hy|Hy] _]; rewrite Hy;
      rewrite ?bottom_below_100, ?top_not_below_100;
      destruct (_ <=? ofZ 0)%js; cbn; rewrite ?Hm, ?Hy;
      rewrite ?bottom_below_100, ?top_not_below_100; auto.
  - intros Ht. destruct (arrives delta s); cbn; [|rewrite ?Hm; auto].
    rewrite Ht, top_not_below_100. auto.
  - intros Ht. destruct (arrives delta s); cbn; [|rewrite ?Hm; auto].
    rewrite Ht, bottom_below_100. auto.
Qed.

Lemma phase_endpoints s :
  Inv s ->
  (phase s = AtBottom -> y s = STOP_Y_BOT /\ velocity s = ofZ 0) /\
  (phase s = AtTop -> y s = STOP_Y_TOP /\ velocity s = ofZ 0).
Proof.
  unfold Inv, phase. destruct (mode s).
  - intros [[Hy|Hy] Hv]; rewrite Hy;
      rewrite ?bottom_below_100, ?top_not_below_100; split; intros H;
      try discriminate; auto.
  - intros _. split; discriminate.
  - intros _. split; discriminate.
Qed.

Lemma arrival delta r s :
  Inv s -> mode s <> wait -> arrives delta s = true ->
  let s' := step delta r s in
  y s' = targetY s /\
  (mode s = up -> y s' = STOP_Y_TOP) /\
  (mode s = down -> y s' = STOP_Y_BOT) /\
  velocity s' = ofZ 0 /\ mode s' = wait /\
  (isRandom r = true -> (waitTime s' >=? ofZ 3)%js = true /\
                        (waitTime s' >? ofZ 0)%js = true).
Proof.
  unfold Inv, step. intros Hinv Hm Ha. rewrite Ha.
  destruct (mode s); [contradiction| |]; cbn; repeat split; trivial;
    try discriminate.
  all: unfold isRandom in *; destruct r as [|q]; try discriminate;
    apply andb_prop in H; destruct H as [H0 H1]; unfold ofZ in *; cbn [add mul lift2];
    js2q; change (inject_Z 0) with 0%Q in *; change (inject_Z 1) with 1%Q in *;
    change (inject_Z 3) with 3%Q; change (inject_Z 5) with 5%Q; lra.
Qed.

Lemma sign_pos (a : Qc) : (0 < this a)%Q -> Math_sign (Fin a) = ofZ 1.
Proof.
  intros H. unfold Math_sign.
  assert (E : (Fin a >? ofZ 0)%js = true) by (unfold ofZ; js2q; qlit; lra).
  rewrite E. reflexivity.
Qed.

Lemma sign_neg (a : Qc) : (this a < 0)%Q -> Math_sign (Fin a) = ofZ (-1).
Proof.
  intros H. unfold Math_sign.
  assert (E : (Fin a >? ofZ 0)%js = false) by (unfold ofZ; js2q; qlit; lra).
  assert (E' : (Fin a <? ofZ 0)%js = true) by (unfold ofZ; js2q; qlit; lra).
  rewrite E, E'. reflexivity.
Qed.

Lemma abs_nonneg (a : Qc) : (0 <= this a)%Q -> Math_abs (Fin a) = Fin a.
Proof.
  intros H. unfold Math_abs.
  assert (E : (Fin a <? ofZ 0)%js = false) by (unfold ofZ; js2q; qlit; lra).
  rewrite E. reflexivity.
Qed.

Lemma abs_nonpos (a : Qc) : (this a <= 0)%Q -> Math_abs (Fin a) = Fin (- a).
Proof.
  intros H. unfold Math_abs.
  destruct (Fin a <? ofZ 0)%js eqn:E; [reflexivity|].
  unfold ofZ in E. js2q. qlit. lra.
Qed.

(** *** A leg of the trip at a small constant frame time *)

(** Below the target and not moving down, a frame leaves a velocity of at
    least [9.5 d]. *)
Lemma nextVelocity_up (d : Qc) (s : State) (yq vq : Qc) :
  targetY s = Fin q415 -> y s = Fin yq -> velocity s = Fin vq ->
  (0 <= this vq)%Q -> (this yq < 415)%Q -> (0 < this d)%Q -> (this d <= 2 # 5)%Q ->
  exists w : Qc,
    nextVelocity (Fin d) s = Fin w /\ ((19 # 2) * this d <= this w)%Q.
Proof.
  intros Ht Hy Hv Hv0 Hy1 Hd0 Hd1.
  unfold nextVelocity. rewrite Ht, Hy, Hv. cbn [sub lift2].
  assert (Hu : (0 < this (q415 - yq)%Qc)%Q) by (unfold q415; js2q; qlit; lra).
  rewrite (sign_pos _ Hu), (abs_nonneg vq Hv0), (abs_nonneg (q415 - yq)) by lra.
  unfold MAX_SPEED, ACCEL, ofZ, lit. cbn [add mul lift2].
  destruct (Fin vq <? _)%js eqn:E1; destruct (Fin (q415 - yq) <? _)%js eqn:E2;
    cbn [mul lift2]; eexists; (split; [reflexivity|]); js2q; qlit; lra.
Qed.

Lemma up_step (d : Qc) (r : num) (s : State) (yq vq : Qc) :
  mode s = up -> targetY s = Fin q415 -> y s = Fin yq -> velocity s = Fin vq ->
  (0 <= this vq)%Q -> (this yq <= 414)%Q -> (0 < this d)%Q -> (this d <= 2 # 5)%Q ->
  exists w : Qc,
    ((19 # 2) * this d <= this w)%Q /\
    step (Fin d) r s
    = mkState (Fin (yq + w * d)) (Fin q415) (Fin w) up (waitTime s).
Proof.
  intros Hm Ht Hy Hv Hv0 Hy1 Hd0 Hd1.
  destruct (nextVelocity_up d s yq vq Ht Hy Hv Hv0 ltac:(lra) Hd0 Hd1) as (w & Hw & Hwd).
  exists w. split; [exact Hwd|].
  unfold step, arrives. rewrite Hm, Hw, Ht, Hy. cbn [sub lift2].
  assert (Hu : (1 <= this (q415 - yq)%Qc)%Q) by (unfold q415; js2q; qlit; lra).
  rewrite (sign_pos (q415 - yq)), (abs_nonneg (q415 - yq)) by lra.
  settle_all. cbn [orb andb add mul lift2]. reflexivity.
Qed.

Lemma step_arrives (delta r : num) (s : State) :
  mode s <> wait -> arrives delta s = true ->
  step delta r s
  = mkState (targetY s) (targetY s) (ofZ 0) wait (ofZ 3 + r * ofZ 5)%js.
Proof.
  intros Hm Ha. unfold step. rewrite Ha. destruct (mode s); [contradiction| |]; reflexivity.
Qed.

Lemma near_arrives (delta : num) (s : State) (yq tq : Qc) :
  targetY s = Fin tq -> y s = Fin yq ->
  (this tq - this yq < 1)%Q -> (-1 < this tq - this yq)%Q ->
  arrives delta s = true.
Proof.
  intros Ht Hy H1 H2. unfold arrives. rewrite Ht, Hy. cbn [sub lift2].
  assert (E : (Math_abs (Fin (tq - yq)) <? ofZ 1)%js = true).
  { destruct (Qlt_le_dec (this (tq - yq)%Qc) 0) as [Hneg|Hpos].
    - rewrite abs_nonpos by lra. unfold ofZ. js2q. qlit. lra.
    - rewrite abs_nonneg by lra. unfold ofZ. js2q. qlit. lra. }
  rewrite E. reflexivity.
Qed.

Lemma overshoot_up_arrives (d : Qc) (s : State) (yq vq : Qc) :
  targetY s = Fin q415 -> y s = Fin yq -> velocity s = Fin vq ->
  (416 <= this yq)%Q -> (5 <= this vq)%Q -> (0 < this d)%Q -> (this d <= 2 # 5)%Q ->
  arrives (Fin d) s = true.
Proof.
  intros Ht Hy Hv Hy1 Hv1 Hd0 Hd1.
  unfold arrives, nextVelocity. rewrite Ht, Hy, Hv. cbn [sub lift2].
  assert (Hu : (this (q415 - yq)%Qc <= -1)%Q) by (unfold q415; js2q; qlit; lra).
  rewrite (sign_neg (q415 - yq)), (abs_nonpos (q415 - yq)), (abs_nonneg vq) by lra.
  unfold MAX_SPEED, ACCEL, ofZ, lit. cbn [add mul lift2].
  destruct (Fin vq <? _)%js eqn:E1; destruct (Fin (- (q415 - yq)) <? Fin (Q2Qc (inject_Z 50)))%js eqn:E2;
    cbn [mul lift2]; settle_all; reflexivity.
Qed.

Lemma up_leg (d : Qc) (r : num) (Hd0 : (0 < this d)%Q) (Hd1 : (this d <= 2 # 5)%Q) :
  forall (m : nat) (s : State) (yq vq : Qc),
    mode s = up -> targetY s = Fin q415 -> y s = Fin yq -> velocity s = Fin vq ->
    (0 <= this vq)%Q -> (this yq <= 414)%Q ->
    (415 - this yq <= 1 + inject_Z (Z.of_nat m) * ((19 # 2) * this d * this d))%Q ->
    exists n : nat,
      (forall j, (j < n)%nat -> mode (iterate (Fin d) r j s) = up) /\
      iterate (Fin d) r n s = arrivedAt (Fin q415) r.
Proof.
  induction m as [|m IH]; intros s yq vq Hm Ht Hy Hv Hv0 Hy1 Hbound;
    destruct (up_step d r s yq vq Hm Ht Hy Hv Hv0 Hy1 Hd0 Hd1) as (w & Hw & Hstep);
    assert (Hwd : ((19 # 2) * this d * this d <= this w * this d)%Q)
      by (apply Qmult_le_compat_r; lra);
    assert (Hdd : (0 < this d * this d)%Q) by (apply Qmult_lt_0_compat; lra);
    assert (Hy' : (this (yq + w * d)%Qc == this yq + this w * this d)%Q)
      by (js2q; reflexivity);
    set (s1 := step (Fin d) r s) in *;
    assert (Hm1 : mode s1 = up) by (rewrite Hstep; reflexivity);
    assert (Ht1 : targetY s1 = Fin q415) by (rewrite Hstep; reflexivity);
    assert (Hy1' : y s1 = Fin (yq + w * d)%Qc) by (rewrite Hstep; reflexivity);
    assert (Hv1 : velocity s1 = Fin w) by (rewrite Hstep; reflexivity);
    assert (Hfinish :
              (414 < this yq + this w * this d)%Q ->
              exists n : nat,
                (forall j, (j < n)%nat -> mode (iterate (Fin d) r j s) = up) /\
                iterate (Fin d) r n s = arrivedAt (Fin q415) r).
  1, 3: intros Hpast; exists 2%nat; split;
    [ intros [|[|j]] Hj; [exact Hm | exact Hm1 | lia]
    | cbn [iterate]; fold s1; rewrite step_arrives;
      [ rewrite Ht1; reflexivity
      | rewrite Hm1; discriminate
      | destruct (Qlt_le_dec (this yq + this w * this d) 416) as [Hnear|Hover];
        [ apply (near_arrives _ s1 (yq + w * d)%Qc q415 Ht1 Hy1');
          rewrite Hy'; unfold q415; rewrite this_Q2Qc; qlit; lra
        | apply (overshoot_up_arrives d s1 (yq + w * d)%Qc w Ht1 Hy1' Hv1);
          [ rewrite Hy'; lra
          | destruct (Qlt_le_dec (this w) 5) as [Hslow|Hfast]; [|exact Hfast];
            exfalso;
            assert (this w * this d < 5 * this d)%Q by (apply Qmult_lt_compat_r; lra);
            lra
          | exact Hd0 | exact Hd1 ] ] ] ].
  - apply Hfinish. change (inject_Z (Z.of_nat 0)) with 0%Q in Hbound. lra.
  - destruct (Qlt_le_dec 414 (this yq + this w * this d)) as [Hpast|Hbelow];
      [apply Hfinish, Hpast|].
    destruct (IH s1 (yq + w * d)%Qc w Hm1 Ht1 Hy1' Hv1) as (n & Hbefore & Hat).
    + lra.
    + rewrite Hy'. exact Hbelow.
    + rewrite Hy'. rewrite this_ofnat_S in Hbound. lra.
    + exists (S n). split.
      * intros [|j] Hj; [exact Hm|]. cbn [iterate]. apply Hbefore. lia.
      * cbn [iterate]. exact Hat.
Qed.

Lemma nextVelocity_down (d : Qc) (s : State) (yq vq : Qc) :
  targetY s = Fin q10 -> y s = Fin yq -> velocity s = Fin vq ->
  (this vq <= 0)%Q -> (10 < this yq)%Q -> (0 < this d)%Q -> (this d <= 2 # 5)%Q ->
  exists w : Qc,
    nextVelocity (Fin d) s = Fin w /\ (this w <= - ((19 # 2) * this d))%Q.
Proof.
  intros Ht Hy Hv Hv0 Hy1 Hd0 Hd1.
  unfold nextVelocity. rewrite Ht, Hy, Hv. cbn [sub lift2].
  assert (Hu : (this (q10 - yq)%Qc < 0)%Q) by (unfold q10; js2q; qlit; lra).
  rewrite (sign_neg _ Hu), (abs_nonpos vq Hv0), (abs_nonpos (q10 - yq)) by lra.
  unfold MAX_SPEED, ACCEL, ofZ, lit. cbn [add mul lift2].
  destruct (Fin (- vq) <? _)%js eqn:E1; destruct (Fin (- (q10 - yq)) <? _)%js eqn:E2;
    cbn [mul lift2]; eexists; (split; [reflexivity|]); js2q; qlit; lra.
Qed.

Lemma down_step (d : Qc) (r : num) (s : State) (yq vq : Qc) :
  mode s = down -> targetY s = Fin q10 -> y s = Fin yq -> velocity s = Fin vq ->
  (this vq <= 0)%Q -> (11 <= this yq)%Q -> (0 < this d)%Q -> (this d <= 2 # 5)%Q ->
  exists w : Qc,
    (this w <= - ((19 # 2) * this d))%Q /\
    step (Fin d) r s
    = mkState (Fin (yq + w * d)) (Fin q10) (Fin w) down (waitTime s).
Proof.
  intros Hm Ht Hy Hv Hv0 Hy1 Hd0 Hd1.
  destruct (nextVelocity_down d s yq vq Ht Hy Hv Hv0 ltac:(lra) Hd0 Hd1) as (w & Hw & Hwd).
  exists w. split; [exact Hwd|].
  unfold step, arrives. rewrite Hm, Hw, Ht, Hy. cbn [sub lift2].
  assert (Hu : (this (q10 - yq)%Qc <= -1)%Q) by (unfold q10; js2q; qlit; lra).
  rewrite (sign_neg (q10 - yq)), (abs_nonpos (q10 - yq)) by lra.
  settle_all. cbn [orb andb add mul lift2]. reflexivity.
Qed.

Lemma undershoot_down_arrives (d : Qc) (s : State) (yq vq : Qc) :
  targetY s = Fin q10 -> y s = Fin yq -> velocity s = Fin vq ->
  (this yq <= 9)%Q -> (this vq <= -5)%Q -> (0 < this d)%Q -> (this d <= 2 # 5)%Q ->
  arrives (Fin d) s = true.
Proof.
  intros Ht Hy Hv Hy1 Hv1 Hd0 Hd1.
  unfold arrives, nextVelocity. rewrite Ht, Hy, Hv. cbn [sub lift2].
  assert (Hu : (1 <= this (q10 - yq)%Qc)%Q) by (unfold q10; js2q; qlit; lra).
  rewrite (sign_pos (q10 - yq)), (abs_nonneg (q10 - yq)), (abs_nonpos vq) by lra.
  unfold MAX_SPEED, ACCEL, ofZ, lit. cbn [add mul lift2].
  destruct (Fin (- vq) <? _)%js eqn:E1; destruct (Fin (q10 - yq) <? Fin (Q2Qc (inject_Z 50)))%js eqn:E2;
    cbn [mul lift2]; settle_all; cbn [orb andb]; try reflexivity.
Qed.

Lemma down_leg (d : Qc) (r : num) (Hd0 : (0 < this d)%Q) (Hd1 : (this d <= 2 # 5)%Q) :
  forall (m : nat) (s : State) (yq vq : Qc),
    mode s = down -> targetY s = Fin q10 -> y s = Fin yq -> velocity s = Fin vq ->
    (this vq <= 0)%Q -> (11 <= this yq)%Q ->
    (this yq - 10 <= 1 + inject_Z (Z.of_nat m) * ((19 # 2) * this d * this d))%Q ->
    exists n : nat,
      (forall j, (j < n)%nat -> mode (iterate (Fin d) r j s) = down) /\
      iterate (Fin d) r n s = arrivedAt (Fin q10) r.
Proof.
  induction m as [|m IH]; intros s yq vq Hm Ht Hy Hv Hv0 Hy1 Hbound;
    destruct (down_step d r s yq vq Hm Ht Hy Hv Hv0 Hy1 Hd0 Hd1) as (w & Hw & Hstep);
    assert (Hwd : (this w * this d <= - ((19 # 2) * this d) * this d)%Q)
      by (apply Qmult_le_compat_r; lra);
    assert (Hdd : (0 < this d * this d)%Q) by (apply Qmult_lt_0_compat; lra);
    assert (Hy' : (this (yq + w * d)%Qc == this yq + this w * this d)%Q)
      by (js2q; reflexivity);
    set (s1 := step (Fin d) r s) in *;
    assert (Hm1 : mode s1 = down) by (rewrite Hstep; reflexivity);
    assert (Ht1 : targetY s1 = Fin q10) by (rewrite Hstep; reflexivity);
    assert (Hy1' : y s1 = Fin (yq + w * d)%Qc) by (rewrite Hstep; reflexivity);
    assert (Hv1 : velocity s1 = Fin w) by (rewrite Hstep; reflexivity);
    assert (Hfinish :
              (this yq + this w * this d < 11)%Q ->
              exists n : nat,
                (forall j, (j < n)%nat -> mode (iterate (Fin d) r j s) = down) /\
                iterate (Fin d) r n s = arrivedAt (Fin q10) r).
  1, 3: intros Hpast; exists 2%nat; split;
    [ intros [|[|j]] Hj; [exact Hm | exact Hm1 | lia]
    | cbn [iterate]; fold s1; rewrite step_arrives;
      [ rewrite Ht1; reflexivity
      | rewrite Hm1; discriminate
      | destruct (Qlt_le_dec 9 (this yq + this w * this d)) as [Hnear|Hover];
        [ apply (near_arrives _ s1 (yq + w * d)%Qc q10 Ht1 Hy1');
          rewrite Hy'; unfold q10; rewrite this_Q2Qc; qlit; lra
        | apply (undershoot_down_arrives d s1 (yq + w * d)%Qc w Ht1 Hy1' Hv1);
          [ rewrite Hy'; lra
          | destruct (Qlt_le_dec (-5) (this w)) as [Hslow|Hfast]; [|exact Hfast];
            exfalso;
            assert (-5 * this d < this w * this d)%Q by (apply Qmult_lt_compat_r; lra);
            lra
          | exact Hd0 | exact Hd1 ] ] ] ].
  - apply Hfinish. change (inject_Z (Z.of_nat 0)) with 0%Q in Hbound. lra.
  - destruct (Qlt_le_dec (this yq + this w * this d) 11) as [Hpast|Hbelow];
      [apply Hfinish, Hpast|].
    destruct (IH s1 (yq + w * d)%Qc w Hm1 Ht1 Hy1' Hv1) as (n & Hbefore & Hat).
    + lra.
    + rewrite Hy'. exact Hbelow.
    + rewrite Hy'. rewrite this_ofnat_S in Hbound. lra.
    + exists (S n). split.
      * intros [|j] Hj; [exact Hm|]. cbn [iterate]. apply Hbefore. lia.
      * cbn [iterate]. exact Hat.
Qed.

Lemma wait_leaves (d : Qc) (r : num) (Hd0 : (0 < this d)%Q) :
  forall (m : nat) (s : State) (tau : Qc),
    mode s = wait -> waitTime s = Fin tau ->
    (this tau <= inject_Z (Z.of_nat (S m)) * this d)%Q ->
    exists (n : nat) (tau' : Qc),
      (forall j, (j < n)%nat ->
                 mode (iterate (Fin d) r j s) = wait /\ y (iterate (Fin d) r j s) = y s) /\
      iterate (Fin d) r n s
      = (if (y s <? ofZ 100)%js
         then mkState (y s) STOP_Y_TOP (velocity s) up (Fin tau')
         else mkState (y s) STOP_Y_BOT (velocity s) down (Fin tau')).
Proof.
  induction m as [|m IH]; intros s tau Hm Hw Hbound;
    assert (Hstep : step (Fin d) r s
                    = if (Fin (tau - d) <=? ofZ 0)%js
                      then (if (y s <? ofZ 100)%js
                            then mkState (y s) STOP_Y_TOP (velocity s) up (Fin (tau - d))
                            else mkState (y s) STOP_Y_BOT (velocity s) down (Fin (tau - d)))
                      else mkState (y s) (targetY s) (velocity s) (mode s) (Fin (tau - d)))
      by (unfold step; rewrite Hm, Hw; reflexivity);
    destruct (Fin (tau - d) <=? ofZ 0)%js eqn:E.
  - exists 1%nat, (tau - d)%Qc. split.
    + intros j Hj. replace j with 0%nat by lia. cbn. auto.
    + cbn [iterate]. exact Hstep.
  - exfalso. change (inject_Z (Z.of_nat 1)) with 1%Q in Hbound.
    unfold ofZ in E. js2q. qlit. lra.
  - exists 1%nat, (tau - d)%Qc. split.
    + intros j Hj. replace j with 0%nat by lia. cbn. auto.
    + cbn [iterate]. exact Hstep.
  - destruct (IH (step (Fin d) r s) (tau - d)%Qc) as (n & tau' & Hbefore & Hat).
    + rewrite Hstep, Hm. reflexivity.
    + rewrite Hstep. reflexivity.
    + js2q. rewrite this_ofnat_S in Hbound. lra.
    + exists (S n), tau'. split.
      * intros [|j] Hj; [cbn; auto|]. cbn [iterate].
        destruct (Hbefore j) as [H1 H2]; [lia|]. rewrite H1, H2, Hstep. auto.
      * cbn [iterate]. rewrite Hat, Hstep. reflexivity.
Qed.

Lemma iterate_app (delta random : num) (n m : nat) (s : State) :
  iterate delta random (n + m) s = iterate delta random m (iterate delta random n s).
Proof. revert s. induction n as [|n IH]; intros s; cbn; auto. Qed.

Lemma run_iterate {M : MathLib} (delta random : num) (n : nat) (e : Elevator) :
  state (run (repeat (delta, random) n) e) = iterate delta random n (state e).
Proof. revert e. induction n as [|n IH]; intros e; cbn; [reflexivity|]. rewrite IH. reflexivity. Qed.

Lemma full_cycle (d r r0 off : Qc) (angle : num) :
  (0 < this d)%Q -> (this d <= 2 # 5)%Q ->
  let s0 := state (constructor angle (Fin off) (Fin r0)) in
  exists n1 n2 n3 n4 : nat,
    let s1 := iterate (Fin d) (Fin r) n1 s0 in
    let s2 := iterate (Fin d) (Fin r) n2 s1 in
    let s3 := iterate (Fin d) (Fin r) n3 s2 in
    let s4 := iterate (Fin d) (Fin r) n4 s3 in
    (forall j, (j < n1)%nat ->
               mode (iterate (Fin d) (Fin r) j s0) = wait /\
               y (iterate (Fin d) (Fin r) j s0) = ofZ 10) /\
    mode s1 = up /\ y s1 = ofZ 10 /\
    (forall j, (j < n2)%nat -> mode (iterate (Fin d) (Fin r) j s1) = up) /\
    mode s2 = wait /\ y s2 = ofZ 415 /\ velocity s2 = ofZ 0 /\
    (forall j, (j < n3)%nat ->
               mode (iterate (Fin d) (Fin r) j s2) = wait /\
               y (iterate (Fin d) (Fin r) j s2) = ofZ 415) /\
    mode s3 = down /\ y s3 = ofZ 415 /\
    (forall j, (j < n4)%nat -> mode (iterate (Fin d) (Fin r) j s3) = down) /\
    mode s4 = wait /\ y s4 = ofZ 10 /\ velocity s4 = ofZ 0.
Proof.
  intros Hd0 Hd1 s0.
  assert (Hdd : (0 < (19 # 2) * this d * this d)%Q).
  { apply Qmult_lt_0_compat; [|exact Hd0]. lra. }
  destruct (archimedes (this (r0 * Q2Qc (inject_Z 5) + off)%Qc) (this d) Hd0)
    as [m1 Hm1].
  destruct (wait_leaves d (Fin r) Hd0 m1 s0 _ eq_refl eq_refl) as (n1 & t1 & Hw1 & Hs1).
  { rewrite this_ofnat_S. lra. }
  change (y s0 <? ofZ 100)%js with true in Hs1. cbv iota in Hs1.
  set (s1 := iterate (Fin d) (Fin r) n1 s0) in *.
  destruct (archimedes 404 ((19 # 2) * this d * this d) Hdd) as [m2 Hm2].
  destruct (up_leg d (Fin r) Hd0 Hd1 m2 s1 q10 (Q2Qc (inject_Z 0)))
    as (n2 & Hu2 & Hs2); try (rewrite Hs1; reflexivity).
  { qlit. cbn. lra. }
  { unfold q10. rewrite this_Q2Qc. qlit. lra. }
  { unfold q10. rewrite this_Q2Qc. qlit. lra. }
  set (s2 := iterate (Fin d) (Fin r) n2 s1) in *.
  assert (Hy2 : y s2 = ofZ 415) by (rewrite Hs2; reflexivity).
  assert (Hv2 : velocity s2 = ofZ 0) by (rewrite Hs2; reflexivity).
  destruct (archimedes (this (Q2Qc (inject_Z 3) + r * Q2Qc (inject_Z 5))%Qc)
              (this d) Hd0) as [m3 Hm3].
  destruct (wait_leaves d (Fin r) Hd0 m3 s2
              (Q2Qc (inject_Z 3) + r * Q2Qc (inject_Z 5))%Qc)
    as (n3 & t3 & Hw3 & Hs3); try (rewrite Hs2; reflexivity).
  { rewrite this_ofnat_S. lra. }
  rewrite Hy2, Hv2 in Hs3.
  change (ofZ 415 <? ofZ 100)%js with false in Hs3. cbv iota in Hs3.
  set (s3 := iterate (Fin d) (Fin r) n3 s2) in *.
  destruct (down_leg d (Fin r) Hd0 Hd1 m2 s3 q415 (Q2Qc (inject_Z 0)))
    as (n4 & Hu4 & Hs4); try (rewrite Hs3; reflexivity).
  { qlit. cbn. lra. }
  { unfold q415. rewrite this_Q2Qc. qlit. lra. }
  { unfold q415. rewrite this_Q2Qc. qlit. lra. }
  exists n1, n2, n3, n4. cbv zeta. fold s1 s2 s3.
  rewrite Hs4. repeat split; auto; try (rewrite Hs1; reflexivity);
    try (rewrite Hs2; reflexivity); try (rewrite Hs3; reflexivity).
  - apply Hw1, H.
  - apply Hw1, H.
  - apply Hw3, H.
  - destruct (Hw3 j H) as [_ Hy]. rewrite Hy. exact Hy2.
Qed.

Section WithMath.
Context {M : MathLib}.

Lemma trace_cycle frames : forall e,
  Inv (state e) ->
  follows (phase (state e)) (map (fun e' => phase (state e')) (trace frames e)) /\
  Forall (fun e' => Inv (state e') /\ carGroupY e' = y (state e')) (trace frames e).
Proof.
  induction frames as [|[delta r] rest IH]; intros e He; cbn [trace map follows].
  - split; [exact I | constructor].
  - assert (He' : Inv (state (update delta r e))) by (apply step_Inv, He).
    destruct (IH _ He') as [Hf Ha]. split.
    + split; [apply step_phase, He | exact Hf].
    + constructor; [split; [exact He' | reflexivity] | exact Ha].
Qed.

End WithMath.

(** The shuttle at one second per frame: the new elevator leaves after 3
    frames, waits at the top after 25, leaves it after 31 and is back at
    the bottom after 53. *)
Example elevator_run {M : MathLib} :
  let e0 := constructor (ofZ 60) (ofZ 0) (lit 1 2) in
  let after n := state (run (repeat (ofZ 1, lit 1 2) n) e0) in
  phase (after 2%nat) = AtBottom /\ phase (after 3%nat) = GoingUp /\
  phase (after 24%nat) = GoingUp /\
  phase (after 25%nat) = AtTop /\ y (after 25%nat) = ofZ 415 /\
  phase (after 30%nat) = AtTop /\ phase (after 31%nat) = GoingDown /\
  phase (after 52%nat) = GoingDown /\
  phase (after 53%nat) = AtBottom /\ y (after 53%nat) = ofZ 10.
Proof. cbv zeta. repeat split; try (vm_compute; reflexivity); num_eq. Qed.

(** C8.  Elevator round trip.
    - Arrival: when a frame of a moving elevator meets the end test
      (distance to the target below 1, or a velocity against the travel
      direction), the car is put exactly on the target -- 415 going up, 10
      going down --, the velocity is 0, the mode is [wait], and for a
      random draw in [[0, 1)] the new dwell [3 + 5 * random] is at least 3,
      so strictly positive.
    - Cycle: along any run from a new elevator (which waits at the bottom,
      y = 10) the phases follow the cycle bottom, up, top, down, bottom;
      whenever the car waits, it stands exactly at 10 (bottom) or exactly
      at 415 (top) with velocity 0.
    - The cycle does take place: at any constant frame time [d] with
      [0 < d <= 0.4] the new elevator leaves the bottom after some [n1]
      frames, waits at the top (y = 415, velocity 0) after [n2] more,
      leaves it after [n3] more, and waits at the bottom again (y = 10,
      velocity 0) after [n4] more. *)
Theorem elevator_round_trip {M : MathLib} :
  (forall delta r e,
      Inv (state e) -> mode (state e) <> wait -> arrives delta (state e) = true ->
      let e' := update delta r e in
      y (state e') = targetY (state e) /\
      (mode (state e) = up -> y (state e') = ofZ 415) /\
      (mode (state e) = down -> y (state e') = ofZ 10) /\
      carGroupY e' = y (state e') /\
      velocity (state e') = ofZ 0 /\ mode (state e') = wait /\
      (isRandom r = true -> (waitTime (state e') >=? ofZ 3)%js = true /\
                            (waitTime (state e') >? ofZ 0)%js = true)) /\
  (forall angle offset r0 frames,
      let e0 := constructor angle offset r0 in
      phase (state e0) = AtBottom /\ y (state e0) = ofZ 10 /\
      follows AtBottom (map (fun e => phase (state e)) (trace frames e0)) /\
      Forall (fun e =>
                Inv (state e) /\
                (phase (state e) = AtBottom ->
                 y (state e) = ofZ 10 /\ velocity (state e) = ofZ 0) /\
                (phase (state e) = AtTop ->
                 y (state e) = ofZ 415 /\ velocity (state e) = ofZ 0))
             (trace frames e0)) /\
  (forall (d r r0 off : Qc) (angle : num),
      (0 < d)%Qc -> (d <= Q2Qc (2 # 5))%Qc ->
      let e0 := constructor angle (Fin off) (Fin r0) in
      let after n := state (run (repeat (Fin d, Fin r) n) e0) in
      exists n1 n2 n3 n4 : nat,
        (forall j, (j < n1)%nat -> mode (after j) = wait /\ y (after j) = ofZ 10) /\
        mode (after n1) = up /\ y (after n1) = ofZ 10 /\
        (forall j, (j < n2)%nat -> mode (after (n1 + j)%nat) = up) /\
        mode (after (n1 + n2)%nat) = wait /\ y (after (n1 + n2)%nat) = ofZ 415 /\
        velocity (after (n1 + n2)%nat) = ofZ 0 /\
        (forall j, (j < n3)%nat ->
                   mode (after (n1 + n2 + j)%nat) = wait /\
                   y (after (n1 + n2 + j)%nat) = ofZ 415) /\
        mode (after (n1 + n2 + n3)%nat) = down /\
        y (after (n1 + n2 + n3)%nat) = ofZ 415 /\
        (forall j, (j < n4)%nat -> mode (after (n1 + n2 + n3 + j)%nat) = down) /\
        mode (after (n1 + n2 + n3 + n4)%nat) = wait /\
        y (after (n1 + n2 + n3 + n4)%nat) = ofZ 10 /\
        velocity (after (n1 + n2 + n3 + n4)%nat) = ofZ 0).
Proof.
  split; [|split].
  - intros delta r e Hinv Hm Ha. cbv zeta. cbn [update state carGroupY].
    destruct (arrival delta r (state e) Hinv Hm Ha) as (H1 & H2 & H3 & H4 & H5 & H6).
    cbv zeta in *. repeat split; auto; apply H6; assumption.
  - intros angle offset r0 frames. cbv zeta.
    assert (H0 : Inv (state (constructor angle offset r0))).
    { unfold Inv. cbn. auto. }
    destruct (trace_cycle frames _ H0) as [Hf Ha].
    repeat split; trivial.
    revert Ha. apply Forall_impl. intros e [He _].
    split; [exact He | apply phase_endpoints, He].
  - intros d r r0 off angle Hd0 Hd1. cbv zeta.
    destruct (full_cycle d r r0 off angle Hd0 Hd1) as (n1 & n2 & n3 & n4 & H).
    cbv zeta in H. exists n1, n2, n3, n4.
    repeat setoid_rewrite run_iterate. repeat setoid_rewrite iterate_app.
    exact H.
Qed.

Lemma elevator_round_trip_witness :
  (let e := mkElevator (ofZ 60) (ofZ 0)
              (mkState (lit 8299 20) (ofZ 415) (lit 19 20) up (lit (-1) 2))
              (lit 8299 20) vzero in
   let e' := update (M := polyMath) (lit 1 10) (lit 1 4) e in
   y (state e') = ofZ 415 /\ velocity (state e') = ofZ 0 /\
   mode (state e') = wait /\ (waitTime (state e') >? ofZ 0)%js = true) /\
  (exists n : nat,
     let e := run (M := polyMath) (repeat (lit 1 60, lit 1 2) n)
                  (constructor (ofZ 60) (ofZ 0) (lit 1 2)) in
     mode (state e) = wait /\ y (state e) = ofZ 415).
Proof.
  split.
  - cbv zeta.
    destruct (proj1 (elevator_round_trip (M := polyMath)) (lit 1 10) (lit 1 4)
                (mkElevator (ofZ 60) (ofZ 0)
                   (mkState (lit 8299 20) (ofZ 415) (lit 19 20) up (lit (-1) 2))
                   (lit 8299 20) vzero))
      as (_ & Hy & _ & _ & Hv & Hm & Hw).
    + reflexivity.
    + discriminate.
    + reflexivity.
    + repeat split; auto; apply Hw; reflexivity.
  - destruct (proj2 (proj2 (elevator_round_trip (M := polyMath)))
                (Q2Qc (1 # 60)) (Q2Qc (1 # 2)) (Q2Qc (1 # 2)) (Q2Qc (inject_Z 0))
                (ofZ 60))
      as (n1 & n2 & _ & _ & _ & _ & _ & _ & Hm & Hy & _).
    + reflexivity.
    + vm_compute. discriminate.
    + exists (n1 + n2)%nat. split; [exact Hm | exact Hy].
Defined.

End ElevatorFacts.

(* ================================================================= *)
(** ** createSteppedLobe: shell extraction *)

Module LobeFacts.
Import Lobe.

(** *** The loops run to their end *)

Lemma Qfloor_unique (q : Q) (k : Z) :
  (inject_Z k <= q)%Q -> (q < inject_Z (k + 1))%Q -> Qfloor q = k.
Proof.
  intros H1 H2.
  assert (A : (inject_Z (Qfloor q) < inject_Z (k + 1))%Q)
    by (eapply Qle_lt_trans; [apply Qfloor_le | exact H2]).
  assert (B : (inject_Z k < inject_Z (Qfloor q + 1))%Q)
    by (eapply Qle_lt_trans; [exact H1 | apply Qlt_floor]).
  rewrite <- Zlt_Qlt in A, B. lia.
Qed.

Lemma Qfloor_pred (q : Q) : Qfloor (q - 1) = (Qfloor q - 1)%Z.
Proof.
  apply Qfloor_unique.
  - assert (H := Qfloor_le q). unfold Z.sub. rewrite inject_Z_plus.
    cbn [Z.opp]. change (inject_Z (-1)) with (-1)%Q. unfold Qminus. lra.
  - assert (H := Qlt_floor q). replace (Qfloor q - 1 + 1)%Z with (Qfloor q) by lia.
    rewrite inject_Z_plus in H. change (inject_Z 1) with 1%Q in H. unfold Qminus. lra.
Qed.

Lemma this_div (a b : Qc) : (this (a / b)%Qc == this a / this b)%Q.
Proof.
  unfold Qcdiv, Qcinv. rewrite this_mul, this_Q2Qc. reflexivity.
Qed.

(** A round of the loop lowers the trip count by one. *)
Lemma tripCount_step (lo hi : Qc) :
  (this lo <= this hi)%Q ->
  tripCount (Fin lo) (Fin hi)
  = S (tripCount (Fin lo + voxelSize)%js (Fin hi)).
Proof.
  intros Hle. unfold tripCount, voxelSize, lit. cbn [sub add div lift2].
  assert (Hz : qzero (Q2Qc (125 # 100)) = false) by reflexivity.
  rewrite Hz.
  set (q := this ((hi - lo) / Q2Qc (125 # 100))%Qc).
  set (q' := this ((hi - (lo + Q2Qc (125 # 100))) / Q2Qc (125 # 100))%Qc).
  assert (Hq : (q == (this hi - this lo) / (125 # 100))%Q).
  { unfold q. rewrite this_div, this_sub, this_Q2Qc. reflexivity. }
  assert (Hq' : (q' == q - 1)%Q).
  { rewrite Hq. unfold q'. rewrite this_div, this_sub, this_add, this_Q2Qc. field. }
  assert (Hpos : (0 <= q)%Q).
  { rewrite Hq. apply Qle_shift_div_l; [reflexivity | lra]. }
  assert (Hfl : (0 <= Qfloor q)%Z).
  { change 0%Z with (Qfloor 0). apply Qfloor_resp_le, Hpos. }
  rewrite (Qfloor_comp _ _ Hq'), Qfloor_pred. lia.
Qed.

Lemma forLoop_fuel_enough {S : Type} (hi : num) (cond : num -> bool)
    (body : num -> S -> S) :
  (forall x, cond x = true -> (x <=? hi)%js = true) ->
  forall (n : nat) (lo : num) (s : S) (extra : nat),
    tripCount lo hi = n ->
    forLoop (n + extra) cond lo body s = forLoop n cond lo body s.
Proof.
  intros Hcond. induction n as [|n IH]; intros lo s extra Hn.
  - destruct extra as [|extra]; cbn [Nat.add forLoop]; [reflexivity|].
    destruct (cond lo) eqn:Hc; [|reflexivity]. exfalso.
    apply Hcond in Hc. destruct lo as [|lo], hi as [|hi]; try discriminate.
    js2q. rewrite (tripCount_step lo hi Hc) in Hn. discriminate.
  - cbn [Nat.add forLoop]. destruct (cond lo) eqn:Hc; [|reflexivity].
    apply IH. apply Hcond in Hc. destruct lo as [|lo], hi as [|hi]; try discriminate.
    js2q. rewrite (tripCount_step lo hi Hc) in Hn. congruence.
Qed.

Lemma forLoop_ext {S : Type} (cond : num -> bool) (body body' : num -> S -> S) :
  (forall x s, body x s = body' x s) ->
  forall fuel lo s, forLoop fuel cond lo body s = forLoop fuel cond lo body' s.
Proof.
  intros Hb. induction fuel as [|fuel IH]; intros lo s; cbn [forLoop]; [reflexivity|].
  destruct (cond lo); [|reflexivity]. rewrite Hb. apply IH.
Qed.

(** More fuel gives the same grid: each loop of the sweep stops on its
    own condition. *)
Lemma sweep_fuel_enough center dims shapeFn exclusionFn (ey ex ez : nat) :
  sweepWith center dims shapeFn exclusionFn
    (tripCount (ofZ 0) (h dims) + ey)
    (tripCount (- w dims)%js (w dims) + ex)
    (tripCount (- d dims)%js (d dims) + ez)
  = sweep center dims shapeFn exclusionFn.
Proof.
  unfold sweep, sweepWith.
  rewrite (forLoop_fuel_enough (h dims)) by
    (try reflexivity; intros [|v]; destruct (h dims); cbn; try discriminate;
     unfold Qccompare; destruct (_ ?= _)%Q; congruence).
  apply forLoop_ext. intros yv g.
  rewrite (forLoop_fuel_enough (w dims)) by (try reflexivity; auto).
  apply forLoop_ext. intros xv g'.
  apply (forLoop_fuel_enough (d dims)); [auto | reflexivity].
Qed.

(** *** Keys *)

Lemma same_eq (a b : num) : same a b = true <-> a = b.
Proof.
  destruct a as [|p], b as [|q]; cbn; split; try congruence.
  - intros H. f_equal. apply Qc_ext, Qeq_bool_iff, H.
  - intros H. injection H as ->. apply Qeq_bool_iff. reflexivity.
Qed.

Lemma key_eqb_eq (a b : Key) : key_eqb a b = true <-> a = b.
Proof.
  destruct a as [[ax ay] az], b as [[bx by_] bz]. cbn.
  rewrite !andb_true_iff, !same_eq. split.
  - intros [[-> ->] ->]. reflexivity.
  - intros H. injection H as -> -> ->. auto.
Qed.

Lemma has_In (g : Grid) (k : Key) : has g k = true <-> In k (map fst g).
Proof.
  unfold has. rewrite existsb_exists, in_map_iff. split.
  - intros (e & He & Hk). apply key_eqb_eq in Hk. eauto.
  - intros (e & Hk & He). exists e. split; [exact He | apply key_eqb_eq, Hk].
Qed.

Lemma memKey_In (l : list Key) (k : Key) : memKey l k = true <-> In k l.
Proof.
  unfold memKey. rewrite existsb_exists. split.
  - intros (e & He & Hk). apply key_eqb_eq in Hk. congruence.
  - intros H. exists k. split; [exact H | apply key_eqb_eq; reflexivity].
Qed.

Lemma nodupKeys_NoDup (l : list Key) : nodupKeys l = true -> NoDup l.
Proof.
  induction l as [|k l IH]; cbn; [constructor|].
  rewrite andb_true_iff, negb_true_iff. intros [Hk Hl]. constructor; [|auto].
  rewrite <- memKey_In, Hk. discriminate.
Qed.

Lemma solidCubeb_sound grid a b c n :
  solidCubeb grid a b c n = true -> SolidCube grid a b c n.
Proof.
  unfold solidCubeb, SolidCube. rewrite !andb_true_iff, !forallb_forall.
  intros [[Hn H1] H2]. split; [apply nodupKeys_NoDup, Hn|].
  intros k. split; intros H; apply memKey_In; auto.
Qed.

Lemma ofZ_inj (i j : Z) : ofZ i = ofZ j -> i = j.
Proof.
  unfold ofZ. intros H.
  assert (H' : Q2Qc (inject_Z i) = Q2Qc (inject_Z j)) by congruence.
  apply (f_equal this) in H'. unfold Q2Qc in H'. cbn [this] in H'.
  exact (proj1 (inject_Z_injective i j) (proj1 (Qred_eq_iff _ _) H')).
Qed.

Lemma ofZ_succ (i : Z) : (ofZ i + ofZ 1)%js = ofZ (i + 1).
Proof. unfold ofZ. cbn [add lift2]. js2q. rewrite inject_Z_plus. reflexivity. Qed.

Lemma ofZ_pred (i : Z) : (ofZ i - ofZ 1)%js = ofZ (i - 1).
Proof.
  unfold ofZ. cbn [sub lift2]. js2q.
  replace (i - 1)%Z with (i + - 1)%Z by lia. rewrite inject_Z_plus.
  change (inject_Z (-1)) with (- inject_Z 1)%Q. reflexivity.
Qed.

Lemma in_axis (a : Z) (n : nat) (x : num) :
  In x (axis a n) <-> exists i, x = ofZ i /\ (a <= i < a + Z.of_nat n)%Z.
Proof.
  unfold axis. rewrite in_map_iff. split.
  - intros (k & <- & Hk). apply in_seq in Hk. eexists. split; [reflexivity|lia].
  - intros (i & -> & Hi). exists (Z.to_nat (i - a)). split.
    + f_equal. lia.
    + apply in_seq. lia.
Qed.

Lemma in_axis_ofZ (a : Z) (n : nat) (i : Z) :
  In (ofZ i) (axis a n) <-> (a <= i < a + Z.of_nat n)%Z.
Proof.
  rewrite in_axis. split.
  - intros (j & Hj & Hr). apply ofZ_inj in Hj. lia.
  - intros H. eauto.
Qed.

Lemma in_cube a b c n (x y z : num) :
  In (x, y, z) (cubeKeys a b c n) <->
  In x (axis a n) /\ In y (axis b n) /\ In z (axis c n).
Proof. unfold cubeKeys. rewrite !in_prod_iff. tauto. Qed.

Lemma inner_ofZ (a : Z) (n : nat) (i : Z) :
  inner a n (ofZ i) = true <-> (a + 1 <= i < a + 1 + Z.of_nat (n - 2))%Z.
Proof.
  unfold inner. rewrite <- in_axis_ofZ, existsb_exists. split.
  - intros (x & Hx & Hs). apply same_eq in Hs. congruence.
  - intros H. exists (ofZ i). split; [exact H | apply same_eq; reflexivity].
Qed.

(** *** The boundary test on a solid cube *)

Lemma exposed_cube grid a b c n k :
  SolidCube grid a b c n -> In k (cubeKeys a b c n) ->
  exposed grid k = negb (interiorb a b c n k).
Proof.
  intros [_ Hkeys] Hk. destruct k as [[x y] z].
  apply in_cube in Hk. destruct Hk as (Hx & Hy & Hz).
  apply in_axis in Hx, Hy, Hz.
  destruct Hx as (i & -> & Hi), Hy as (j & -> & Hj), Hz as (l & -> & Hl).
  assert (Hhas : forall i' j' l',
             has grid (ofZ i', ofZ j', ofZ l') = true <->
             (a <= i' < a + Z.of_nat n)%Z /\ (b <= j' < b + Z.of_nat n)%Z /\
             (c <= l' < c + Z.of_nat n)%Z).
  { intros i' j' l'. rewrite has_In, Hkeys, in_cube, !in_axis_ofZ. tauto. }
  apply eq_true_iff_eq. unfold exposed, neighbors, interiorb.
  rewrite !ofZ_succ, !ofZ_pred. cbn [existsb].
  rewrite negb_true_iff, !orb_true_iff, !negb_true_iff, andb_false_iff, andb_false_iff.
  rewrite <- !not_true_iff_false, !Hhas, !inner_ofZ. lia.
Qed.

(** *** Counting *)

Lemma filter_length_perm {A} (f : A -> bool) (l l' : list A) :
  Permutation l l' -> List.length (filter f l) = List.length (filter f l').
Proof.
  induction 1 as [|a l l' _ IH|a b l|l l' l'' _ IH1 _ IH2]; cbn.
  - reflexivity.
  - destruct (f a); cbn; congruence.
  - destruct (f a), (f b); reflexivity.
  - congruence.
Qed.

Lemma filter_length_negb {A} (f : A -> bool) (l : list A) :
  (List.length (filter (fun a => negb (f a)) l) + List.length (filter f l)
   = List.length l)%nat.
Proof.
  induction l as [|a l IH]; cbn; [reflexivity|].
  destruct (f a); cbn; lia.
Qed.

Lemma filter_length_prod {A B} (f : A -> bool) (g : B -> bool) (l : list A) (l' : list B) :
  List.length (filter (fun ab => f (fst ab) && g (snd ab)) (list_prod l l'))
  = (List.length (filter f l) * List.length (filter g l'))%nat.
Proof.
  induction l as [|a l IH]; cbn [list_prod filter]; [reflexivity|].
  rewrite filter_app, length_app, IH, filter_map_swap, length_map. cbn [fst snd].
  destruct (f a); cbn [andb List.length].
  - reflexivity.
  - rewrite filter_false. reflexivity.
Qed.

Lemma axis_split (a : Z) (n : nat) :
  (2 <= n)%nat ->
  axis a n = ofZ a :: axis (a + 1) (n - 2) ++ [ofZ (a + Z.of_nat (n - 1))].
Proof.
  intros Hn. unfold axis.
  replace n with (1 + (n - 2) + 1)%nat at 1 by lia.
  rewrite !seq_app, !map_app. cbn [seq map app]. f_equal; [f_equal; lia|].
  f_equal.
  - change (0 + 1)%nat with 1%nat.
    rewrite <- seq_shift, map_map. apply map_ext. intros i. f_equal. lia.
  - f_equal. f_equal. lia.
Qed.

Lemma inner_count (a : Z) (n : nat) :
  (2 <= n)%nat -> List.length (filter (inner a n) (axis a n)) = (n - 2)%nat.
Proof.
  intros Hn. rewrite (axis_split a n Hn). cbn [filter].
  assert (H0 : inner a n (ofZ a) = false).
  { apply not_true_iff_false. rewrite inner_ofZ. lia. }
  assert (H1 : inner a n (ofZ (a + Z.of_nat (n - 1))) = false).
  { apply not_true_iff_false. rewrite inner_ofZ. lia. }
  rewrite H0, filter_app. cbn [filter]. rewrite H1, app_nil_r.
  rewrite forallb_filter_id.
  - unfold axis. rewrite length_map, length_seq. reflexivity.
  - apply forallb_forall. intros x Hx. apply in_axis in Hx.
    destruct Hx as (i & -> & Hi). apply inner_ofZ. lia.
Qed.

Lemma interior_count a b c n :
  (2 <= n)%nat ->
  List.length (filter (interiorb a b c n) (cubeKeys a b c n))
  = ((n - 2) * (n - 2) * (n - 2))%nat.
Proof.
  intros Hn. unfold cubeKeys.
  rewrite (filter_ext (interiorb a b c n)
             (fun k => (fun xy => inner a n (fst xy) && inner b n (snd xy)) (fst k)
                       && inner c n (snd k))).
  - rewrite (filter_length_prod
               (fun xy => inner a n (fst xy) && inner b n (snd xy)) (inner c n)).
    rewrite (filter_length_prod (inner a n) (inner b n)).
    rewrite !inner_count by exact Hn. reflexivity.
  - intros [[x y] z]. reflexivity.
Qed.

Lemma cube_length a b c n : List.length (cubeKeys a b c n) = (n * n * n)%nat.
Proof.
  unfold cubeKeys, axis, Key.
  rewrite !length_prod, !length_map, !length_seq. reflexivity.
Qed.

Lemma NoDup_axis a n : NoDup (axis a n).
Proof.
  unfold axis. apply Finite.Injective_map_NoDup; [|apply seq_NoDup].
  intros i j H. apply ofZ_inj in H. lia.
Qed.

Lemma NoDup_list_prod {A B} (l : list A) (l' : list B) :
  NoDup l -> NoDup l' -> NoDup (list_prod l l').
Proof.
  intros Hl Hl'. induction Hl as [|a l Ha Hl IH]; cbn [list_prod]; [constructor|].
  apply NoDup_app.
  - apply Finite.Injective_map_NoDup; [|exact Hl']. intros u v H. congruence.
  - exact IH.
  - intros [u v] H1 H2. apply in_map_iff in H1. destruct H1 as (v' & Hv & _).
    injection Hv as <- <-. apply in_prod_iff in H2. tauto.
Qed.

Lemma NoDup_cube a b c n : NoDup (cubeKeys a b c n).
Proof. unfold cubeKeys. repeat apply NoDup_list_prod; apply NoDup_axis. Qed.

Lemma kept_count grid a b c n :
  (2 <= n)%nat -> SolidCube grid a b c n ->
  (List.length (kept grid) + (n - 2) * (n - 2) * (n - 2) = n * n * n)%nat.
Proof.
  intros Hn Hc.
  assert (Hperm : Permutation (map fst grid) (cubeKeys a b c n)).
  { destruct Hc as [Hnd Hkeys]. apply NoDup_Permutation; [exact Hnd | apply NoDup_cube | exact Hkeys]. }
  assert (H1 : List.length (kept grid)
               = List.length (filter (exposed grid) (map fst grid))).
  { unfold kept. rewrite filter_map_swap, length_map. reflexivity. }
  rewrite H1, (filter_length_perm _ _ _ Hperm).
  rewrite (filter_ext_in (exposed grid) (fun k => negb (interiorb a b c n k))).
  - rewrite <- (interior_count a b c n Hn), <- (cube_length a b c n).
    apply filter_length_negb.
  - intros k Hk. apply (exposed_cube grid a b c n k Hc Hk).
Qed.

(** *** The sweep of a solid shape fills a cube *)

Lemma steps_S (lo : Qc) (n : nat) :
  steps lo (S n) = Fin lo :: steps (lo + vsq)%Qc n.
Proof.
  unfold steps. cbn [seq map]. f_equal.
  - js2q. change (inject_Z (Z.of_nat 0)) with 0%Q. ring.
  - rewrite <- seq_shift, map_map. apply map_ext. intros k. js2q.
    rewrite this_ofnat_S. ring.
Qed.

Lemma forLoop_steps {S : Type} (hi : Qc) (cond : num -> bool) (body : num -> S -> S) :
  (forall x, cond x = true -> (x <=? Fin hi)%js = true) ->
  forall (n : nat) (lo : Qc) (s : S),
    Forall (fun x => cond x = true) (steps lo n) ->
    cond (Fin (lo + Q2Qc (inject_Z (Z.of_nat n)) * vsq)%Qc) = false ->
    forLoop (tripCount (Fin lo) (Fin hi)) cond (Fin lo) body s
    = fold_left (fun s x => body x s) (steps lo n) s.
Proof.
  intros Hcond. induction n as [|n IH]; intros lo s Hall Hend.
  - assert (Hlo : cond (Fin lo) = false).
    { rewrite <- Hend. f_equal. js2q. change (inject_Z (Z.of_nat 0)) with 0%Q. ring. }
    cbn [steps seq map fold_left].
    destruct (tripCount (Fin lo) (Fin hi)); cbn [forLoop]; [reflexivity|].
    rewrite Hlo. reflexivity.
  - rewrite steps_S in *. inversion Hall as [|x l Hx Hrest]; subst.
    assert (Hle := Hcond _ Hx). js2q.
    rewrite (tripCount_step lo hi Hle). cbn [forLoop fold_left]. rewrite Hx.
    change (Fin lo + voxelSize)%js with (Fin (lo + vsq)%Qc).
    apply IH; [exact Hrest|].
    rewrite <- Hend. f_equal. js2q. rewrite this_ofnat_S. ring.
Qed.

Lemma set_keys (g : Grid) (k : Key) (v : Vec) :
  (forall k', In k' (map fst (set g k v)) <-> In k' (map fst g) \/ k' = k) /\
  (NoDup (map fst g) -> NoDup (map fst (set g k v))).
Proof.
  induction g as [|[k0 v0] g [IH1 IH2]]; cbn [set map fst].
  - split; [intros k'; cbn; intuition congruence|]. intros _. repeat constructor. auto.
  - destruct (key_eqb k0 k) eqn:E; cbn [map fst].
    + apply key_eqb_eq in E. subst k0. split; [|auto].
      intros k'. cbn. intuition.
    + split.
      * intros k'. cbn. rewrite IH1. tauto.
      * intros Hnd. inversion Hnd as [|a l Hnot Hnd']; subst. constructor; [|auto].
        rewrite IH1. intros [H|H]; [contradiction|].
        subst k0. rewrite (proj2 (key_eqb_eq k k) eq_refl) in E. discriminate.
Qed.

(** Keys of a fold of grid updates, from the keys each round adds. *)
Lemma fold_keys {A : Type} (f : A -> Grid -> Grid) (P : A -> Key -> Prop) (l : list A) :
  (forall a g, NoDup (map fst g) -> NoDup (map fst (f a g))) ->
  (forall a g k, In k (map fst (f a g)) <-> In k (map fst g) \/ P a k) ->
  forall g,
    (NoDup (map fst g) -> NoDup (map fst (fold_left (fun g a => f a g) l g))) /\
    (forall k, In k (map fst (fold_left (fun g a => f a g) l g)) <->
               In k (map fst g) \/ exists a, In a l /\ P a k).
Proof.
  intros Hnd Hin. induction l as [|a l IH]; intros g; cbn [fold_left].
  - split; [auto|]. intros k. split; [auto|]. intros [H|(a & [] & _)]. exact H.
  - destruct (IH (f a g)) as [IH1 IH2]. split; [auto|].
    intros k. rewrite IH2, Hin. split.
    + intros [[H|H]|(b & Hb & HP)]; [auto | right; exists a; cbn; auto
                                      | right; exists b; cbn; auto].
    + intros [H|(b & [Hb|Hb] & HP)]; [auto | subst b; auto | right; eauto].
Qed.

Section SolidSweep.
Variable center : Vec.
Variables wq hq dq : Qc.
Variables nx ny nz : nat.

Let dims : Dimensions := mkDimensions (Fin wq) (Fin hq) (Fin dq).

Hypothesis Hy : Forall (fun y => (y <? Fin hq)%js = true) (steps 0 ny).
Hypothesis Hy_end :
  (Fin (0 + Q2Qc (inject_Z (Z.of_nat ny)) * vsq)%Qc <? Fin hq)%js = false.
Hypothesis Hx : Forall (fun x => (x <=? Fin wq)%js = true) (steps (- wq) nx).
Hypothesis Hx_end :
  (Fin (- wq + Q2Qc (inject_Z (Z.of_nat nx)) * vsq)%Qc <=? Fin wq)%js = false.
Hypothesis Hz : Forall (fun z => (z <=? Fin dq)%js = true) (steps (- dq) nz).
Hypothesis Hz_end :
  (Fin (- dq + Q2Qc (inject_Z (Z.of_nat nz)) * vsq)%Qc <=? Fin dq)%js = false.

Lemma cell_solid x y z g :
  cell center dims solid None x y z g
  = set g (keyOf x y z)
        (mkVec (vx center + x)%js (vy center + y)%js (vz center + z)%js).
Proof. reflexivity. Qed.

Lemma inner_loop_keys x y g :
  let g' := forLoop (tripCount (Fin (- dq)) (Fin dq)) (fun z => (z <=? Fin dq)%js)
                    (Fin (- dq)) (fun z => cell center dims solid None x y z) g in
  (NoDup (map fst g) -> NoDup (map fst g')) /\
  (forall k, In k (map fst g') <->
             In k (map fst g) \/ exists z, In z (steps (- dq) nz) /\ k = keyOf x y z).
Proof.
  cbv zeta. rewrite (forLoop_steps dq _ _ (fun _ H => H) nz (- dq)%Qc g Hz Hz_end).
  apply (fold_keys (fun z g => cell center dims solid None x y z g)
                   (fun z k => k = keyOf x y z)).
  - intros z g0. rewrite cell_solid. apply set_keys.
  - intros z g0 k. rewrite cell_solid. apply set_keys.
Qed.

Lemma middle_loop_keys y g :
  let g' := forLoop (tripCount (Fin (- wq)) (Fin wq)) (fun x => (x <=? Fin wq)%js)
                    (Fin (- wq))
                    (fun x =>
                       forLoop (tripCount (Fin (- dq)) (Fin dq))
                               (fun z => (z <=? Fin dq)%js) (Fin (- dq))
                               (fun z => cell center dims solid None x y z)) g in
  (NoDup (map fst g) -> NoDup (map fst g')) /\
  (forall k, In k (map fst g') <->
             In k (map fst g) \/
             exists x, In x (steps (- wq) nx) /\
                       exists z, In z (steps (- dq) nz) /\ k = keyOf x y z).
Proof.
  cbv zeta. rewrite (forLoop_steps wq _ _ (fun _ H => H) nx (- wq)%Qc g Hx Hx_end).
  apply (fold_keys
           (fun x g => forLoop (tripCount (Fin (- dq)) (Fin dq))
                               (fun z => (z <=? Fin dq)%js) (Fin (- dq))
                               (fun z => cell center dims solid None x y z) g)
           (fun x k => exists z, In z (steps (- dq) nz) /\ k = keyOf x y z)).
  - intros x g0. apply (inner_loop_keys x y g0).
  - intros x g0 k. apply (inner_loop_keys x y g0).
Qed.

Lemma ltb_leb (a b : num) : (a <? b)%js = true -> (a <=? b)%js = true.
Proof.
  destruct a as [|a], b as [|b]; try discriminate. intros H. js2q. lra.
Qed.

Lemma sweep_solid_keys :
  let g := sweep center dims solid None in
  NoDup (map fst g) /\
  (forall k, In k (map fst g) <->
             exists y, In y (steps 0 ny) /\
             exists x, In x (steps (- wq) nx) /\
             exists z, In z (steps (- dq) nz) /\ k = keyOf x y z).
Proof.
  cbv zeta. unfold sweep, sweepWith. cbn [w h d dims neg lift1].
  change (ofZ 0) with (Fin 0%Qc).
  rewrite (forLoop_steps (S := Grid) hq _ _ (fun x => ltb_leb x (Fin hq)) ny 0%Qc []
             Hy Hy_end).
  destruct (fold_keys
              (fun y g =>
                 forLoop (tripCount (Fin (- wq)) (Fin wq)) (fun x => (x <=? Fin wq)%js)
                   (Fin (- wq))
                   (fun x =>
                      forLoop (tripCount (Fin (- dq)) (Fin dq))
                              (fun z => (z <=? Fin dq)%js) (Fin (- dq))
                              (fun z => cell center dims solid None x y z)) g)
              (fun y k => exists x, In x (steps (- wq) nx) /\
                                    exists z, In z (steps (- dq) nz) /\ k = keyOf x y z)
              (steps 0 ny)
              (fun y g0 => proj1 (middle_loop_keys y g0))
              (fun y g0 => proj2 (middle_loop_keys y g0)) []) as [H1 H2].
  split; [apply H1; constructor|].
  intros k. rewrite H2. cbn [map In]. tauto.
Qed.

End SolidSweep.

(** *** The cube dimensions *)

Lemma cubeDimensions_val (n : nat) :
  cubeDimensions n
  = mkDimensions (Fin (halfq n)) (Fin (heightq n)) (Fin (halfq n)).
Proof. reflexivity. Qed.

Lemma this_vsq : (this vsq == 5 # 4)%Q.
Proof. reflexivity. Qed.

Lemma this_halfq (n : nat) :
  (this (halfq n) == (5 # 8) * inject_Z (Z.of_nat (n - 1)))%Q.
Proof.
  unfold halfq. rewrite this_div, this_mul, !this_Q2Qc, this_vsq.
  change (inject_Z 2) with 2%Q. field.
Qed.

Lemma this_heightq (n : nat) :
  (this (heightq n) == (5 # 4) * inject_Z (Z.of_nat n))%Q.
Proof. unfold heightq. rewrite this_mul, this_Q2Qc, this_vsq. reflexivity. Qed.

Lemma in_steps (lo : Qc) (n : nat) (x : num) :
  In x (steps lo n) <->
  exists k, (k < n)%nat /\ x = Fin (lo + Q2Qc (inject_Z (Z.of_nat k)) * vsq)%Qc.
Proof.
  unfold steps. rewrite in_map_iff. split.
  - intros (k & <- & Hk). apply in_seq in Hk. exists k. split; [lia | reflexivity].
  - intros (k & Hk & ->). exists k. split; [reflexivity | apply in_seq; lia].
Qed.

Lemma inject_nat_lt (k n : nat) :
  (k < n)%nat -> (inject_Z (Z.of_nat k) + 1 <= inject_Z (Z.of_nat n))%Q.
Proof.
  intros H. change 1%Q with (inject_Z 1). rewrite <- inject_Z_plus, <- Zle_Qle. lia.
Qed.

Lemma inject_nat_pred (n : nat) :
  (1 <= n)%nat -> (inject_Z (Z.of_nat (n - 1)) == inject_Z (Z.of_nat n) - 1)%Q.
Proof.
  intros H. replace (Z.of_nat (n - 1)) with (Z.of_nat n + - 1)%Z by lia.
  rewrite inject_Z_plus. reflexivity.
Qed.

Section CubeLoops.
Variable n : nat.
Hypothesis Hn : (1 <= n)%nat.

Lemma cube_y_rounds :
  Forall (fun y => (y <? Fin (heightq n))%js = true) (steps 0 n).
Proof.
  apply Forall_forall. intros y Hy. apply in_steps in Hy.
  destruct Hy as (k & Hk & ->). js2q. rewrite this_heightq, this_vsq.
  assert (H := inject_nat_lt k n Hk). change (this 0%Qc) with 0%Q. lra.
Qed.

Lemma cube_y_end :
  (Fin (0 + Q2Qc (inject_Z (Z.of_nat n)) * vsq)%Qc <? Fin (heightq n))%js = false.
Proof. js2q. rewrite this_heightq, this_vsq. change (this 0%Qc) with 0%Q. lra. Qed.

Lemma cube_x_rounds :
  Forall (fun x => (x <=? Fin (halfq n))%js = true) (steps (- halfq n) n).
Proof.
  apply Forall_forall. intros x Hx. apply in_steps in Hx.
  destruct Hx as (k & Hk & ->). js2q. rewrite this_halfq, this_vsq.
  assert (H := inject_nat_lt k n Hk). assert (H' := inject_nat_pred n Hn).
  rewrite H'. lra.
Qed.

Lemma cube_x_end :
  (Fin (- halfq n + Q2Qc (inject_Z (Z.of_nat n)) * vsq)%Qc <=? Fin (halfq n))%js = false.
Proof.
  js2q. rewrite this_halfq, this_vsq. rewrite (inject_nat_pred n Hn). lra.
Qed.

Lemma div_voxelSize (a : Qc) : (Fin a / voxelSize)%js = Fin (a / vsq).
Proof. reflexivity. Qed.

Lemma round_y (k : nat) :
  Math_round (Fin (0 + Q2Qc (inject_Z (Z.of_nat k)) * vsq)%Qc / voxelSize)%js
  = ofZ (0 + Z.of_nat k).
Proof.
  rewrite div_voxelSize. unfold Math_round. f_equal.
  assert (Hval : (this ((0 + Q2Qc (inject_Z (Z.of_nat k)) * vsq) / vsq)%Qc
                  == inject_Z (Z.of_nat k))%Q).
  { rewrite this_div, this_add, this_mul, this_vsq, !this_Q2Qc.
    change (this 0%Qc) with 0%Q. field. }
  cbn [Z.add]. apply Qfloor_unique.
  - rewrite Hval. lra.
  - rewrite inject_Z_plus, Hval. change (inject_Z 1) with 1%Q. lra.
Qed.

Lemma round_x (k : nat) :
  Math_round (Fin (- halfq n + Q2Qc (inject_Z (Z.of_nat k)) * vsq)%Qc / voxelSize)%js
  = ofZ (cubeOrigin n + Z.of_nat k).
Proof.
  rewrite div_voxelSize. unfold Math_round, cubeOrigin. f_equal.
  set (m := (Z.of_nat (n - 1) / 2)%Z).
  set (r := (Z.of_nat (n - 1) mod 2)%Z).
  assert (Hdm : Z.of_nat (n - 1) = (2 * m + r)%Z) by (apply Z.div_mod; lia).
  assert (Hr : (0 <= r < 2)%Z) by (apply Z.mod_pos_bound; lia).
  assert (Hq : (inject_Z (Z.of_nat (n - 1)) == 2 * inject_Z m + inject_Z r)%Q).
  { rewrite Hdm, inject_Z_plus, inject_Z_mult. reflexivity. }
  assert (Hr0 : (0 <= inject_Z r)%Q)
    by (change 0%Q with (inject_Z 0); rewrite <- Zle_Qle; lia).
  assert (Hr1 : (inject_Z r <= 1)%Q)
    by (change 1%Q with (inject_Z 1); rewrite <- Zle_Qle; lia).
  assert (Hval : (this ((- halfq n + Q2Qc (inject_Z (Z.of_nat k)) * vsq) / vsq)%Qc
                  == inject_Z (Z.of_nat k) - inject_Z m - inject_Z r * (1 # 2))%Q).
  { rewrite this_div, this_add, this_opp, this_mul, this_vsq, !this_Q2Qc, this_halfq, Hq.
    field. }
  assert (Hk : (inject_Z (- m + Z.of_nat k) == inject_Z (Z.of_nat k) - inject_Z m)%Q).
  { rewrite inject_Z_plus, inject_Z_opp. ring. }
  apply Qfloor_unique.
  - rewrite Hval, Hk. lra.
  - rewrite inject_Z_plus, Hval, Hk. change (inject_Z 1) with 1%Q. lra.
Qed.

(** The sweep of the everywhere-true shape over the cube dimensions fills
    exactly the cube of side [n]. *)
Lemma sweep_cube (center : Vec) :
  SolidCube (sweep center (cubeDimensions n) solid None)
            (cubeOrigin n) 0 (cubeOrigin n) n.
Proof.
  rewrite cubeDimensions_val.
  destruct (sweep_solid_keys center (halfq n) (heightq n) (halfq n) n n n
              cube_y_rounds cube_y_end cube_x_rounds cube_x_end
              cube_x_rounds cube_x_end) as [Hnd Hkeys].
  split; [exact Hnd|]. intros k. rewrite Hkeys. split.
  - intros (y & Hy & x & Hx & z & Hz & ->).
    apply in_steps in Hy, Hx, Hz.
    destruct Hy as (j & Hj & ->), Hx as (i & Hi & ->), Hz as (l & Hl & ->).
    unfold keyOf. rewrite round_y, !round_x.
    apply in_cube. rewrite !in_axis_ofZ. lia.
  - destruct k as [[kx ky] kz]. rewrite in_cube, !in_axis.
    intros ((i & -> & Hi) & (j & -> & Hj) & (l & -> & Hl)).
    exists (Fin (0 + Q2Qc (inject_Z (Z.of_nat (Z.to_nat j))) * vsq)%Qc).
    split; [apply in_steps; exists (Z.to_nat j); split; [lia | reflexivity]|].
    exists (Fin (- halfq n
                 + Q2Qc (inject_Z (Z.of_nat (Z.to_nat (i - cubeOrigin n)))) * vsq)%Qc).
    split; [apply in_steps; eexists; split; [|reflexivity]; lia|].
    exists (Fin (- halfq n
                 + Q2Qc (inject_Z (Z.of_nat (Z.to_nat (l - cubeOrigin n)))) * vsq)%Qc).
    split; [apply in_steps; eexists; split; [|reflexivity]; lia|].
    unfold keyOf. rewrite round_y, !round_x. repeat f_equal; lia.
Qed.

End CubeLoops.

Lemma interior_inner a b c n k :
  interiorb a b c n k = true <-> In k (interiorKeys a b c n).
Proof.
  destruct k as [[x y] z]. unfold interiorKeys, interiorb, inner.
  rewrite in_cube, !andb_true_iff, !existsb_exists. split.
  - intros [[(x' & Hx & Ex) (y' & Hy & Ey)] (z' & Hz & Ez)].
    apply same_eq in Ex, Ey, Ez. subst. auto.
  - intros (Hx & Hy & Hz). repeat split; eexists; (split; [eassumption|]);
      apply same_eq; reflexivity.
Qed.

Lemma boundary_count grid a b c n :
  (3 <= n)%nat -> SolidCube grid a b c n ->
  List.length (boundary grid) = (6 * (n - 2) ^ 2 + 12 * (n - 2) + 8)%nat.
Proof.
  intros Hn Hc. unfold boundary. rewrite length_map.
  assert (H := kept_count grid a b c n ltac:(lia) Hc).
  replace n with (S (S (n - 2))) in H at 4 5 6 by lia.
  cbn [Nat.pow]. nia.
Qed.

(** The generator on a solid cube of any side [n >= 3]: one mesh, with the
    surface count. *)
Lemma lobe_cube_count (center : Vec) (parent : list InstancedMesh) (n : nat) :
  (3 <= n)%nat ->
  exists mesh,
    createSteppedLobe center (cubeDimensions n) solid parent None = parent ++ [mesh] /\
    count mesh = (6 * (n - 2) ^ 2 + 12 * (n - 2) + 8)%nat.
Proof.
  intros Hn. eexists. split; [reflexivity|]. cbn [count].
  apply (boundary_count _ (cubeOrigin n) 0 (cubeOrigin n) n Hn).
  apply sweep_cube. lia.
Qed.

(** C2.  Shell extraction on a solid cube.  When the grid holds exactly
    the cells of a cube of side [n >= 3], the boundary extraction keeps
    [6 (n-2)^2 + 12 (n-2) + 8] voxels; an entry is kept exactly when one of
    its six axis neighbours is not a key of the grid; and the entries
    dropped are exactly the cells strictly inside the cube. *)
Theorem shell_extraction (grid : Grid) (a b c : Z) (n : nat) :
  (3 <= n)%nat -> SolidCube grid a b c n ->
  List.length (boundary grid) = (6 * (n - 2) ^ 2 + 12 * (n - 2) + 8)%nat /\
  (forall e, In e grid ->
     (In e (kept grid) <->
      exists nKey, In nKey (neighbors (fst e)) /\ ~ In nKey (map fst grid))) /\
  (forall e, In e grid ->
     (In (fst e) (interiorKeys a b c n) <-> ~ In e (kept grid))).
Proof.
  intros Hn Hc. split; [|split].
  - apply (boundary_count grid a b c n Hn Hc).
  - intros e He. unfold kept. rewrite filter_In. unfold exposed.
    rewrite existsb_exists. split.
    + intros (_ & nKey & Hin & Hno). exists nKey. split; [exact Hin|].
      rewrite <- has_In. apply negb_true_iff in Hno. congruence.
    + intros (nKey & Hin & Hno). split; [exact He|]. exists nKey.
      split; [exact Hin|]. apply negb_true_iff, not_true_iff_false.
      rewrite has_In. exact Hno.
  - intros e He.
    assert (Hcube : In (fst e) (cubeKeys a b c n)).
    { destruct Hc as [_ Hkeys]. apply Hkeys, in_map, He. }
    unfold kept. rewrite filter_In, (exposed_cube grid a b c n (fst e) Hc Hcube).
    rewrite <- interior_inner. destruct (interiorb a b c n (fst e)); cbn; split.
    + intros _ [_ H]. discriminate.
    + reflexivity.
    + discriminate.
    + intros H. exfalso. apply H. auto.
Qed.

Lemma shell_extraction_witness :
  List.length (boundary (sweep vzero cube3 (fun _ _ _ => true) None)) = 26%nat.
Proof.
  refine (proj1 (shell_extraction _ (-1) 0 (-1) 3 _ _)).
  - lia.
  - apply solidCubeb_sound. vm_compute. reflexivity.
Defined.

(** The same count through the whole generator: sides 3, 4 and 5. *)
Example lobe_cube_counts :
  map count (createSteppedLobe vzero cube3 (fun _ _ _ => true) [] None) = [26%nat] /\
  map count (createSteppedLobe vzero
               (mkDimensions (lit 15 8) (ofZ 5) (lit 15 8))
               (fun _ _ _ => true) [] None) = [56%nat] /\
  map count (createSteppedLobe vzero
               (mkDimensions (lit 5 2) (lit 25 4) (lit 5 2))
               (fun _ _ _ => true) [] None) = [98%nat].
Proof. repeat split; vm_compute; reflexivity. Qed.

Lemma createSteppedLobe_adds_one_mesh center dims shapeFn parent exclusionFn :
  exists mesh,
    createSteppedLobe center dims shapeFn parent exclusionFn = parent ++ [mesh] /\
    count mesh = List.length (boundary (sweep center dims shapeFn exclusionFn)).
Proof. eexists. split; reflexivity. Qed.


End LobeFacts.

(* ================================================================= *)
(** ** Symmetry helpers *)

Module NeedleFacts.
Import Needle.
Section WithMath.
Context {M : MathLib}.

Lemma add_listOf x y z color type st :
  listOf (channel type) (add x y z color type st)
  = listOf (channel type) st
      ++ [mkVoxel (Math_round x) (Math_round y) (Math_round z) color] /\
  forall ch, ch <> channel type -> listOf ch (add x y z color type st) = listOf ch st.
Proof.
  unfold add, channel.
  destruct (type =? "glass")%string;
    [|destruct (type =? "rotating")%string;
      [|destruct (type =? "rotatingGlass")%string]];
    (split; [reflexivity|]); intros [] H; try reflexivity; contradiction.
Qed.

Lemma emit_listOf x y z color type (angles : list num) : forall st,
  let st' := fold_left
               (fun st angle =>
                  let p := rotatePoint x z angle in
                  add (px p) y (pz p) color type st) angles st in
  listOf (channel type) st'
  = listOf (channel type) st ++ map (fun a => voxelAt x y z a color) angles /\
  forall ch, ch <> channel type -> listOf ch st' = listOf ch st.
Proof.
  induction angles as [|a angles IH]; intros st; cbn [fold_left map].
  - rewrite app_nil_r. auto.
  - destruct (IH (add (px (rotatePoint x z a)) y (pz (rotatePoint x z a)) color type st))
      as [H1 H2].
    destruct (add_listOf (px (rotatePoint x z a)) y (pz (rotatePoint x z a)) color type st)
      as [A1 A2].
    cbv zeta in *. split.
    + rewrite H1, A1, <- app_assoc. reflexivity.
    + intros ch Hch. rewrite (H2 ch Hch). apply A2, Hch.
Qed.

End WithMath.

(** C9.  [rotatePoint] is the rotation of the plane by the angle, given in
    degrees and converted to radians: [x' = x cos a - z sin a],
    [z' = x sin a + z cos a].  [addTri] appends to the list of its type
    exactly the three voxels of the point turned by 0, 120 and 240 degrees,
    [addHex] the six voxels of the point turned by 0, 60, ..., 300 degrees,
    in that order, each with the given colour; a voxel sits at the turned
    point rounded to the integer grid, as [add] places it.  The other
    lists are left as they were. *)
Theorem symmetry_helpers {M : MathLib} :
  (forall x z angleDeg,
      rotatePoint x z angleDeg
      = mkXZ (x * Math_cos (radians angleDeg) - z * Math_sin (radians angleDeg))%js
             (x * Math_sin (radians angleDeg) + z * Math_cos (radians angleDeg))%js) /\
  (forall x y z color type st,
      listOf (channel type) (addTri x y z color type st)
      = listOf (channel type) st
          ++ [voxelAt x y z (ofZ 0) color; voxelAt x y z (ofZ 120) color;
              voxelAt x y z (ofZ 240) color] /\
      forall ch, ch <> channel type ->
                 listOf ch (addTri x y z color type st) = listOf ch st) /\
  (forall x y z color type st,
      listOf (channel type) (addHex x y z color type st)
      = listOf (channel type) st
          ++ [voxelAt x y z (ofZ 0) color; voxelAt x y z (ofZ 60) color;
              voxelAt x y z (ofZ 120) color; voxelAt x y z (ofZ 180) color;
              voxelAt x y z (ofZ 240) color; voxelAt x y z (ofZ 300) color] /\
      forall ch, ch <> channel type ->
                 listOf ch (addHex x y z color type st) = listOf ch st).
Proof.
  split; [reflexivity|]. split.
  - intros x y z color type st.
    apply (emit_listOf x y z color type [ofZ 0; ofZ 120; ofZ 240] st).
  - intros x y z color type st.
    assert (Hangles : map (fun i => (ofZ i * ofZ 60)%js) [0; 1; 2; 3; 4; 5]%Z
                      = [ofZ 0; ofZ 60; ofZ 120; ofZ 180; ofZ 240; ofZ 300])
      by num_eq.
    destruct (emit_listOf x y z color type
                (map (fun i => (ofZ i * ofZ 60)%js) [0; 1; 2; 3; 4; 5]%Z) st)
      as [H1 H2].
    cbv zeta in H1, H2. rewrite Hangles in H1 at 2.
    unfold addHex. cbn [map fold_left] in *. split; [exact H1 | exact H2].
Qed.

(** At 0 degrees the polynomial sine and cosine are exact: the first voxel
    of a triad is the point itself, on the grid. *)
Example addTri_first_voxel :
  hd_error (solidVoxels (addTri (M := polyMath) (lit 14 10) (ofZ 7) (ofZ 0)
                                "#FFFFFF" "solid" empty))
  = Some (mkVoxel (ofZ 1) (ofZ 7) (ofZ 0) "#FFFFFF").
Proof. vm_compute. repeat f_equal; apply Qc_ext; reflexivity. Qed.

End NeedleFacts.

(* ################################################################# *)
(** * Further properties of the code *)

(* ================================================================= *)
(** ** Frame times *)

Module FrameFacts.



Lemma frameWithin_Fin (hi : Qc) (d : num) :
  frameWithin (Fin hi) d = true ->
  exists q, d = Fin q /\ (0 <= this q)%Q /\ (this q <= this hi)%Q.
Proof.
  unfold frameWithin. intros H. apply andb_prop in H. destruct H as [H1 H2].
  destruct d as [|q]; [discriminate|]. exists q. unfold ofZ in H1. js2q. qlit.
  repeat split; lra.
Qed.


End FrameFacts.

(* ================================================================= *)
(** ** Train: stops, dwell, camera *)

Module ShuttleFacts.
Import Train TrainFacts TrainCamera Shuttle FrameFacts.

Lemma update_stop_cases d t :
  state (update d t) = STOPPED ->
  (state t = STOPPED /\ progress (update d t) = progress t /\
   direction (update d t) = direction t) \/
  (progress (update d t) = maxProgress /\ direction (update d t) = ofZ (-1)) \/
  (progress (update d t) = minProgress /\ direction (update d t) = ofZ 1).
Proof.
  unfold update. destruct (isNaN d).
  - intros H. left. auto.
  - destruct (state t) eqn:Hst.
    + match goal with |- context [updateCarPositions ?u] =>
        destruct (updateCarPositions_fields u) as (-> & _ & -> & -> & _) end.
      destruct (_ >=? maxProgress)%js; [cbn; auto|].
      destruct (_ <=? minProgress)%js; cbn; [auto|].
      discriminate.
    + cbn. auto.
Qed.

Lemma stopped_run ds : forall t,
  (state t = STOPPED -> AtStop t) ->
  state (run ds t) = STOPPED -> AtStop (run ds t).
Proof.
  induction ds as [|d ds IH]; intros t Ht; cbn [run]; [exact Ht|].
  apply IH. intros Hs.
  destruct (update_stop_cases d t Hs) as [(H1 & H2 & H3)|[H|H]].
  - unfold AtStop. rewrite H2, H3. apply Ht, H1.
  - left. exact H.
  - right. exact H.
Qed.

(** X1.  A train is STOPPED only at one of its two stops.  After the
    constructor and any number of [update] calls, with any configuration
    and any frame times (NaN included), a train whose state is STOPPED
    stands either at [maxProgress] with direction [-1] or at [minProgress]
    with direction [1]: it never halts between the stops, and when it
    halts it already points away from the end it reached. *)
Theorem stopped_only_at_a_stop (cfg : Config.Config) (c : option Curve) (deltas : list num) :
  let t := run deltas (constructor cfg c) in
  state t = STOPPED ->
  (progress t = maxProgress /\ direction t = ofZ (-1)) \/
  (progress t = minProgress /\ direction t = ofZ 1).
Proof.
  intros t. apply stopped_run.
  destruct (unplaced_fields cfg c) as (_ & _ & _ & H). rewrite H. discriminate.
Qed.

Lemma stopped_only_at_a_stop_witness :
  let t := run (frames 27 (ofZ 1)) (constructor redConfig (Some straightCurve)) in
  (progress t = maxProgress /\ direction t = ofZ (-1)) \/
  (progress t = minProgress /\ direction t = ofZ 1).
Proof.
  apply (stopped_only_at_a_stop redConfig (Some straightCurve) (frames 27 (ofZ 1))).
  vm_compute. reflexivity.
Defined.






Lemma sink (sp d : Qc) (Hk : (0 < this sp * this d)%Q) :
  forall (m : nat) t p,
    state t = MOVING -> progress t = Fin p -> speed t = Fin sp ->
    direction t = ofZ (-1) ->
    (83 # 2000 < this p)%Q -> (this p <= 99 # 100)%Q ->
    (this p - (83 # 2000) <= inject_Z (Z.of_nat m) * ((this sp * this d) * (1 # 10)))%Q ->
    exists n : nat,
      (forall j, (j < n)%nat ->
                 let u := run (frames j (Fin d)) t in
                 state u = MOVING /\ (minProgress <? progress u)%js = true) /\
      let t1 := run (frames n (Fin d)) t in
      progress t1 = minProgress /\ direction t1 = ofZ 1 /\
      state t1 = STOPPED /\ stopTimer t1 = STOP_DURATION /\ speed t1 = Fin sp.
Proof.
  set (k := (this sp * this d)%Q) in *.
  induction m as [|m IH]; intros t p Hst Hp Hs Hd Hlo Hhi Hm.
  - exfalso. change (inject_Z (Z.of_nat 0)) with 0%Q in Hm. lra.
  - assert (Hstep := this_stepP_backward p sp d). fold k in Hstep.
    assert (Habove : state t = MOVING /\ (minProgress <? progress t)%js = true).
    { split; [exact Hst|]. rewrite Hp, minProgress_val. unfold lit. js2q. lra. }
    destruct (Qlt_le_dec (83 # 2000) (this (stepP p (Q2Qc (inject_Z (-1))) sp d))) as [Hgt|Hle].
    + destruct (update_moving_between t p _ sp d Hst Hp Hs Hd) as (Hp' & Hd' & Hst' & _ & Hs');
        [lra | lra |].
      destruct (IH (update (Fin d) t) _ Hst' Hp' Hs' Hd') as (n & Hbefore & Hat);
        [lra | lra | |].
      * rewrite Nat2Z.inj_succ, <- Z.add_1_r, inject_Z_plus in Hm.
        change (inject_Z 1) with 1%Q in Hm. lra.
      * exists (S n). split.
        -- intros [|j] Hj; [exact Habove|]. rewrite run_frames_S. apply Hbefore. lia.
        -- rewrite run_frames_S. exact Hat.
    + exists 1%nat. split.
      * intros j Hj. replace j with 0%nat by lia. exact Habove.
      * cbn [frames repeat run]. apply (update_moving_bottom t p _ sp d Hst Hp Hs Hd Hle).
Qed.

(** X3.  The turn at the lower stop.  A moving train with direction [-1],
    a positive speed and a progress above [minProgress] reaches
    [minProgress] after finitely many frames of any constant positive
    frame time, staying MOVING and above it until then; there the
    direction becomes [1], the state STOPPED and the timer
    [STOP_DURATION].  After finitely many more frames it is MOVING again
    at [minProgress] with direction [1], and the next update raises the
    progress.  The blue train of index.js starts this way. *)
Theorem lower_stop_turnaround (t : Train) (p sp d : Qc) :
  state t = MOVING -> progress t = Fin p -> speed t = Fin sp ->
  direction t = ofZ (-1) ->
  (minProgress <? Fin p)%js = true -> (Fin p <=? maxProgress)%js = true ->
  (0 < sp)%Qc -> (0 < d)%Qc ->
  exists n m : nat,
    let t1 := run (frames n (Fin d)) t in
    let t2 := run (frames m (Fin d)) t1 in
    (forall j, (j < n)%nat ->
               let u := run (frames j (Fin d)) t in
               state u = MOVING /\ (minProgress <? progress u)%js = true) /\
    progress t1 = minProgress /\ direction t1 = ofZ 1 /\
    state t1 = STOPPED /\ stopTimer t1 = STOP_DURATION /\
    state t2 = MOVING /\ progress t2 = minProgress /\ direction t2 = ofZ 1 /\
    (progress t2 <? progress (update (Fin d) t2))%js = true.
Proof.
  intros Hst Hp Hs Hd Hlo Hhi Hsp Hd0.
  rewrite minProgress_val in Hlo. rewrite maxProgress_val in Hhi. unfold lit in Hlo, Hhi.
  js2q.
  assert (Hsp' : (0 < this sp)%Q) by exact Hsp.
  assert (Hd' : (0 < this d)%Q) by exact Hd0.
  assert (Hk : (0 < this sp * this d)%Q) by (apply Qmult_lt_0_compat; assumption).
  destruct (archimedes (this p - (83 # 2000)) (this sp * this d * (1 # 10))) as [m1 Hm1];
    [lra|].
  destruct (sink sp d Hk m1 t p Hst Hp Hs Hd Hlo Hhi Hm1) as (n & Hbefore & Hat).
  cbv zeta in Hat. destruct Hat as (Hp1 & Hd1 & Hst1 & Ht1 & Hs1).
  set (t1 := run (frames n (Fin d)) t) in *.
  destruct (archimedes 5 (this d) Hd') as [m2 Hm2].
  destruct (dwell d Hd' m2 t1 (Q2Qc (inject_Z 5)) Hst1 Ht1) as (m & _ & Hleave).
  { rewrite this_Q2Qc, Nat2Z.inj_succ, <- Z.add_1_r, inject_Z_plus.
    change (inject_Z 5) with 5%Q. change (inject_Z 1) with 1%Q. lra. }
  cbv zeta in Hleave. destruct Hleave as (Hst2 & Hp2 & Hd2 & Hs2).
  exists n, m. cbv zeta. fold t1.
  set (t2 := run (frames m (Fin d)) t1) in *.
  rewrite Hp1 in Hp2. rewrite Hd1 in Hd2. rewrite Hs1 in Hs2.
  repeat split; trivial.
  - apply Hbefore, H.
  - apply Hbefore, H.
  - rewrite minProgress_val in Hp2. unfold lit in Hp2.
    assert (Hstep := this_stepP_forward (Q2Qc (83 # 2000)) sp d).
    set (k := (this sp * this d)%Q) in *.
    assert (Hmin : (this (Q2Qc (83 # 2000)) == 83 # 2000)%Q) by reflexivity.
    destruct (Qlt_le_dec (this (stepP (Q2Qc (83 # 2000)) (Q2Qc (inject_Z 1)) sp d)) (99 # 100))
      as [Hlt|Hge].
    + destruct (update_moving_between t2 _ _ sp d Hst2 Hp2 Hs2 Hd2) as (Hp' & _);
        [lra | lra |].
      rewrite Hp', Hp2. js2q. lra.
    + destruct (update_moving_top t2 _ _ sp d Hst2 Hp2 Hs2 Hd2 Hge) as (Hp' & _).
      rewrite Hp', Hp2, maxProgress_val. unfold lit. js2q. lra.
Qed.

Lemma lower_stop_turnaround_witness :
  exists n m : nat,
    let d := lit 1 60 in
    let t1 := run (frames n d) (constructor blueConfig (Some straightCurve)) in
    let t2 := run (frames m d) t1 in
    progress t1 = minProgress /\ direction t1 = ofZ 1 /\ state t1 = STOPPED /\
    state t2 = MOVING /\ (progress t2 <? progress (update d t2))%js = true.
Proof.
  destruct (lower_stop_turnaround (constructor blueConfig (Some straightCurve))
              (Q2Qc (95 # 100)) (Q2Qc (32 # 100)) (Q2Qc (1 # 60)))
    as (n & m & _ & Hp1 & Hd1 & Hst1 & _ & Hst2 & _ & _ & Hup).
  - reflexivity.
  - num_eq.
  - num_eq.
  - num_eq.
  - vm_compute. reflexivity.
  - vm_compute. reflexivity.
  - reflexivity.
  - reflexivity.
  - exists n, m. cbv zeta. repeat split; trivial.
Defined.

Lemma eqb_true (a b : Qc) : eqb (Fin a) (Fin b) = true -> a = b.
Proof.
  unfold eqb, cmp, Qccompare. intros H. apply Qc_ext, Qeq_alt.
  destruct (this a ?= this b)%Q; congruence.
Qed.

Lemma eqb_refl (a : Qc) : eqb (Fin a) (Fin a) = true.
Proof.
  unfold eqb, cmp, Qccompare.
  assert (H : (this a ?= this a)%Q = Eq) by (apply Qeq_alt; reflexivity).
  rewrite H. reflexivity.
Qed.

(** X4.  [getCameraTarget] rides the car that leads the motion.  For a
    train made by the constructor and any number of updates the car at
    [leadCarIndex] exists (the branch that returns the zero vectors is
    never taken), the camera position is that car's position plus its
    rotated local offset, the index is 0 exactly when the direction is 1,
    and the chosen car is the one with the greatest curve parameter when
    the direction is 1 and the one with the least otherwise. *)
Theorem camera_rides_the_leading_car (applyQuaternion : Object3D -> Vec -> Vec)
    (cfg : Config.Config) (c : option Curve) (deltas : list num) :
  let t := run deltas (constructor cfg c) in
  exists car,
    nth_error (cars t) (leadCarIndex t) = Some car /\
    Camera.position (getCameraTarget applyQuaternion t)
    = vadd (position (group car))
           (toVector3 (applyQuaternion (group car)
              (mkVec (ofZ 0) (lit 22 10)
                     (if eqb (direction t) (ofZ 1) then lit 28 10 else lit (-28) 10)))) /\
    (leadCarIndex t = 0%nat <-> direction t = ofZ 1) /\
    (direction t = ofZ 1 ->
     Forall (fun other => (slotT t other <=? slotT t car)%js = true) (cars t)) /\
    (direction t <> ofZ 1 ->
     Forall (fun other => (slotT t car <=? slotT t other)%js = true) (cars t)).
Proof.
  intros t.
  assert (Ht : Inv t) by apply Inv_run, Inv_constructor.
  destruct Ht as (Hp & _ & Hd & Ho).
  destruct (cars t) as [|c0 [|c1 [|c2 [|c3 [|c4 rest]]]]] eqn:Hcars; try discriminate.
  cbn [map] in Ho. unfold slotOffsets in Ho. cbn [map] in Ho.
  injection Ho as Ho0 Ho1 Ho2 Ho3.
  destruct (progress t) as [|p] eqn:Hpt; [discriminate|].
  destruct (direction t) as [|dir] eqn:Hdt; [discriminate|].
  assert (Hlead : leadCarIndex t = 0%nat <-> Fin dir = ofZ 1).
  { unfold leadCarIndex. rewrite Hdt. unfold ofZ. split.
    - destruct (eqb _ _) eqn:E; [|discriminate]. intros _. f_equal. apply eqb_true, E.
    - intros H. injection H as ->. rewrite eqb_refl. reflexivity. }
  assert (Hslot : forall car o, offset car = Fin o -> slotT t car = Fin (p - o)).
  { intros car o H. unfold slotT. rewrite Hpt, H. reflexivity. }
  assert (H0 : exists o, offset c0 = Fin o /\ (this o == 0)%Q)
    by (rewrite Ho0; eexists; split; [reflexivity|vm_compute; reflexivity]).
  assert (H1 : exists o, offset c1 = Fin o /\ (this o == 21 # 2000)%Q)
    by (rewrite Ho1; eexists; split; [reflexivity|vm_compute; reflexivity]).
  assert (H2 : exists o, offset c2 = Fin o /\ (this o == 42 # 2000)%Q)
    by (rewrite Ho2; eexists; split; [reflexivity|vm_compute; reflexivity]).
  assert (H3 : exists o, offset c3 = Fin o /\ (this o == 63 # 2000)%Q)
    by (rewrite Ho3; eexists; split; [reflexivity|vm_compute; reflexivity]).
  destruct H0 as (o0 & E0 & V0), H1 as (o1 & E1 & V1), H2 as (o2 & E2 & V2),
           H3 as (o3 & E3 & V3).
  unfold getCameraTarget, leadCarIndex. rewrite Hcars, Hdt.
  destruct (eqb (Fin dir) (ofZ 1)) eqn:E.
  - exists c0. cbn [nth_error Camera.position]. repeat split.
    + intros _. apply Hlead. unfold leadCarIndex. rewrite Hdt, E. reflexivity.
    + intros _. repeat first [apply Forall_nil | apply Forall_cons];
        rewrite ?(Hslot _ _ E0), ?(Hslot _ _ E1), ?(Hslot _ _ E2), ?(Hslot _ _ E3);
        js2q; lra.
    + intros Hne. exfalso. apply Hne. apply Hlead. unfold leadCarIndex.
      rewrite Hdt, E. reflexivity.
  - exists c3. cbn [nth_error Camera.position]. repeat split.
    + discriminate.
    + intros H. apply Hlead in H. unfold leadCarIndex in H. rewrite Hdt, E in H.
      discriminate.
    + intros H. apply Hlead in H. unfold leadCarIndex in H. rewrite Hdt, E in H.
      discriminate.
    + intros _. repeat first [apply Forall_nil | apply Forall_cons];
        rewrite ?(Hslot _ _ E0), ?(Hslot _ _ E1), ?(Hslot _ _ E2), ?(Hslot _ _ E3);
        js2q; lra.
Qed.

Lemma update_no_curve d t :
  curve t = None -> curve (update d t) = None /\ cars (update d t) = cars t.
Proof.
  intros Hc. unfold update. destruct (isNaN d); [auto|].
  destruct (state t); [|cbn; auto].
  unfold updateCarPositions.
  destruct (_ >=? maxProgress)%js; [cbn; rewrite Hc; cbn; auto|].
  destruct (_ <=? minProgress)%js; cbn; rewrite Hc; cbn; auto.
Qed.

(** X5.  A train without a curve.  When the constructor gets no curve,
    [updateCarPositions] returns at once in the constructor and in every
    update: after any frames the train still has no curve and its four
    cars are the cars as built, at the origin with the identity
    orientation. *)
Theorem train_without_curve_keeps_cars (cfg : Config.Config) (deltas : list num) :
  let t := run deltas (constructor cfg None) in
  curve t = None /\
  cars t = buildCars 0 carTypes /\
  Forall (fun car => group car = newGroup) (cars t).
Proof.
  cbv zeta.
  assert (H : forall t, curve t = None -> curve (run deltas t) = None /\
                                          cars (run deltas t) = cars t).
  { induction deltas as [|d ds IH]; intros t Hc; cbn [run]; [auto|].
    destruct (update_no_curve d t Hc) as (Hc' & Hcars).
    destruct (IH _ Hc') as (H1 & H2). split; [exact H1|]. congruence. }
  destruct (H (constructor cfg None) eq_refl) as (H1 & H2).
  split; [exact H1|]. rewrite H2. split; [reflexivity|].
  cbn. repeat constructor.
Qed.

End ShuttleFacts.

(* ================================================================= *)
(** ** TrafficCar, HeroTaxi and TrafficSystem over runs *)

Module FollowerLoopFacts.
Import FollowerFacts Followers FrameFacts TrafficSystem.

Lemma traffic_update_fields delta car :
  TrafficCar.progress (fst (TrafficCar.update delta car)) = TrafficCar.advance delta car /\
  TrafficCar.speed (fst (TrafficCar.update delta car)) = TrafficCar.speed car /\
  TrafficCar.curve (fst (TrafficCar.update delta car)) = TrafficCar.curve car.
Proof.
  unfold TrafficCar.update. destruct (TrafficCar.curve car) eqn:E; cbn; rewrite ?E; auto.
Qed.

Lemma taxi_update_fields delta taxi :
  HeroTaxi.progress (fst (HeroTaxi.update delta taxi)) = HeroTaxi.advance delta taxi /\
  HeroTaxi.speed (fst (HeroTaxi.update delta taxi)) = HeroTaxi.speed taxi /\
  HeroTaxi.curve (fst (HeroTaxi.update delta taxi)) = HeroTaxi.curve taxi.
Proof.
  unfold HeroTaxi.update. destruct (HeroTaxi.curve taxi) eqn:E; cbn; rewrite ?E; auto.
Qed.

Lemma traffic_advance_unit (car : TrafficCar.TrafficCar) (p sp delta : Qc) :
  TrafficCar.progress car = Fin p -> TrafficCar.speed car = Fin sp ->
  (0 <= this p)%Q -> (this p <= 1)%Q ->
  (0 <= this sp * this delta * (5 # 10000))%Q ->
  (this sp * this delta * (5 # 10000) <= 1)%Q ->
  exists q, TrafficCar.advance (Fin delta) car = Fin q /\
            (0 <= this q)%Q /\ (this q <= 1)%Q.
Proof.
  intros Hp Hs H1 H2 H3 H4.
  unfold TrafficCar.advance, TrafficCar.LOOP_SPEED_SCALE, lit. rewrite Hp, Hs.
  cbn [add mul lift2].
  assert (Hw := wrap_short_frame p (sp * delta * Q2Qc (5 # 10000))%Qc H1 H2).
  rewrite !this_mul, this_Q2Qc in Hw. specialize (Hw H3 H4).
  destruct (Fin _ >? ofZ 1)%js; cbn [sub lift2 ofZ] in *;
    (eexists; split; [reflexivity|]); apply inUnit_Fin, Hw.
Qed.

Lemma taxi_advance_unit (taxi : HeroTaxi.HeroTaxi) (p sp delta : Qc) :
  HeroTaxi.progress taxi = Fin p -> HeroTaxi.speed taxi = Fin sp ->
  (0 <= this p)%Q -> (this p <= 1)%Q ->
  (0 <= this sp * this delta * (5 # 10000))%Q ->
  (this sp * this delta * (5 # 10000) <= 1)%Q ->
  exists q, HeroTaxi.advance (Fin delta) taxi = Fin q /\
            (0 <= this q)%Q /\ (this q <= 1)%Q.
Proof.
  intros Hp Hs H1 H2 H3 H4.
  unfold HeroTaxi.advance, HeroTaxi.LOOP_SPEED_SCALE, lit. rewrite Hp, Hs.
  cbn [add mul lift2].
  assert (Hw := wrap_short_frame p (sp * delta * Q2Qc (5 # 10000))%Qc H1 H2).
  rewrite !this_mul, this_Q2Qc in Hw. specialize (Hw H3 H4).
  destruct (Fin _ >? ofZ 1)%js; cbn [sub lift2 ofZ] in *;
    (eexists; split; [reflexivity|]); apply inUnit_Fin, Hw.
Qed.

(** X6.  TrafficCar at frames of at most 33 seconds.  For every car of
    the traffic loop (start [i / 20], speed 60) and every run whose frame
    times lie in [[0, 33]], the progress stays in [[0, 1]] and every
    parameter handed to [getPointAt], the look-ahead included, lies in
    [[0, 1]]. *)
Theorem traffic_car_samples_in_range (c : option Curve) (i : nat) (deltas : list num) :
  (i < TrafficSystem.NUM_CARS)%nat ->
  Forall (fun d => frameWithin (ofZ 33) d = true) deltas ->
  let car := TrafficCar.systemCar c (Z.of_nat i) in
  inUnit (TrafficCar.progress (fst (trafficRun deltas car))) = true /\
  Forall (fun t => inUnit t = true) (snd (trafficRun deltas car)).
Proof.
  intros Hi Hall. cbv zeta.
  assert (Hgen : forall car p,
             TrafficCar.progress car = Fin p -> TrafficCar.speed car = ofZ 60 ->
             (0 <= this p)%Q -> (this p <= 1)%Q ->
             inUnit (TrafficCar.progress (fst (trafficRun deltas car))) = true /\
             Forall (fun t => inUnit t = true) (snd (trafficRun deltas car))).
  { induction Hall as [|d ds Hd _ IH]; intros car p Hp Hs H0 H1.
    - cbn. rewrite Hp. split; [apply inUnit_Fin; auto|constructor].
    - destruct (frameWithin_Fin _ d Hd) as (q & -> & Hq0 & Hq1).
      unfold ofZ in Hq1, Hs. rewrite this_Q2Qc in Hq1.
      assert (Hsp : (this (Q2Qc (inject_Z 60)) == 60)%Q) by reflexivity.
      assert (Ha : (0 <= this (Q2Qc (inject_Z 60)) * this q * (5 # 10000))%Q)
        by (rewrite Hsp; qlit; lra).
      assert (Hb : (this (Q2Qc (inject_Z 60)) * this q * (5 # 10000) <= 1)%Q)
        by (rewrite Hsp; qlit; lra).
      assert (Hsamples := traffic_short_frame car p _ q Hp Hs H0 H1 Ha Hb).
      destruct (traffic_advance_unit car p _ q Hp Hs H0 H1 Ha Hb) as (p' & Hp' & Hp0 & Hp1).
      destruct (traffic_update_fields (Fin q) car) as (Hf1 & Hf2 & _).
      cbn [trafficRun].
      destruct (TrafficCar.update (Fin q) car) as [car1 ts] eqn:Hu. cbn [fst snd] in *.
      assert (Hs1 : TrafficCar.speed car1 = ofZ 60) by (rewrite Hf2; exact Hs).
      assert (Hp1' : TrafficCar.progress car1 = Fin p') by congruence.
      destruct (IH car1 p' Hp1' Hs1 Hp0 Hp1) as (IH1 & IH2).
      destruct (trafficRun ds car1) as [car2 ts']. cbn [fst snd] in *.
      split; [exact IH1|]. apply Forall_app. auto. }
  assert (Hstart : exists p, TrafficCar.progress (TrafficCar.systemCar c (Z.of_nat i)) = Fin p /\
                             (0 <= this p)%Q /\ (this p <= 1)%Q).
  { unfold TrafficCar.systemCar, TrafficCar.constructor. cbn [TrafficCar.progress].
    unfold div, ofZ. replace (qzero (Q2Qc (inject_Z 20))) with false by reflexivity.
    eexists. split; [reflexivity|].
    rewrite LobeFacts.this_div, !this_Q2Qc.
    unfold TrafficSystem.NUM_CARS in Hi.
    assert (H20 : (inject_Z (Z.of_nat i) <= 20)%Q).
    { change 20%Q with (inject_Z 20). rewrite <- Zle_Qle. lia. }
    assert (H00 : (0 <= inject_Z (Z.of_nat i))%Q).
    { change 0%Q with (inject_Z 0). rewrite <- Zle_Qle. lia. }
    change (inject_Z 20) with 20%Q. split.
    - apply Qle_shift_div_l; lra.
    - apply Qle_shift_div_r; lra. }
  destruct Hstart as (p & Hp & H0 & H1).
  apply (Hgen _ p); trivial.
Qed.

Lemma traffic_car_samples_in_range_witness :
  let car := TrafficCar.systemCar (Some Train.straightCurve) 19 in
  inUnit (TrafficCar.progress (fst (trafficRun [ofZ 33; lit 1 60] car))) = true /\
  Forall (fun t => inUnit t = true) (snd (trafficRun [ofZ 33; lit 1 60] car)).
Proof.
  apply (traffic_car_samples_in_range (Some Train.straightCurve) 19 [ofZ 33; lit 1 60]).
  - unfold TrafficSystem.NUM_CARS. lia.
  - repeat constructor.
Defined.

(** X7.  HeroTaxi at frames of at most 28 seconds.  From the taxi as
    constructed (progress 0.85, speed 70), at frame times in [[0, 28]]
    the progress stays in [[0, 1]] and so does every parameter handed to
    [getPointAt]. *)
Theorem taxi_samples_in_range (c : option Curve) (deltas : list num) :
  Forall (fun d => frameWithin (ofZ 28) d = true) deltas ->
  let taxi := HeroTaxi.constructor c in
  inUnit (HeroTaxi.progress (fst (taxiRun deltas taxi))) = true /\
  Forall (fun t => inUnit t = true) (snd (taxiRun deltas taxi)).
Proof.
  intros Hall. cbv zeta.
  assert (Hgen : forall taxi p,
             HeroTaxi.progress taxi = Fin p -> HeroTaxi.speed taxi = ofZ 70 ->
             (0 <= this p)%Q -> (this p <= 1)%Q ->
             inUnit (HeroTaxi.progress (fst (taxiRun deltas taxi))) = true /\
             Forall (fun t => inUnit t = true) (snd (taxiRun deltas taxi))).
  { induction Hall as [|d ds Hd _ IH]; intros taxi p Hp Hs H0 H1.
    - cbn. rewrite Hp. split; [apply inUnit_Fin; auto|constructor].
    - destruct (frameWithin_Fin _ d Hd) as (q & -> & Hq0 & Hq1).
      unfold ofZ in Hq1, Hs. rewrite this_Q2Qc in Hq1.
      assert (Hsp : (this (Q2Qc (inject_Z 70)) == 70)%Q) by reflexivity.
      assert (Ha : (0 <= this (Q2Qc (inject_Z 70)) * this q * (5 # 10000))%Q)
        by (rewrite Hsp; qlit; lra).
      assert (Hb : (this (Q2Qc (inject_Z 70)) * this q * (5 # 10000) <= 1)%Q)
        by (rewrite Hsp; qlit; lra).
      assert (Hsamples := taxi_short_frame taxi p _ q Hp Hs H0 H1 Ha Hb).
      destruct (taxi_advance_unit taxi p _ q Hp Hs H0 H1 Ha Hb) as (p' & Hp' & Hp0 & Hp1).
      destruct (taxi_update_fields (Fin q) taxi) as (Hf1 & Hf2 & _).
      cbn [taxiRun].
      destruct (HeroTaxi.update (Fin q) taxi) as [taxi1 ts] eqn:Hu. cbn [fst snd] in *.
      assert (Hs1 : HeroTaxi.speed taxi1 = ofZ 70) by (rewrite Hf2; exact Hs).
      assert (Hp1' : HeroTaxi.progress taxi1 = Fin p') by congruence.
      destruct (IH taxi1 p' Hp1' Hs1 Hp0 Hp1) as (IH1 & IH2).
      destruct (taxiRun ds taxi1) as [taxi2 ts']. cbn [fst snd] in *.
      split; [exact IH1|]. apply Forall_app. auto. }
  apply (Hgen _ (Q2Qc (85 # 100))); try reflexivity.
  - vm_compute. discriminate.
  - vm_compute. discriminate.
Qed.

Lemma taxi_samples_in_range_witness :
  let taxi := HeroTaxi.constructor (Some Train.straightCurve) in
  inUnit (HeroTaxi.progress (fst (taxiRun [ofZ 28; lit 1 60; ofZ 0] taxi))) = true /\
  Forall (fun t => inUnit t = true) (snd (taxiRun [ofZ 28; lit 1 60; ofZ 0] taxi)).
Proof.
  apply (taxi_samples_in_range (Some Train.straightCurve) [ofZ 28; lit 1 60; ofZ 0]).
  repeat constructor.
Defined.











End FollowerLoopFacts.

(* ================================================================= *)
(** ** NewsHelicopter in manual flight *)

Module HelicopterManualFacts.
Import NewsHelicopter.

Section WithMath.
Context {M : MathLib}.

Lemma controls_floor (pad : Gamepad) (d : Qc) (h : NewsHelicopter) :
  (vy (groupPosition h) <? ofZ 2)%js = true -> (0 <= this d)%Q ->
  (vy (groupPosition (updateHelicopterControls (Some pad) (Fin d) h)) <? ofZ 2)%js = false.
Proof.
  intros Hfloor Hd. unfold updateHelicopterControls.
  cbn [groupPosition velocity]. rewrite Hfloor. cbn [andb].
  unfold addScaledVector at 1. unfold vplus at 1, vscale at 1. cbn [vy].
  match goal with |- context [if (?n <? ofZ 0)%js then _ else _] =>
    destruct n as [|v] eqn:Hn end.
  - cbn [vy vx vz vscale vplus]. reflexivity.
  - destruct (Fin v <? ofZ 0)%js eqn:E; cbn [vy vx vz vscale vplus]; unfold ofZ in *;
      cbn [add mul lift2]; js2q; qlit.
    + lra.
    + assert (0 <= this v * this d)%Q by (apply Qmult_le_0_compat; lra). lra.
Qed.


Lemma deadzone_Fin (a : Qc) : exists q, deadzone (Fin a) = Fin q.
Proof. unfold deadzone, ofZ. destruct (_ >? _)%js; eauto. Qed.

Lemma controls_floor_finite (pad : Gamepad) (d a0 a1 b v0 : Qc) (h : NewsHelicopter) :
  (vy (groupPosition h) <? ofZ 2)%js = true -> (0 <= this d)%Q ->
  axes0 pad = Fin a0 -> axes1 pad = Fin a1 -> button7 pad = Fin b ->
  vy (velocity h) = Fin v0 ->
  exists q, vy (groupPosition (updateHelicopterControls (Some pad) (Fin d) h)) = Fin q /\
            (2 <= this q)%Q.
Proof.
  intros Hfloor Hd H0 H1 Hb Hv.
  assert (Hnot := controls_floor pad d h Hfloor Hd).
  revert Hnot. unfold updateHelicopterControls.
  cbn [groupPosition velocity]. rewrite Hfloor. cbn [andb].
  unfold addScaledVector, vplus, vscale, applyYaw. cbn [vy vx vz].
  rewrite H0, H1, Hb, Hv.
  destruct (deadzone_Fin a0) as (s0 & ->). destruct (deadzone_Fin a1) as (s1 & ->).
  unfold ACCEL, GRAVITY, LIFT, ofZ. cbn [add sub mul neg lift1 lift2].
  match goal with |- context [if ?c then _ else _] => destruct c end;
    cbn [vy add mul lift2]; intros Hnot; (eexists; split; [reflexivity|]);
    js2q; qlit; lra.
Qed.


Lemma clamp_tilt (v : num) :
  clamp v (- MAX_TILT)%js MAX_TILT = NaN \/
  exists c, clamp v (- MAX_TILT)%js MAX_TILT = Fin c /\
            (- (4 # 10) <= this c)%Q /\ (this c <= 4 # 10)%Q.
Proof.
  destruct v as [|v]; [left; reflexivity|]. right.
  unfold clamp, MAX_TILT, lit, Math_min, Math_max. cbn [neg lift1].
  destruct (Fin (Q2Qc (4 # 10)) <=? Fin v)%js eqn:E1;
    destruct (Fin (- Q2Qc (4 # 10)) >=? Fin _)%js eqn:E2;
    (eexists; split; [reflexivity|]); js2q; lra.
Qed.

Lemma lerp_tilt (r t : Qc) (v : num) (q : Qc) :
  (- (4 # 10) <= this r)%Q -> (this r <= 4 # 10)%Q ->
  (0 <= this t)%Q -> (this t <= 1)%Q ->
  lerp (Fin r) (clamp v (- MAX_TILT)%js MAX_TILT) (Fin t) = Fin q ->
  (- (4 # 10) <= this q)%Q /\ (this q <= 4 # 10)%Q.
Proof.
  intros Hr1 Hr2 Ht1 Ht2.
  destruct (clamp_tilt v) as [->|(c & -> & Hc1 & Hc2)]; [discriminate|].
  unfold lerp, ofZ. cbn [add sub mul lift2]. intros H. injection H as <-.
  js2q. change (inject_Z 1) with 1%Q.
  assert (H1 : (0 <= (1 - this t) * (this r + (4 # 10)))%Q)
    by (apply Qmult_le_0_compat; lra).
  assert (H2 : (0 <= (1 - this t) * ((4 # 10) - this r))%Q)
    by (apply Qmult_le_0_compat; lra).
  assert (H3 : (0 <= this t * (this c + (4 # 10)))%Q)
    by (apply Qmult_le_0_compat; lra).
  assert (H4 : (0 <= this t * ((4 # 10) - this c))%Q)
    by (apply Qmult_le_0_compat; lra).
  split; lra.
Qed.

Lemma controls_tilt gp delta h :
  exists pitch roll : num,
    bodyRotationX (updateHelicopterControls gp delta h)
    = lerp (bodyRotationX h) (clamp pitch (- MAX_TILT)%js MAX_TILT) (delta * ofZ 3)%js /\
    bodyRotationZ (updateHelicopterControls gp delta h)
    = lerp (bodyRotationZ h) (clamp roll (- MAX_TILT)%js MAX_TILT) (delta * ofZ 3)%js.
Proof.
  unfold updateHelicopterControls. destruct gp; cbn [bodyRotationX bodyRotationZ].
  all: eexists; eexists; split; reflexivity.
Qed.

End WithMath.

(** X10.  The hard floor of manual flight.  With a gamepad connected and
    a frame time that is not negative, a helicopter below altitude 2 at
    the start of the frame is not below 2 after it; when the stick and
    trigger values and the vertical velocity are finite the new altitude
    is a finite number at least 2. *)
Theorem manual_hard_floor {M : MathLib} (pad : Gamepad) (d : Qc) (h : NewsHelicopter) :
  isManual h = true ->
  (vy (groupPosition h) <? ofZ 2)%js = true -> (0 <= d)%Qc ->
  let h' := update (Some pad) (Fin d) h in
  (vy (groupPosition h') <? ofZ 2)%js = false /\
  (forall a0 a1 b v0 : Qc,
      axes0 pad = Fin a0 -> axes1 pad = Fin a1 -> button7 pad = Fin b ->
      vy (velocity h) = Fin v0 ->
      exists q, vy (groupPosition h') = Fin q /\ (Q2Qc 2 <= q)%Qc).
Proof.
  intros Hman Hfloor Hd. assert (Hd' : (0 <= this d)%Q) by exact Hd.
  cbv zeta. unfold update. rewrite Hman. split.
  - apply controls_floor; assumption.
  - intros a0 a1 b v0 H0 H1 Hb Hv.
    match goal with |- context [updateHelicopterControls _ _ ?g] =>
      destruct (controls_floor_finite pad d a0 a1 b v0 g Hfloor Hd' H0 H1 Hb Hv)
        as (q & Hq & Hq2) end.
    exists q. split; [exact Hq|]. unfold Qcle. rewrite this_Q2Qc. exact Hq2.
Qed.

Lemma manual_hard_floor_witness :
  let pad := mkGamepad (ofZ 0) (ofZ (-1)) (ofZ 0) (ofZ 0) in
  let h := mkNewsHelicopter vzero (mkVec (ofZ 5) (ofZ 1) (ofZ 5)) (ofZ 0) (ofZ 0) (ofZ 0)
             true (mkVec (ofZ 0) (ofZ (-30)) (ofZ 0)) (ofZ 0) (ofZ 20) (ofZ 20)
             (ofZ 0) (ofZ 0) None None in
  (vy (groupPosition (update (M := polyMath) (Some pad) (lit 1 60) h)) <? ofZ 2)%js = false.
Proof.
  refine (proj1 (manual_hard_floor (M := polyMath) _ (Q2Qc (1 # 60)) _ _ _ _));
    vm_compute; congruence.
Defined.

(** X11.  Banking stays within MAX_TILT.  In manual flight, with or
    without a gamepad, at a frame time of at most a third of a second, a
    body whose pitch and roll are within [MAX_TILT] keeps them within
    [MAX_TILT], whenever the new angles are numbers at all. *)
Theorem tilt_stays_within_MAX_TILT {M : MathLib} (gp : option Gamepad) (d : Qc)
    (h : NewsHelicopter) :
  isManual h = true ->
  (0 <= d)%Qc -> (d <= Q2Qc (1 # 3))%Qc ->
  (Math_abs (bodyRotationX h) <=? MAX_TILT)%js = true ->
  (Math_abs (bodyRotationZ h) <=? MAX_TILT)%js = true ->
  let h' := update gp (Fin d) h in
  (isNaN (bodyRotationX h') = false -> (Math_abs (bodyRotationX h') <=? MAX_TILT)%js = true) /\
  (isNaN (bodyRotationZ h') = false -> (Math_abs (bodyRotationZ h') <=? MAX_TILT)%js = true).
Proof.
  intros Hman Hd0 Hd1 Hx Hz. cbv zeta. unfold update. rewrite Hman.
  match goal with |- context [updateHelicopterControls _ _ ?g] =>
    destruct (controls_tilt gp (Fin d) g) as (pitch & roll & -> & ->) end.
  cbn [bodyRotationX bodyRotationZ].
  assert (Hd0' : (0 <= this d)%Q) by exact Hd0.
  assert (Hd1' : (this d <= 1 # 3)%Q) by (unfold Qcle in Hd1; rewrite this_Q2Qc in Hd1; exact Hd1).
  assert (Habs : forall r, (Math_abs r <=? MAX_TILT)%js = true ->
                 exists q, r = Fin q /\ (- (4 # 10) <= this q)%Q /\ (this q <= 4 # 10)%Q).
  { intros [|q]; [discriminate|]. unfold Math_abs, MAX_TILT, lit, ofZ. intros H.
    exists q. split; [reflexivity|].
    destruct (Fin q <? Fin (Q2Qc (inject_Z 0)))%js eqn:E; cbn [neg lift1] in H;
      js2q; qlit; lra. }
  assert (Hback : forall q, (- (4 # 10) <= this q)%Q -> (this q <= 4 # 10)%Q ->
                  (Math_abs (Fin q) <=? MAX_TILT)%js = true).
  { intros q H1 H2. unfold Math_abs, MAX_TILT, lit, ofZ.
    destruct (Fin q <? Fin (Q2Qc (inject_Z 0)))%js eqn:E; cbn [neg lift1];
      js2q; qlit; lra. }
  destruct (Habs _ Hx) as (rx & -> & Hx1 & Hx2).
  destruct (Habs _ Hz) as (rz & -> & Hz1 & Hz2).
  change (Fin d * ofZ 3)%js with (Fin (d * Q2Qc (inject_Z 3))).
  assert (Ht : (this (d * Q2Qc (inject_Z 3))%Qc == this d * 3)%Q)
    by (rewrite this_mul, this_Q2Qc; reflexivity).
  split.
  - destruct (lerp _ _ _) as [|q] eqn:E; [discriminate|]. intros _.
    apply lerp_tilt in E; try lra. apply Hback; tauto.
  - destruct (lerp _ _ _) as [|q] eqn:E; [discriminate|]. intros _.
    apply lerp_tilt in E; try lra. apply Hback; tauto.
Qed.

Lemma tilt_stays_within_MAX_TILT_witness :
  let pad := mkGamepad (ofZ 1) (ofZ (-1)) (ofZ 0) (ofZ 1) in
  let h := mkNewsHelicopter vzero (mkVec (ofZ 5) (ofZ 40) (ofZ 5)) (ofZ 0)
             (lit 4 10) (lit (-3) 10)
             true (mkVec (ofZ 90) (ofZ 0) (ofZ (-90))) (ofZ 0) (ofZ 20) (ofZ 20)
             (ofZ 0) (ofZ 0) None None in
  let h' := update (M := polyMath) (Some pad) (lit 1 3) h in
  (Math_abs (bodyRotationX h') <=? MAX_TILT)%js = true /\
  (Math_abs (bodyRotationZ h') <=? MAX_TILT)%js = true.
Proof.
  cbv zeta.
  match goal with |- (Math_abs (bodyRotationX (update (Some ?p) _ ?g)) <=? _)%js = true /\ _ =>
    destruct (tilt_stays_within_MAX_TILT (M := polyMath) (Some p) (Q2Qc (1 # 3)) g)
      as [H1 H2] end.
  - reflexivity.
  - vm_compute. discriminate.
  - vm_compute. discriminate.
  - vm_compute. reflexivity.
  - vm_compute. reflexivity.
  - split; [apply H1 | apply H2]; vm_compute; reflexivity.
Defined.

Lemma hover_step {M : MathLib} (d : Qc) (h : NewsHelicopter) (px py pz : Qc) :
  isManual h = true -> velocity h = vzero ->
  groupPosition h = mkVec (Fin px) (Fin py) (Fin pz) ->
  let h' := update None (Fin d) h in
  isManual h' = true /\ velocity h' = vzero /\ groupPosition h' = groupPosition h.
Proof.
  intros Hman Hv Hp. cbv zeta. unfold update. rewrite Hman.
  unfold updateHelicopterControls. cbn [isManual velocity groupPosition].
  rewrite Hv, Hp. split; [reflexivity|]. split.
  - unfold vscale, vzero, FRICTION, lit, ofZ. cbn [vx vy vz mul lift2].
    f_equal; js2q; qlit; ring.
  - unfold addScaledVector, vplus, vscale, vzero, ofZ. cbn [vx vy vz add mul lift2].
    f_equal; js2q; qlit; ring.
Qed.

(** X12.  Manual flight without a gamepad.  Gravity, lift and the floor
    are applied only inside the gamepad branch: a helicopter in manual
    mode at rest, at a finite position, stays exactly where it is with
    velocity 0 through any run of frames with finite frame times in which
    no gamepad is connected. *)
Theorem hover_without_gamepad {M : MathLib} (h : NewsHelicopter) (px py pz : Qc)
    (deltas : list num) :
  isManual h = true -> velocity h = vzero ->
  groupPosition h = mkVec (Fin px) (Fin py) (Fin pz) ->
  Forall (fun d => isNaN d = false) deltas ->
  Forall (fun h' => groupPosition h' = groupPosition h /\ velocity h' = vzero /\
                    isManual h' = true)
         (trace (map (fun d => (None, d)) deltas) h).
Proof.
  intros Hman Hv Hp Hall. revert h Hman Hv Hp.
  induction Hall as [|d ds Hd _ IH]; intros h Hman Hv Hp; cbn [map trace]; [constructor|].
  destruct d as [|d]; [discriminate|].
  destruct (hover_step d h px py pz Hman Hv Hp) as (H1 & H2 & H3).
  constructor; [auto|].
  rewrite <- H3. apply IH; trivial. rewrite H3. exact Hp.
Qed.

Lemma hover_without_gamepad_witness :
  let h := mkNewsHelicopter vzero (mkVec (ofZ 5) (ofZ 40) (ofZ 5)) (lit 1 2)
             (ofZ 0) (ofZ 0) true vzero (ofZ 0) (ofZ 20) (ofZ 20)
             (ofZ 0) (ofZ 0) None None in
  Forall (fun h' => groupPosition h' = groupPosition h /\ velocity h' = vzero /\
                    isManual h' = true)
         (trace (M := polyMath) (map (fun d => (None, d)) [lit 1 60; ofZ 2]) h).
Proof.
  cbv zeta.
  eapply (hover_without_gamepad (M := polyMath) _ (Q2Qc (inject_Z 5)) (Q2Qc (inject_Z 40))
            (Q2Qc (inject_Z 5))).
  - reflexivity.
  - reflexivity.
  - reflexivity.
  - repeat constructor.
Defined.

End HelicopterManualFacts.

(* ================================================================= *)
(** ** Elevator: camera and bounds of the motion *)

Module ElevatorMotionFacts.
Import Elevator ElevatorView ElevatorFacts.

(** X13.  The elevator camera.  After every update the position
    [getCameraTarget] returns is the position of the sound dummy, 3 above
    the floor of the car, and the point it looks at is 20 below the
    camera. *)
Theorem camera_rides_at_sound_source {M : MathLib} (delta random : num) (e : Elevator) :
  let e' := update delta random e in
  Camera.position (getCameraTarget e') = soundDummy e' /\
  vy (Camera.position (getCameraTarget e')) = (carGroupY e' + ofZ 3)%js /\
  vy (Camera.lookAt (getCameraTarget e'))
  = (vy (Camera.position (getCameraTarget e')) - ofZ 20)%js.
Proof.
  cbv zeta. unfold getCameraTarget, update.
  cbn [Camera.position Camera.lookAt state angle soundDummy carGroupY vy vx vz vplus vscale].
  repeat split.
  destruct (y (step delta random (state e)) + ofZ 3)%js as [|q]; [reflexivity|].
  unfold ofZ. cbn [add sub mul lift2]. js2q. qlit. ring.
Qed.

Lemma nextVelocity_bounded (D d : Qc) (s : State) :
  (0 <= this d)%Q -> (this d <= this D)%Q -> Bounded D s ->
  exists w : Qc, nextVelocity (Fin d) s = Fin w /\
    (- (15 + 10 * this D) <= this w)%Q /\ (this w <= 15 + 10 * this D)%Q.
Proof.
  intros Hd0 Hd1 (yq & tq & vq & Hy & Ht & Hv & Hv1 & Hv2).
  unfold nextVelocity. rewrite Hy, Ht, Hv. cbn [sub lift2].
  unfold Math_sign, Math_abs, MAX_SPEED, ACCEL, ofZ, lit.
  destruct (Fin (tq - yq) >? Fin (Q2Qc (inject_Z 0)))%js eqn:E1;
    [|destruct (Fin (tq - yq) <? Fin (Q2Qc (inject_Z 0)))%js eqn:E2];
    destruct (Fin vq <? Fin (Q2Qc (inject_Z 0)))%js eqn:E3; cbn [neg lift1 add mul lift2];
    match goal with |- context [if (?a <? ?b)%js then _ else _] =>
      destruct (a <? b)%js eqn:E4 end;
    match goal with |- context [if (?a <? ?b)%js then _ else _] =>
      destruct (a <? b)%js eqn:E5 end;
    cbn [mul lift2]; (eexists; split; [reflexivity|]); js2q; qlit; split; lra.
Qed.

Lemma step_bounded (D d : Qc) (r : num) (s : State) :
  (0 <= this d)%Q -> (this d <= this D)%Q -> Bounded D s -> Bounded D (step (Fin d) r s).
Proof.
  intros Hd0 Hd1 HB.
  destruct (nextVelocity_bounded D d s Hd0 Hd1 HB) as (w & Hw & Hw1 & Hw2).
  destruct HB as (yq & tq & vq & Hy & Ht & Hv & Hv1 & Hv2).
  unfold step. destruct (mode s).
  - destruct (_ <=? _)%js; [destruct (_ <? _)%js|]; unfold Bounded; cbn [y targetY velocity];
      unfold STOP_Y_TOP, STOP_Y_BOT, ofZ; eauto 10.
  - destruct (arrives (Fin d) s); unfold Bounded; cbn [y targetY velocity].
    + exists tq, tq, (Q2Qc (inject_Z 0)). unfold ofZ. repeat split; trivial;
        rewrite this_Q2Qc; qlit; lra.
    + rewrite Hw, Hy. cbn [add mul lift2]. eauto 10.
  - destruct (arrives (Fin d) s); unfold Bounded; cbn [y targetY velocity].
    + exists tq, tq, (Q2Qc (inject_Z 0)). unfold ofZ. repeat split; trivial;
        rewrite this_Q2Qc; qlit; lra.
    + rewrite Hw, Hy. cbn [add mul lift2]. eauto 10.
Qed.

(** X14.  The speed limit of the elevator.  Along any run from the
    constructor whose frame times lie in [[0, D]], with any random draws,
    the speed never exceeds [MAX_SPEED + ACCEL * D]. *)
Theorem elevator_speed_limit {M : MathLib} (angle offset r0 : num) (D : Qc)
    (frames : list (num * num)) :
  Forall (fun f => frameWithin (Fin D) (fst f) = true) frames ->
  Forall (fun e =>
            (Math_abs (velocity (state e)) <=? MAX_SPEED + ACCEL * Fin D)%js = true)
         (trace frames (constructor angle offset r0)).
Proof.
  intros Hall.
  assert (Hgen : forall e, Bounded D (state e) ->
            Forall (fun e => Bounded D (state e)) (trace frames e)).
  { induction Hall as [|[d r] fs Hd _ IH]; intros e He; cbn [trace]; [constructor|].
    cbn [fst] in Hd. unfold frameWithin in Hd. apply andb_prop in Hd. destruct Hd as [H1 H2].
    destruct d as [|d]; [discriminate|]. unfold ofZ in H1. js2q.
    assert (Hs : Bounded D (state (update (Fin d) r e))).
    { unfold update. cbn [state]. apply step_bounded; trivial. }
    constructor; [exact Hs|]. apply IH, Hs. }
  assert (H0D : frames = [] \/ (0 <= this D)%Q).
  { destruct Hall as [|[d r] fs Hd _]; [left; reflexivity|right].
    cbn [fst] in Hd. unfold frameWithin in Hd. apply andb_prop in Hd. destruct Hd as [H1 H2].
    destruct d as [|d]; [discriminate|]. unfold ofZ in H1. js2q. revert H1. qlit. lra. }
  destruct H0D as [->|H0D]; [constructor|].
  eapply Forall_impl; [|apply Hgen].
  - intros e (yq & tq & vq & _ & _ & Hv & Hv1 & Hv2). rewrite Hv.
    unfold Math_abs, MAX_SPEED, ACCEL, ofZ. cbn [add mul lift2].
    destruct (Fin vq <? Fin (Q2Qc (inject_Z 0)))%js eqn:E; cbn [neg lift1];
      js2q; qlit; lra.
  - exists (Q2Qc (inject_Z 10)), (Q2Qc (inject_Z 415)), (Q2Qc (inject_Z 0)).
    cbn. repeat split; trivial; lra.
Qed.

Lemma elevator_speed_limit_witness :
  Forall (fun e =>
            (Math_abs (velocity (state e)) <=? MAX_SPEED + ACCEL * lit 1 2)%js = true)
         (trace (M := polyMath)
                [(lit 1 2, lit 1 4); (lit 1 60, lit 1 4); (lit 1 2, lit 1 4);
                 (lit 1 2, lit 1 4)]
                (constructor (ofZ 60) (ofZ 0) (lit 1 10))).
Proof.
  apply (elevator_speed_limit (M := polyMath) (ofZ 60) (ofZ 0) (lit 1 10) (Q2Qc (1 # 2))).
  repeat constructor.
Defined.


Lemma prod_bound (w d V D : Q) :
  (- V <= w)%Q -> (w <= V)%Q -> (0 <= d)%Q -> (d <= D)%Q ->
  (- (V * D) <= w * d)%Q /\ (w * d <= V * D)%Q.
Proof.
  intros H1 H2 H3 H4.
  assert (A1 : (0 <= (V - w) * d)%Q) by (apply Qmult_le_0_compat; lra).
  assert (A2 : (0 <= (V + w) * d)%Q) by (apply Qmult_le_0_compat; lra).
  assert (A3 : (0 <= V * (D - d))%Q) by (apply Qmult_le_0_compat; lra).
  split; lra.
Qed.

Lemma not_arrived (d : Qc) (s : State) (yq tq w : Qc) :
  y s = Fin yq -> targetY s = Fin tq -> nextVelocity (Fin d) s = Fin w ->
  arrives (Fin d) s = false ->
  (this yq + 1 <= this tq /\ 0 <= this w)%Q \/ (this tq + 1 <= this yq /\ this w <= 0)%Q.
Proof.
  intros Hy Ht Hw. unfold arrives. rewrite Hw, Hy, Ht. cbn [sub lift2].
  unfold Math_sign, Math_abs, ofZ.
  destruct (Fin (tq - yq) >? Fin (Q2Qc (inject_Z 0)))%js eqn:E1;
    [|destruct (Fin (tq - yq) <? Fin (Q2Qc (inject_Z 0)))%js eqn:E2];
    destruct (Fin (tq - yq) <? Fin (Q2Qc (inject_Z 0)))%js eqn:E3;
    cbn [neg lift1]; intros H;
    repeat (apply orb_false_elim in H; let H' := fresh "H" in destruct H as [H H']);
    repeat match goal with
           | H : (_ && _) = false |- _ => apply andb_false_iff in H; destruct H
           end;
    js2q; qlit; try lra.
Qed.

Lemma step_in_shaft (D d : Qc) (r : num) (s : State) :
  (0 <= this d)%Q -> (this d <= this D)%Q ->
  Bounded D s -> Inv s -> InShaft D s -> InShaft D (step (Fin d) r s).
Proof.
  intros Hd0 Hd1 HB HI (yq & Hy & Hy1 & Hy2).
  destruct (nextVelocity_bounded D d s Hd0 Hd1 HB) as (w & Hw & Hw1 & Hw2).
  destruct (prod_bound (this w) (this d) (15 + 10 * this D) (this D)) as [P1 P2]; trivial.
  assert (HD : (0 <= (15 + 10 * this D) * this D)%Q)
    by (apply Qmult_le_0_compat; lra).
  unfold step, Inv in *. destruct (mode s) eqn:Hm.
  - destruct (_ <=? _)%js; [destruct (_ <? _)%js|]; exists yq; cbn [y]; auto.
  - destruct (arrives (Fin d) s) eqn:Ea.
    + rewrite HI. exists (Q2Qc (inject_Z 415)). cbn [y]. split; [reflexivity|].
      rewrite this_Q2Qc. change (inject_Z 415) with 415%Q. split; lra.
    + destruct (not_arrived d s yq (Q2Qc (inject_Z 415)) w Hy HI Hw Ea) as [[A B]|[A B]];
        rewrite this_Q2Qc in A; change (inject_Z 415) with 415%Q in A;
        exists (yq + w * d)%Qc; cbn [y]; rewrite Hw, Hy; (split; [reflexivity|]);
        js2q.
      * assert (0 <= this w * this d)%Q by (apply Qmult_le_0_compat; lra). split; lra.
      * assert (0 <= (- this w) * this d)%Q by (apply Qmult_le_0_compat; lra). split; lra.
  - destruct (arrives (Fin d) s) eqn:Ea.
    + rewrite HI. exists (Q2Qc (inject_Z 10)). cbn [y]. split; [reflexivity|].
      rewrite this_Q2Qc. change (inject_Z 10) with 10%Q. split; lra.
    + destruct (not_arrived d s yq (Q2Qc (inject_Z 10)) w Hy HI Hw Ea) as [[A B]|[A B]];
        rewrite this_Q2Qc in A; change (inject_Z 10) with 10%Q in A;
        exists (yq + w * d)%Qc; cbn [y]; rewrite Hw, Hy; (split; [reflexivity|]);
        js2q.
      * assert (0 <= this w * this d)%Q by (apply Qmult_le_0_compat; lra). split; lra.
      * assert (0 <= (- this w) * this d)%Q by (apply Qmult_le_0_compat; lra). split; lra.
Qed.

(** X15.  The elevator stays in the shaft.  Along any run from the
    constructor whose frame times lie in [[0, D]] the height of the car
    stays between [STOP_Y_BOT] and [STOP_Y_TOP], up to the travel of one
    frame at the speed limit, [(MAX_SPEED + ACCEL * D) * D]; the car group
    is at that height. *)
Theorem elevator_stays_in_the_shaft {M : MathLib} (angle offset r0 : num) (D : Qc)
    (frames : list (num * num)) :
  Forall (fun f => frameWithin (Fin D) (fst f) = true) frames ->
  let reach := ((MAX_SPEED + ACCEL * Fin D) * Fin D)%js in
  Forall (fun e =>
            (STOP_Y_BOT - reach <=? y (state e))%js = true /\
            (y (state e) <=? STOP_Y_TOP + reach)%js = true /\
            carGroupY e = y (state e))
         (trace frames (constructor angle offset r0)).
Proof.
  intros Hall. cbv zeta.
  assert (Hgen : forall e, Bounded D (state e) -> Inv (state e) -> InShaft D (state e) ->
            Forall (fun e => InShaft D (state e) /\ carGroupY e = y (state e))
                   (trace frames e)).
  { induction Hall as [|[d r] fs Hd _ IH]; intros e HB HI HS; cbn [trace]; [constructor|].
    cbn [fst] in Hd. unfold frameWithin in Hd. apply andb_prop in Hd. destruct Hd as [H1 H2].
    destruct d as [|d]; [discriminate|]. unfold ofZ in H1. js2q.
    change (inject_Z 0) with 0%Q in H1.
    assert (Hs : InShaft D (state (update (Fin d) r e)))
      by (unfold update; cbn [state]; apply step_in_shaft; trivial).
    assert (HB' : Bounded D (state (update (Fin d) r e)))
      by (unfold update; cbn [state]; apply step_bounded; trivial).
    assert (HI' : Inv (state (update (Fin d) r e)))
      by (unfold update; cbn [state]; apply step_Inv; trivial).
    constructor; [split; [exact Hs|reflexivity]|]. apply IH; trivial. }
  assert (H0D : frames = [] \/ (0 <= this D)%Q).
  { destruct Hall as [|[d r] fs Hd _]; [left; reflexivity|right].
    cbn [fst] in Hd. unfold frameWithin in Hd. apply andb_prop in Hd. destruct Hd as [H1 H2].
    destruct d as [|d]; [discriminate|]. unfold ofZ in H1. js2q.
    change (inject_Z 0) with 0%Q in H1. lra. }
  destruct H0D as [->|H0D]; [constructor|].
  assert (HD : (0 <= (15 + 10 * this D) * this D)%Q)
    by (apply Qmult_le_0_compat; lra).
  eapply Forall_impl; [|apply Hgen].
  - intros e ((yq & Hy & Hy1 & Hy2) & Hc). rewrite Hy.
    unfold STOP_Y_BOT, STOP_Y_TOP, MAX_SPEED, ACCEL, ofZ. cbn [add sub mul lift2].
    split; [|split; [|rewrite Hc, Hy; reflexivity]]; js2q; qlit; revert Hy1 Hy2; qlit;
      intros Hy1 Hy2; lra.
  - exists (Q2Qc (inject_Z 10)), (Q2Qc (inject_Z 415)), (Q2Qc (inject_Z 0)).
    cbn. repeat split; trivial; lra.
  - cbn. split; [left; reflexivity|reflexivity].
  - exists (Q2Qc (inject_Z 10)). cbn [constructor state y]. split; [reflexivity|].
    rewrite this_Q2Qc. change (inject_Z 10) with 10%Q. split; lra.
Qed.

Lemma elevator_stays_in_the_shaft_witness :
  let reach := ((MAX_SPEED + ACCEL * lit 1 2) * lit 1 2)%js in
  Forall (fun e =>
            (STOP_Y_BOT - reach <=? y (state e))%js = true /\
            (y (state e) <=? STOP_Y_TOP + reach)%js = true /\
            carGroupY e = y (state e))
         (trace (M := polyMath)
                [(lit 1 2, lit 1 4); (lit 1 60, lit 1 4); (lit 1 2, lit 1 4)]
                (constructor (ofZ 60) (ofZ 0) (lit 1 10))).
Proof.
  apply (elevator_stays_in_the_shaft (M := polyMath) (ofZ 60) (ofZ 0) (lit 1 10)
           (Q2Qc (1 # 2))).
  repeat constructor.
Defined.

End ElevatorMotionFacts.

(* ================================================================= *)
(** ** Elevator cabin and SpaceNeedle *)

Module SpaceNeedleFacts.
Import Elevator ElevatorFacts FrameFacts.

Lemma fold_left_inv {A B : Type} (P : A -> Prop) (f : A -> B -> A) (l : list B) :
  (forall s b, P s -> P (f s b)) -> forall s, P s -> P (fold_left f l s).
Proof.
  intros Hf. induction l as [|b l IH]; intros s Hs; cbn [fold_left]; [exact Hs|].
  apply IH, Hf, Hs.
Qed.

Lemma classify_color (color : string) (dy dx dz : Z) :
  let c := snd (ElevatorCabin.classify color dy dx dz) in
  c = ElevatorCabin.cFloor \/ c = ElevatorCabin.cDoor \/ c = color.
Proof.
  unfold ElevatorCabin.classify.
  repeat match goal with |- context [if ?b then _ else _] => destruct b end; cbn; auto.
Qed.

Lemma cabin_colors {M : MathLib} (angle : num) (color : string) :
  let P := fun v => Needle.color v = ElevatorCabin.cFloor \/
                    Needle.color v = ElevatorCabin.cDoor \/ Needle.color v = color in
  Forall P (ElevatorCabin.solidVoxels (ElevatorCabin.voxels angle color)) /\
  Forall P (ElevatorCabin.glassVoxels (ElevatorCabin.voxels angle color)).
Proof.
  intros P. unfold ElevatorCabin.voxels.
  apply (fold_left_inv (fun cabin => Forall P (ElevatorCabin.solidVoxels cabin) /\
                                     Forall P (ElevatorCabin.glassVoxels cabin)));
    [|split; constructor].
  intros s dy Hs. apply fold_left_inv; [|exact Hs].
  intros s' dx Hs'. apply fold_left_inv; [|exact Hs'].
  intros cabin dz [H1 H2]. unfold ElevatorCabin.cell.
  assert (Hc := classify_color color dy dx dz).
  destruct (ElevatorCabin.classify color dy dx dz) as [type vColor]. cbn [snd] in Hc.
  destruct (type =? "empty")%string; [auto|].
  destruct (type =? "glass")%string;
    cbn [ElevatorCabin.solidVoxels ElevatorCabin.glassVoxels]; split; trivial;
    (apply Forall_app; split; [assumption|apply Forall_cons; [exact Hc|apply Forall_nil]]).
Qed.

(** X16.  The voxels of an elevator car.  For every angle and body
    colour the constructor makes 30 solid and 20 glass voxels: a full 3x3
    floor and roof, and on each of the four layers between them 3 solid
    and 5 glass voxels, the centre cell left empty.  Every voxel has the
    floor colour, the door colour or the body colour. *)
Theorem cabin_layers {M : MathLib} (angle : num) (color : string) :
  let cabin := ElevatorCabin.voxels angle color in
  List.length (ElevatorCabin.solidVoxels cabin) = 30%nat /\
  List.length (ElevatorCabin.glassVoxels cabin) = 20%nat /\
  map (fun dy => ElevatorCabin.onLayer dy (ElevatorCabin.solidVoxels cabin))
      [0; 1; 2; 3; 4; 5]%Z = [9; 3; 3; 3; 3; 9]%nat /\
  map (fun dy => ElevatorCabin.onLayer dy (ElevatorCabin.glassVoxels cabin))
      [0; 1; 2; 3; 4; 5]%Z = [0; 5; 5; 5; 5; 0]%nat /\
  Forall (fun v => Needle.color v = ElevatorCabin.cFloor \/
                   Needle.color v = ElevatorCabin.cDoor \/ Needle.color v = color)
         (ElevatorCabin.solidVoxels cabin ++ ElevatorCabin.glassVoxels cabin).
Proof.
  cbv zeta. split; [vm_compute; reflexivity|]. split; [vm_compute; reflexivity|].
  split; [vm_compute; reflexivity|]. split; [vm_compute; reflexivity|].
  apply Forall_app. apply cabin_colors.
Qed.

Section WithMath.
Context {M : MathLib}.

Lemma updateEach_nth delta random es : forall i k,
  nth_error (SpaceNeedle.updateEach delta random i es) k
  = option_map (Elevator.update delta (random (i + k)%nat)) (nth_error es k).
Proof.
  induction es as [|e es IH]; intros i k; cbn [SpaceNeedle.updateEach].
  - destruct k; reflexivity.
  - destruct k as [|k]; cbn [nth_error option_map].
    + rewrite Nat.add_0_r. reflexivity.
    + rewrite IH. replace (S i + k)%nat with (i + S k)%nat by lia. reflexivity.
Qed.

Lemma run_nth frames : forall n k,
  nth_error (SpaceNeedle.elevators (SpaceNeedle.run frames n)) k
  = option_map (Elevator.run (SpaceNeedle.framesOf k frames))
               (nth_error (SpaceNeedle.elevators n) k).
Proof.
  induction frames as [|[d r] fs IH]; intros n k; cbn [SpaceNeedle.run SpaceNeedle.framesOf map].
  - destruct (nth_error _ k); reflexivity.
  - rewrite IH. unfold SpaceNeedle.update. cbn [SpaceNeedle.elevators].
    rewrite updateEach_nth. destruct (nth_error _ k); reflexivity.
Qed.

Lemma run_ring frames : forall n,
  SpaceNeedle.rotatingGroupRotationY n = (SpaceNeedle.time n * lit 5 100)%js ->
  SpaceNeedle.rotatingGroupRotationY (SpaceNeedle.run frames n)
  = (SpaceNeedle.time (SpaceNeedle.run frames n) * lit 5 100)%js.
Proof.
  induction frames as [|[d r] fs IH]; intros n Hn; cbn [SpaceNeedle.run]; [exact Hn|].
  apply IH. unfold SpaceNeedle.update.
  cbn [SpaceNeedle.rotatingGroupRotationY SpaceNeedle.time]. rewrite Hn.
  destruct (SpaceNeedle.time n) as [|t], d as [|d]; try reflexivity.
  unfold lit. cbn [add mul lift2]. js2q. ring.
Qed.

Lemma run_blink frames : forall n,
  SpaceNeedle.blinkLightIntensity n = ofZ 500 \/ SpaceNeedle.blinkLightIntensity n = ofZ 0 ->
  SpaceNeedle.blinkLightIntensity (SpaceNeedle.run frames n) = ofZ 500 \/
  SpaceNeedle.blinkLightIntensity (SpaceNeedle.run frames n) = ofZ 0.
Proof.
  induction frames as [|[d r] fs IH]; intros n Hn; cbn [SpaceNeedle.run]; [exact Hn|].
  apply IH. unfold SpaceNeedle.update. cbn [SpaceNeedle.blinkLightIntensity].
  destruct (_ >? _)%js; auto.
Qed.

End WithMath.

Lemma run_time {M : MathLib} frames : forall n,
  SpaceNeedle.time (SpaceNeedle.run frames n)
  = fold_left JS.add (map fst frames) (SpaceNeedle.time n).
Proof.
  induction frames as [|[d r] fs IH]; intros n; cbn [SpaceNeedle.run map fold_left fst];
    [reflexivity|].
  rewrite IH. reflexivity.
Qed.

(** X17.  SpaceNeedle.update.  Along any run, NaN frame times included,
    [time] is the sum of the frame times, the rotating ring's angle is
    0.05 times [time], the beacon's intensity is 500 or 0, and elevator
    [k] is in the state its own [update] brings it to on the frames of the
    run. *)
Theorem needle_ring_and_beacon {M : MathLib} (r0 r1 r2 : num)
    (frames : list (num * (nat -> num))) :
  let n := SpaceNeedle.run frames (SpaceNeedle.constructor r0 r1 r2) in
  SpaceNeedle.time n = fold_left JS.add (map fst frames) (ofZ 0) /\
  SpaceNeedle.rotatingGroupRotationY n = (SpaceNeedle.time n * lit 5 100)%js /\
  (SpaceNeedle.blinkLightIntensity n = ofZ 500 \/
   SpaceNeedle.blinkLightIntensity n = ofZ 0) /\
  (forall k, nth_error (SpaceNeedle.elevators n) k
             = option_map (Elevator.run (SpaceNeedle.framesOf k frames))
                 (nth_error (SpaceNeedle.elevators (SpaceNeedle.constructor r0 r1 r2)) k)).
Proof.
  cbv zeta. split; [|split; [|split]].
  - rewrite run_time. reflexivity.
  - apply run_ring. num_eq.
  - apply run_blink. left. reflexivity.
  - intros k. apply run_nth.
Qed.






End SpaceNeedleFacts.

(* ================================================================= *)
(** ** createSteppedLobe and checkExclusion *)

Module LobeVoxelFacts.
Import Lobe LobeFacts LobeBox Exclusion.

Lemma forLoop_inv {S : Type} (P : S -> Prop) (Q : num -> Prop)
    (cond : num -> bool) (body : num -> S -> S) :
  (forall x, Q x -> cond x = true -> Q (x + voxelSize)%js) ->
  (forall x s, Q x -> cond x = true -> P s -> P (body x s)) ->
  forall fuel x s, Q x -> P s -> P (forLoop fuel cond x body s).
Proof.
  intros HQ HP. induction fuel as [|fuel IH]; intros x s Hx Hs; cbn [forLoop]; [exact Hs|].
  destruct (cond x) eqn:E; [|exact Hs].
  apply IH; [apply HQ | apply HP]; assumption.
Qed.

Lemma set_In (g : Grid) (k : Key) (v : Vec) (e : Key * Vec) :
  In e (set g k v) -> In e g \/ snd e = v.
Proof.
  induction g as [|[k' v'] g IH]; cbn [set].
  - intros [<-|[]]. right. reflexivity.
  - destruct (key_eqb k' k).
    + intros [<-|H]; [right; reflexivity|left; right; exact H].
    + intros [<-|H]; [left; left; reflexivity|].
      destruct (IH H) as [H'|H']; [left; right; exact H'|right; exact H'].
Qed.

Lemma kept_incl (g : Grid) (v : Vec) : In v (boundary g) -> In v (map snd g).
Proof.
  unfold boundary, kept. rewrite !in_map_iff. intros (e & He & Hin).
  apply filter_In in Hin. exists e. tauto.
Qed.

Section Sweep.
Variable center : Vec.
Variable dims : Dimensions.
Variable shapeFn : num -> num -> num -> bool.
Variable exclusionFn : option (num -> num -> num -> bool).

Lemma cell_values (R : num -> num -> num -> Prop) (P : Vec -> Prop) x y z g :
  (forall x y z, R x y z ->
     shapeFn (x / w dims)%js ((y - h dims / ofZ 2) / (h dims / ofZ 2))%js (z / d dims)%js
     = true ->
     match exclusionFn with
     | Some f => f (vx center + x)%js (vy center + y)%js (vz center + z)%js = false
     | None => True
     end ->
     P (mkVec (vx center + x)%js (vy center + y)%js (vz center + z)%js)) ->
  R x y z ->
  Forall P (map snd g) ->
  Forall P (map snd (cell center dims shapeFn exclusionFn x y z g)).
Proof.
  intros HP HR Hg. unfold cell.
  destruct (shapeFn _ _ _) eqn:Es; [|exact Hg].
  destruct exclusionFn as [f|] eqn:Ef.
  - destruct (f _ _ _) eqn:Ex; [exact Hg|].
    apply Forall_forall. intros v Hv. apply in_map_iff in Hv.
    destruct Hv as (e & <- & He). apply set_In in He. destruct He as [He| ->].
    + rewrite Forall_forall in Hg. apply Hg, in_map, He.
    + apply HP; trivial.
  - apply Forall_forall. intros v Hv. apply in_map_iff in Hv.
    destruct Hv as (e & <- & He). apply set_In in He. destruct He as [He| ->].
    + rewrite Forall_forall in Hg. apply Hg, in_map, He.
    + apply HP; trivial.
Qed.

(** Every value of the grid was made in a round of the three loops. *)
Lemma sweep_values (Qy Qx Qz : num -> Prop) (P : Vec -> Prop) :
  Qy (ofZ 0) -> Qx (- w dims)%js -> Qz (- d dims)%js ->
  (forall y, Qy y -> Qy (y + voxelSize)%js) ->
  (forall x, Qx x -> Qx (x + voxelSize)%js) ->
  (forall z, Qz z -> Qz (z + voxelSize)%js) ->
  (forall x y z,
     (Qy y /\ (y <? h dims)%js = true) /\ (Qx x /\ (x <=? w dims)%js = true) /\
     (Qz z /\ (z <=? d dims)%js = true) ->
     shapeFn (x / w dims)%js ((y - h dims / ofZ 2) / (h dims / ofZ 2))%js (z / d dims)%js
     = true ->
     match exclusionFn with
     | Some f => f (vx center + x)%js (vy center + y)%js (vz center + z)%js = false
     | None => True
     end ->
     P (mkVec (vx center + x)%js (vy center + y)%js (vz center + z)%js)) ->
  Forall P (map snd (sweep center dims shapeFn exclusionFn)).
Proof.
  intros Hy0 Hx0 Hz0 HyS HxS HzS HP. unfold sweep, sweepWith.
  apply (forLoop_inv (fun g => Forall P (map snd g)) Qy);
    [intros; apply HyS; assumption | | exact Hy0 | constructor].
  intros y g Hy Ey Hg.
  apply (forLoop_inv (fun g => Forall P (map snd g)) Qx);
    [intros; apply HxS; assumption | | exact Hx0 | exact Hg].
  intros x g' Hx Ex Hg'.
  apply (forLoop_inv (fun g => Forall P (map snd g)) Qz);
    [intros; apply HzS; assumption | | exact Hz0 | exact Hg'].
  intros z g'' Hz Ez Hg''.
  apply (cell_values (fun x y z =>
           (Qy y /\ (y <? h dims)%js = true) /\ (Qx x /\ (x <=? w dims)%js = true) /\
           (Qz z /\ (z <=? d dims)%js = true))); auto.
Qed.

End Sweep.

Lemma boundary_passes (center : Vec) (dims : Dimensions)
    (shapeFn : num -> num -> num -> bool)
    (exclusionFn : option (num -> num -> num -> bool)) :
  Forall (Passes center dims shapeFn exclusionFn)
         (boundary (sweep center dims shapeFn exclusionFn)).
Proof.
  assert (H : Forall (Passes center dims shapeFn exclusionFn)
                     (map snd (sweep center dims shapeFn exclusionFn))).
  { apply (sweep_values center dims shapeFn exclusionFn
             (fun _ => True) (fun _ => True) (fun _ => True)); auto.
    intros x y z _ Hs He. exists x, y, z. cbn [vx vy vz]. auto. }
  rewrite Forall_forall in *. intros v Hv. apply H, kept_incl, Hv.
Qed.

(** X19.  What the mesh of a lobe holds.  [createSteppedLobe] adds one
    mesh whose count is the number of its instances, and each instance is
    [center + (x, y, z)] for a cell at which the shape function is true
    and, when an exclusion function is given, the exclusion function is
    false at that very position. *)
Theorem lobe_voxels_pass_shape_and_exclusion (center : Vec) (dims : Dimensions)
    (shapeFn : num -> num -> num -> bool) (parent : list InstancedMesh)
    (exclusionFn : option (num -> num -> num -> bool)) :
  exists mesh,
    createSteppedLobe center dims shapeFn parent exclusionFn = parent ++ [mesh] /\
    count mesh = List.length (instanceMatrix mesh) /\
    Forall (Passes center dims shapeFn exclusionFn) (instanceMatrix mesh).
Proof.
  eexists. split; [reflexivity|]. cbn [count instanceMatrix]. split; [reflexivity|].
  apply boundary_passes.
Qed.

Lemma add_voxelSize_ge (lo : Qc) (x : num) :
  (Fin lo <=? x)%js = true -> (Fin lo <=? x + voxelSize)%js = true.
Proof.
  destruct x as [|q]; [discriminate|]. unfold voxelSize, lit. cbn [add lift2].
  intros H. js2q. lra.
Qed.

(** X20.  The bounding box of a lobe.  For a finite centre and finite
    dimensions every instance of the mesh lies in the box
    [[cx - w, cx + w] x [cy, cy + h) x [cz - d, cz + d]], whatever the
    shape and the exclusion functions are. *)
Theorem lobe_voxels_in_bounding_box (cx cy cz wq hq dq : Qc)
    (shapeFn : num -> num -> num -> bool) (parent : list InstancedMesh)
    (exclusionFn : option (num -> num -> num -> bool)) :
  let center := mkVec (Fin cx) (Fin cy) (Fin cz) in
  let dims := mkDimensions (Fin wq) (Fin hq) (Fin dq) in
  exists mesh,
    createSteppedLobe center dims shapeFn parent exclusionFn = parent ++ [mesh] /\
    Forall (fun v => inBox center dims v = true) (instanceMatrix mesh).
Proof.
  cbv zeta. eexists. split; [reflexivity|]. cbn [instanceMatrix].
  set (center := mkVec (Fin cx) (Fin cy) (Fin cz)).
  set (dims := mkDimensions (Fin wq) (Fin hq) (Fin dq)).
  assert (H : Forall (fun v => inBox center dims v = true)
                     (map snd (sweep center dims shapeFn exclusionFn))).
  { apply (sweep_values center dims shapeFn exclusionFn
             (fun y => (ofZ 0 <=? y)%js = true)
             (fun x => (Fin (- wq) <=? x)%js = true)
             (fun z => (Fin (- dq) <=? z)%js = true)).
    - reflexivity.
    - unfold dims. cbn [w neg lift1]. js2q. lra.
    - unfold dims. cbn [d neg lift1]. js2q. lra.
    - intros y. apply add_voxelSize_ge.
    - intros x. apply add_voxelSize_ge.
    - intros z. apply add_voxelSize_ge.
    - intros x y z ((Hy1 & Hy2) & (Hx1 & Hx2) & (Hz1 & Hz2)) _ _.
      cbn [w h d dims] in *.
      destruct x as [|x]; [discriminate|]. destruct y as [|y]; [discriminate|].
      destruct z as [|z]; [discriminate|].
      unfold inBox, ofZ in *. cbn [vx vy vz center dims w h d add sub lift2].
      js2q. revert Hy1. qlit. intros Hy1.
      repeat (apply andb_true_intro; split); js2q; lra. }
  rewrite Forall_forall in *. intros v Hv. apply H, kept_incl, Hv.
Qed.

(** X21.  Cubes of side at most 2.  When the grid holds exactly the cells
    of a cube of side [n <= 2], the boundary extraction keeps every entry:
    the kept entries are the grid itself and there are [n^3] of them. *)
Theorem thin_cube_keeps_every_voxel (grid : Grid) (a b c : Z) (n : nat) :
  (n <= 2)%nat -> SolidCube grid a b c n ->
  kept grid = grid /\ List.length (boundary grid) = (n * n * n)%nat.
Proof.
  intros Hn Hc.
  assert (Hk : kept grid = grid).
  { unfold kept. apply forallb_filter_id. apply forallb_forall. intros e He.
    assert (Hcube : In (fst e) (cubeKeys a b c n)).
    { destruct Hc as [_ Hkeys]. apply Hkeys, in_map, He. }
    rewrite (exposed_cube grid a b c n (fst e) Hc Hcube).
    destruct (fst e) as [[x y] z]. unfold interiorb, inner.
    replace (n - 2)%nat with 0%nat by lia. reflexivity. }
  split; [exact Hk|]. unfold boundary. rewrite Hk, length_map.
  rewrite <- (length_map fst), <- (cube_length a b c n).
  apply Permutation_length, NoDup_Permutation; [apply Hc | apply NoDup_cube | apply Hc].
Qed.

Lemma thin_cube_keeps_every_voxel_witness :
  List.length (boundary (sweep vzero (cubeDimensions 2) solid None)) = 8%nat.
Proof.
  refine (proj2 (thin_cube_keeps_every_voxel _ (cubeOrigin 2) 0 (cubeOrigin 2) 2 _ _)).
  - lia.
  - apply solidCubeb_sound. vm_compute. reflexivity.
Defined.



Lemma checkExclusion_iff matrix points X Y Z :
  checkExclusion matrix points X Y Z = true <->
  inBand Y = true /\
  exists p, In p points /\ near (toWorld matrix (mkVec X Y Z)) p = true.
Proof.
  unfold checkExclusion, inBand, toWorld.
  destruct ((Y <? TRACK_HEIGHT - ofZ 2)%js || (Y >? TRACK_HEIGHT + ofZ 6)%js); cbn [negb].
  - split; [discriminate|]. intros [H _]. discriminate.
  - destruct points as [|p0 rest].
    + split; [discriminate|]. intros (_ & p & [] & _).
    + rewrite existsb_exists. split; [auto|]. intros [_ H]. exact H.
Qed.


(** X23.  The lobes clear the track.  In a lobe generated with
    [checkExclusion] over the collected track points, every instance whose
    height is in the band is at least 4 away, in the horizontal plane,
    from every point of the two tracks that lies within 60 of the
    museum. *)
Theorem lobes_clear_the_track (center : Vec) (dims : Dimensions)
    (shapeFn : num -> num -> num -> bool) (parent : list InstancedMesh)
    (matrix : option (Vec -> Vec)) (tracks : list (option (list (option Vector3)))) :
  let points := relevantTrackPoints tracks in
  exists mesh,
    createSteppedLobe center dims shapeFn parent (Some (checkExclusion matrix points))
    = parent ++ [mesh] /\
    Forall (fun v =>
              inBand (vy v) = true ->
              forall pts p, In (Some pts) tracks -> In p pts -> relevant p = true ->
                            near (toWorld matrix v) p = false)
           (instanceMatrix mesh).
Proof.
  cbv zeta. eexists. split; [reflexivity|]. cbn [instanceMatrix].
  eapply Forall_impl; [|apply boundary_passes].
  intros v (x & y & z & Hv & _ & Hex) Hband pts p Htrack Hp Hrel.
  apply not_true_iff_false. intros Hnear.
  apply not_true_iff_false in Hex. apply Hex. apply checkExclusion_iff.
  split; [exact Hband|]. exists p. split.
  - unfold relevantTrackPoints. apply in_flat_map. exists (Some pts).
    split; [exact Htrack|]. apply filter_In. auto.
  - rewrite Hv in Hnear |- *. exact Hnear.
Qed.

End LobeVoxelFacts.

(* ================================================================= *)
(** ** rotatePoint and the emitters *)

Module EmitterFacts.
Import Needle NeedleGrid.



Section WithMath.
Context {M : MathLib}.

Lemma round_integral (n : num) : integral (Math_round n).
Proof. destruct n as [|a]; [left; reflexivity|right; eexists; reflexivity]. Qed.

Lemma add_onGrid x y z color type st :
  allOnGrid st -> allOnGrid (add x y z color type st).
Proof.
  intros (H1 & H2 & H3 & H4).
  assert (Hv : onGrid (mkVoxel (Math_round x) (Math_round y) (Math_round z) color))
    by (repeat split; apply round_integral).
  unfold add.
  destruct (type =? "glass")%string;
    [|destruct (type =? "rotating")%string;
      [|destruct (type =? "rotatingGlass")%string]];
    unfold allOnGrid; cbn [solidVoxels glassVoxels rotatingVoxels rotatingGlassVoxels];
    repeat split; trivial; apply Forall_app; auto.
Qed.

Lemma emit_onGrid x y z color type (angles : list num) : forall st,
  allOnGrid st ->
  allOnGrid (fold_left
               (fun st angle =>
                  let p := rotatePoint x z angle in
                  add (px p) y (pz p) color type st) angles st).
Proof.
  induction angles as [|a l IH]; intros st Hst; cbn [fold_left]; [exact Hst|].
  apply IH, add_onGrid, Hst.
Qed.

End WithMath.

(** X25.  The emitters stay on the integer grid.  The empty lists hold
    only grid points, and [add], [addTri] and [addHex] keep it so: every
    coordinate of every voxel of the four lists is an integer, or NaN when
    [Math.round] was given NaN. *)
Theorem emitters_stay_on_the_grid {M : MathLib} (x y z : num) (color type : string)
    (st : Voxels) :
  allOnGrid empty /\
  (allOnGrid st -> allOnGrid (add x y z color type st)) /\
  (allOnGrid st -> allOnGrid (addTri x y z color type st)) /\
  (allOnGrid st -> allOnGrid (addHex x y z color type st)).
Proof.
  split; [repeat split; constructor|]. split; [apply add_onGrid|]. split.
  - apply emit_onGrid.
  - intros Hst.
    exact (emit_onGrid x y z color type
             (map (fun i => (ofZ i * ofZ 60)%js) [0; 1; 2; 3; 4; 5]%Z) st Hst).
Qed.

End EmitterFacts.

(* ================================================================= *)
(** ** createTrack *)

Module TrackFacts.
Import Track.

Lemma div_const (a : Qc) (k : Z) :
  (0 < k)%Z -> exists q, (Fin a / ofZ k)%js = Fin q /\ (this q * inject_Z k == this a)%Q.
Proof.
  intros Hk. unfold div, ofZ.
  assert (Hz : qzero (Q2Qc (inject_Z k)) = false).
  { unfold qzero. apply not_true_iff_false. intros H. apply Qeq_bool_iff in H.
    rewrite this_Q2Qc in H. unfold Qeq in H. cbn in H. lia. }
  rewrite Hz. eexists. split; [reflexivity|].
  rewrite LobeFacts.this_div, this_Q2Qc. field.
  intros H. unfold Qeq in H. cbn in H. lia.
Qed.

Lemma groundY_cases (x z : Qc) :
  exists g, groundY (Fin x) (Fin z) = Fin g /\ (-12 <= this g)%Q /\ (this g <= 0)%Q /\
            Pavement.ySurface (Fin z) = Fin g \/
            (groundY (Fin x) (Fin z) = Fin g /\ (-12 <= this g)%Q /\ (this g <= 0)%Q /\
             ((Fin x >? ofZ (-10))%js && (Fin x <? ofZ 40)%js) = false).
Proof.
  unfold groundY, Pavement.ySurface.
  destruct ((Fin x >? ofZ (-10))%js && (Fin x <? ofZ 40)%js) eqn:Ex.
  2:{ exists (Q2Qc (inject_Z 0)). right. repeat split; vm_compute; congruence. }
  destruct ((Fin z <? ofZ (-200))%js && (Fin z >? ofZ (-245))%js) eqn:E1.
  - apply andb_prop in E1. destruct E1 as [E1 E2]. unfold ofZ in E1, E2. js2q.
    cbv zeta. unfold ofZ. cbn [sub lift2].
    destruct (div_const (z - Q2Qc (inject_Z (-245))) 45 ltac:(lia)) as (q & Hq & Hq').
    unfold ofZ in Hq. rewrite Hq. rewrite this_sub, this_Q2Qc in Hq'.
    revert E1 E2 Hq'. qlit. intros E1 E2 Hq'.
    unfold Math_min, Math_max.
    assert (F1 : (Fin (Q2Qc (1 # 1)) <=? Fin q)%js = false) by (js2q; lra).
    unfold inject_Z. rewrite F1.
    assert (F2 : (Fin (Q2Qc (0 # 1)) >=? Fin q)%js = false) by (js2q; lra).
    rewrite F2. cbn [sub mul lift2]. eexists. left.
    split; [reflexivity|]. repeat split; js2q; lra.
  - destruct ((Fin z >? ofZ 80)%js && (Fin z <? ofZ 140)%js) eqn:E2.
    + apply andb_prop in E2. destruct E2 as [E2 E3]. unfold ofZ in E2, E3. js2q.
      cbv zeta. unfold ofZ. cbn [sub lift2].
      destruct (div_const (z - Q2Qc (inject_Z 80)) 60 ltac:(lia)) as (q & Hq & Hq').
      unfold ofZ in Hq. rewrite Hq. rewrite this_sub, this_Q2Qc in Hq'.
      revert E2 E3 Hq'. qlit. intros E2 E3 Hq'.
      unfold Math_min, Math_max.
      assert (F1 : (Fin (Q2Qc (1 # 1)) <=? Fin q)%js = false) by (js2q; lra).
      unfold inject_Z. rewrite F1.
      assert (F2 : (Fin (Q2Qc (0 # 1)) >=? Fin q)%js = false) by (js2q; lra).
      rewrite F2. cbn [mul lift2]. eexists. left.
      split; [reflexivity|]. repeat split; js2q; lra.
    + exists (Q2Qc (inject_Z 0)). left. repeat split; vm_compute; congruence.
Qed.


Lemma groundY_range (x z : num) :
  exists g, groundY x z = Fin g /\ (-12 <= this g)%Q /\ (this g <= 0)%Q.
Proof.
  assert (Hzero : exists g, ofZ 0 = Fin g /\ (-12 <= this g)%Q /\ (this g <= 0)%Q).
  { eexists. split; [reflexivity|]. split; vm_compute; discriminate. }
  destruct x as [|x]; [exact Hzero|].
  destruct z as [|z].
  - unfold groundY. destruct (_ && _); exact Hzero.
  - destruct (groundY_cases x z) as (g & [(H & H1 & H2 & _)|(H & H1 & H2 & _)]); eauto.
Qed.

(** X26.  A pier stands on the ground and carries the cap.  When
    createTrack adds a pier at a curve point, that point has a numeric [x]
    and a finite height, the ground height under it is between -12 and 0,
    the column is higher than 0.5, its bottom is at the ground height in
    the world, its top is the bottom of the cap, and the top of the cap is
    the bottom of the beam. *)
Theorem pier_stands_on_the_ground (c : Curve) (t : num) (pier : Pier) :
  pierAt c t = Some pier ->
  exists (pos : Vector3) (py g hq cy : Qc),
    getPointAt c t = Some pos /\ typeof_number (x pos) = true /\
    pierPosition pier = pos /\
    toNumber (y pos) = Fin py /\
    groundY (toNumber (x pos)) (toNumber (z pos)) = Fin g /\
    columnHeight pier = Fin hq /\ columnCy pier = Fin cy /\
    (Q2Qc (1 # 2) < hq)%Qc /\
    (py + (cy - hq * Q2Qc (1 # 2)) = g)%Qc /\
    (Fin (cy + hq * Q2Qc (1 # 2)) = capBottomY) /\
    (capCy - capHeight / ofZ 2)%js = capBottomY /\
    (capCy + capHeight / ofZ 2)%js = (- beamHalfHeight)%js /\
    (Q2Qc (-12 # 1) <= g)%Qc /\ (g <= Q2Qc 0)%Qc.
Proof.
  unfold pierAt. destruct (getPointAt c t) as [pos|]; [|discriminate].
  destruct (typeof_number (x pos)) eqn:Ex; cbn [negb]; [|discriminate].
  destruct (groundY_range (toNumber (x pos)) (toNumber (z pos))) as (g & Hg & Hg1 & Hg2).
  rewrite Hg. destruct (toNumber (y pos)) as [|py] eqn:Ey; [discriminate|].
  assert (Hcap : capBottomY = Fin (Q2Qc (-5 # 2))) by num_eq.
  rewrite Hcap. cbn [sub lift2].
  destruct (div_const (Q2Qc (-5 # 2) - (g - py)) 2 ltac:(lia)) as (half & Hhalf & Hhalf').
  rewrite Hhalf. cbn [sub lift2].
  destruct (_ >? _)%js eqn:Eh; [|discriminate]. intros H. injection H as <-.
  exists pos, py, g, (Q2Qc (-5 # 2) - (g - py))%Qc, (Q2Qc (-5 # 2) - half)%Qc.
  cbn [pierPosition columnHeight columnCy].
  unfold lit in Eh. js2q. revert Hhalf'. qlit. intros Hhalf'.
  split; [reflexivity|]. split; [exact Ex|]. split; [reflexivity|].
  split; [exact Ey|]. split; [exact Hg|]. split; [reflexivity|].
  split; [reflexivity|].
  split; [unfold Qclt; js2q; lra|].
  split; [apply Qc_ext; js2q; lra|].
  split; [f_equal; apply Qc_ext; js2q; lra|].
  split; [num_eq|]. split; [num_eq|].
  split; unfold Qcle; js2q; lra.
Qed.

Lemma pier_stands_on_the_ground_witness :
  exists (pos : Vector3) (py g hq cy : Qc),
    getPointAt Train.straightCurve (ofZ 0) = Some pos /\
    toNumber (y pos) = Fin py /\
    (py + (cy - hq * Q2Qc (1 # 2)) = g)%Qc /\
    Fin (cy + hq * Q2Qc (1 # 2)) = capBottomY.
Proof.
  destruct (pier_stands_on_the_ground Train.straightCurve (ofZ 0)
              (mkPier (vec (lit 15 2) (ofZ 12) (ofZ 80))
                      (Some (vec (lit 15 2) (ofZ 12) (ofZ 79)))
                      (lit 19 2) (lit (-29) 4)))
    as (pos & py & g & hq & cy & H1 & _ & _ & H4 & _ & _ & _ & _ & H9 & H10 & _).
  - vm_compute. repeat first [reflexivity | apply Qc_ext; reflexivity | progress f_equal].
  - exists pos, py, g, hq, cy. auto.
Defined.

(** X27.  The ground under a pier is the road surface.  Over the road
    lanes ([-2 <= x <= 22]) the ground height createTrack computes is the
    height at which createFifthAvePavement lays the road at that row, on
    the ramps and off them. *)
Theorem pier_ground_is_the_road_surface (x z : Qc) :
  Pavement.isRoad (Fin x) = true ->
  groundY (Fin x) (Fin z) = Pavement.yBase (Fin x) (Fin z) /\
  groundY (Fin x) (Fin z) = Pavement.ySurface (Fin z).
Proof.
  intros Hroad. unfold Pavement.yBase. rewrite Hroad. cbn [negb]. rewrite andb_false_r.
  assert (H : groundY (Fin x) (Fin z) = Pavement.ySurface (Fin z)).
  { destruct (groundY_cases x z) as (g & [(H & _ & _ & H')|(_ & _ & _ & H')]).
    - congruence.
    - exfalso. unfold Pavement.isRoad, Pavement.roadMinX, Pavement.roadMaxX, ofZ in *.
      apply andb_prop in Hroad. destruct Hroad as [Hr1 Hr2]. js2q.
      apply andb_false_iff in H'. revert Hr1 Hr2. qlit. intros Hr1 Hr2.
      destruct H' as [H'|H']; js2q; revert H'; qlit; intros H'; lra. }
  split; exact H.
Qed.

Lemma pier_ground_is_the_road_surface_witness :
  groundY (ofZ 10) (ofZ 110) = Pavement.yBase (ofZ 10) (ofZ 110) /\
  groundY (ofZ 10) (ofZ 110) = Pavement.ySurface (ofZ 110).
Proof.
  apply (pier_ground_is_the_road_surface (Q2Qc (inject_Z 10)) (Q2Qc (inject_Z 110))).
  reflexivity.
Defined.


Lemma floor_of_count (L : Qc) :
  exists c : Z,
    Math_floor (Fin L / PIER_SPACING)%js = ofZ c /\
    (inject_Z c * 20 <= this L)%Q /\ (this L < (inject_Z c + 1) * 20)%Q.
Proof.
  unfold PIER_SPACING.
  destruct (div_const L 20 ltac:(lia)) as (q & -> & Hq).
  exists (Qfloor (this q)). split; [reflexivity|].
  assert (H1 := Qfloor_le (this q)). assert (H2 := Qlt_floor (this q)).
  rewrite inject_Z_plus in H2.
  change (inject_Z 20) with 20%Q in Hq. change (inject_Z 1) with 1%Q in H2.
  split; lra.
Qed.

Lemma floor_ofZ (c : Z) : Qfloor (this (Q2Qc (inject_Z c))) = c.
Proof. rewrite (Qfloor_comp _ _ (this_Q2Qc _)). apply Qfloor_Z. Qed.

Lemma pierParameters_count (L : Qc) (c : Z) :
  Math_floor (Fin L / PIER_SPACING)%js = ofZ c ->
  pierParameters (Fin L)
  = map (fun i => (ofZ (Z.of_nat i) / ofZ c)%js) (seq 0 (Z.to_nat (c + 1))).
Proof.
  intros H. unfold pierParameters. rewrite H. unfold ofZ at 1. rewrite floor_ofZ.
  reflexivity.
Qed.

Lemma ratio_unit (i : nat) (c : Z) :
  (0 < c)%Z -> (Z.of_nat i <= c)%Z ->
  exists q, (ofZ (Z.of_nat i) / ofZ c)%js = Fin q /\
            (this q * inject_Z c == inject_Z (Z.of_nat i))%Q /\
            (0 <= this q)%Q /\ (this q <= 1)%Q.
Proof.
  intros Hc Hi. unfold ofZ at 1.
  destruct (div_const (Q2Qc (inject_Z (Z.of_nat i))) c Hc) as (q & Hq & Hq').
  exists q. split; [exact Hq|]. rewrite this_Q2Qc in Hq'. split; [exact Hq'|].
  assert (Hc' : (0 < inject_Z c)%Q) by (change 0%Q with (inject_Z 0); rewrite <- Zlt_Qlt; lia).
  assert (Hi0 : (0 <= inject_Z (Z.of_nat i))%Q)
    by (change 0%Q with (inject_Z 0); rewrite <- Zle_Qle; lia).
  assert (Hi1 : (inject_Z (Z.of_nat i) <= inject_Z c)%Q) by (rewrite <- Zle_Qle; lia).
  assert (Hq2 : (this q == inject_Z (Z.of_nat i) / inject_Z c)%Q).
  { rewrite <- Hq'. field. lra. }
  rewrite Hq2. split.
  - apply Qle_shift_div_l; lra.
  - apply Qle_shift_div_r; lra.
Qed.

Lemma ratio_zero (c : Z) : (0 < c)%Z -> (ofZ 0 / ofZ c)%js = ofZ 0.
Proof.
  intros Hc. destruct (ratio_unit 0 c Hc ltac:(lia)) as (q & Hq & Hq' & _).
  change (Z.of_nat 0) with 0%Z in Hq. rewrite Hq. unfold ofZ. f_equal.
  apply Qc_ext. rewrite this_Q2Qc.
  assert (Hc' : (0 < inject_Z c)%Q) by (change 0%Q with (inject_Z 0); rewrite <- Zlt_Qlt; lia).
  change (inject_Z (Z.of_nat 0)) with 0%Q in Hq'. change (inject_Z 0) with 0%Q.
  destruct (Qmult_integral _ _ Hq') as [H|H]; [exact H|lra].
Qed.

Lemma ratio_one (c : Z) : (0 < c)%Z -> (ofZ c / ofZ c)%js = ofZ 1.
Proof.
  intros Hc. destruct (ratio_unit (Z.to_nat c) c Hc ltac:(lia)) as (q & Hq & Hq' & _).
  rewrite Z2Nat.id in Hq, Hq' by lia. rewrite Hq. unfold ofZ. f_equal.
  apply Qc_ext. rewrite this_Q2Qc.
  assert (Hc' : (0 < inject_Z c)%Q) by (change 0%Q with (inject_Z 0); rewrite <- Zlt_Qlt; lia).
  change (inject_Z 1) with 1%Q.
  apply (Qmult_inj_r _ _ (inject_Z c)); [lra|]. rewrite Hq'. ring.
Qed.

(** X28.  The curve parameters of the piers.  For a track of length at
    least [PIER_SPACING] the loop takes [floor(length / 20) + 1 >= 2]
    parameters, all in [[0, 1]], the first 0 and the last 1.  For a length
    in [[0, 20)] the only parameter is NaN ([0 / 0]); for a negative or
    NaN length there is none. *)
Theorem pier_parameters (L : Qc) :
  ((Q2Qc (inject_Z 20) <= L)%Qc ->
   let ts := pierParameters (Fin L) in
   Forall (fun t => inUnit t = true) ts /\
   (2 <= List.length ts)%nat /\
   (inject_Z (Z.of_nat (List.length ts)) * 20 <= this L + 20)%Q /\
   (this L < inject_Z (Z.of_nat (List.length ts)) * 20)%Q /\
   nth_error ts 0 = Some (ofZ 0) /\
   nth_error ts (List.length ts - 1) = Some (ofZ 1)) /\
  ((Q2Qc 0 <= L)%Qc -> (L < Q2Qc (inject_Z 20))%Qc -> pierParameters (Fin L) = [NaN]) /\
  ((L < Q2Qc 0)%Qc -> pierParameters (Fin L) = []) /\
  pierParameters NaN = [].
Proof.
  destruct (floor_of_count L) as (c & Hc & Hc1 & Hc2).
  rewrite (pierParameters_count L c Hc).
  split; [|split; [|split; [|reflexivity]]].
  - intros HL. unfold Qcle in HL. rewrite this_Q2Qc in HL.
    change (inject_Z 20) with 20%Q in HL.
    assert (Hc3 : (1 <= c)%Z).
    { apply Z.lt_pred_le. change (Z.pred 1) with 0%Z. rewrite Zlt_Qlt.
      change (inject_Z 0) with 0%Q. lra. }
    cbv zeta. rewrite length_map, length_seq.
    replace (Z.of_nat (Z.to_nat (c + 1))) with (c + 1)%Z by lia.
    rewrite inject_Z_plus. change (inject_Z 1) with 1%Q.
    split; [|split; [lia|split; [lra|split; [lra|split]]]].
    + apply Forall_forall. intros t Ht. apply in_map_iff in Ht.
      destruct Ht as (i & <- & Hi). apply in_seq in Hi.
      destruct (ratio_unit i c) as (q & -> & _ & H0 & H1); [lia|lia|].
      apply FollowerFacts.inUnit_Fin. auto.
    + replace (Z.to_nat (c + 1)) with (S (Z.to_nat c)) by lia. cbn [seq map nth_error].
      f_equal. apply ratio_zero. lia.
    + rewrite nth_error_map.
      replace (Z.to_nat (c + 1) - 1)%nat with (Z.to_nat c) by lia.
      rewrite nth_error_nth' with (d := 0%nat) by (rewrite length_seq; lia).
      rewrite seq_nth by lia. cbn [option_map Nat.add]. rewrite Z2Nat.id by lia.
      f_equal. apply ratio_one. lia.
  - intros H0 H20. unfold Qcle in H0. unfold Qclt in H20. rewrite this_Q2Qc in H20.
    change (this (Q2Qc 0)) with 0%Q in H0. change (inject_Z 20) with 20%Q in H20.
    assert (Hc3 : c = 0%Z).
    { assert (Hlo : (-1 < c)%Z).
      { rewrite Zlt_Qlt. change (inject_Z (-1)) with (-1)%Q. lra. }
      assert (Hhi : (c < 1)%Z).
      { rewrite Zlt_Qlt. change (inject_Z 1) with 1%Q. lra. }
      lia. }
    subst c. reflexivity.
  - intros H0. unfold Qclt in H0. change (this (Q2Qc 0)) with 0%Q in H0.
    assert (Hc3 : (c < 0)%Z).
    { rewrite Zlt_Qlt. change (inject_Z 0) with 0%Q. lra. }
    replace (Z.to_nat (c + 1)) with 0%nat by lia. reflexivity.
Qed.

End TrackFacts.

(* ================================================================= *)
(** ** WestlakeMall *)

Module MallFacts.
Import WestlakeMall FrameFacts.

Lemma turn_even (a d : Qc) :
  (Fin a + Fin d * lit 15 10 * ofZ 1)%js = Fin (a + d * Q2Qc (15 # 10)).
Proof. unfold lit, ofZ. cbn [add mul lift2]. f_equal. apply Qc_ext. js2q. qlit. ring. Qed.

Lemma turn_odd (a d : Qc) :
  (Fin (- a) + Fin d * lit 15 10 * ofZ (-1))%js = Fin (- (a + d * Q2Qc (15 # 10))).
Proof. unfold lit, ofZ. cbn [add mul lift2]. f_equal. apply Qc_ext. js2q. qlit. ring. Qed.

Lemma update_alternating (a d : Qc) :
  update (Fin d) (mkWestlakeMall (alternating a))
  = mkWestlakeMall (alternating (a + d * Q2Qc (15 # 10))).
Proof.
  unfold update, alternating. cbn [gears turnFrom Nat.even].
  rewrite !turn_even, !turn_odd. reflexivity.
Qed.

Lemma finite_elapsed (deltas : list num) :
  Forall (fun d => isNaN d = false) deltas -> exists t, elapsed deltas = Fin t.
Proof.
  induction 1 as [|d ds Hd _ (t & Ht)]; [eexists; reflexivity|].
  destruct d as [|d]; [discriminate|]. exists (d + t)%Qc.
  change (elapsed (Fin d :: ds)) with (Fin d + elapsed ds)%js. rewrite Ht. reflexivity.
Qed.

Lemma run_alternating (deltas : list num) : forall a t,
  Forall (fun d => isNaN d = false) deltas -> elapsed deltas = Fin t ->
  gears (run deltas (mkWestlakeMall (alternating a)))
  = alternating (a + t * Q2Qc (15 # 10)).
Proof.
  induction deltas as [|d ds IH]; intros a t Hall Ht.
  - cbn [run gears]. injection Ht as <-.
    replace (a + Q2Qc (inject_Z 0) * Q2Qc (15 # 10))%Qc with a
      by (apply Qc_ext; js2q; qlit; ring).
    reflexivity.
  - inversion Hall as [|? ? Hd Hrest]; subst. destruct d as [|d]; [discriminate|].
    destruct (finite_elapsed ds Hrest) as (t' & Ht').
    change (elapsed (Fin d :: ds)) with (Fin d + elapsed ds)%js in Ht. rewrite Ht' in Ht.
    injection Ht as <-. cbn [run]. rewrite update_alternating, (IH _ t' Hrest Ht').
    replace (a + d * Q2Qc (15 # 10) + t' * Q2Qc (15 # 10))%Qc
      with (a + (d + t') * Q2Qc (15 # 10))%Qc by ring.
    reflexivity.
Qed.

(** X29.  The gears of the mall counter-rotate.  After any run of
    [update] with finite frame times, the six gears have the angles
    [a, -a, a, -a, a, -a] with [a] 1.5 times the sum of the frame times:
    gears at even indices turn one way, gears at odd indices the other
    way at the same rate, so the angles of two neighbours in the list
    always sum up to 0. *)
Theorem gears_counter_rotate (deltas : list num) :
  Forall (fun d => isNaN d = false) deltas ->
  exists a : Qc,
    (elapsed deltas * lit 15 10)%js = Fin a /\
    gears (run deltas constructor) = [Fin a; Fin (- a); Fin a; Fin (- a); Fin a; Fin (- a)] /\
    Forall (fun pair => (fst pair + snd pair)%js = ofZ 0)
           (combine (gears (run deltas constructor))
                    (tl (gears (run deltas constructor)))).
Proof.
  intros Hall. destruct (finite_elapsed deltas Hall) as (t & Ht).
  exists (t * Q2Qc (15 # 10))%Qc. rewrite Ht. split; [reflexivity|].
  assert (H0 : constructor = mkWestlakeMall (alternating (Q2Qc (inject_Z 0)))).
  { unfold constructor, alternating, ofZ. cbn [repeat]. reflexivity. }
  rewrite H0, (run_alternating deltas _ t Hall Ht).
  assert (Ha : (Q2Qc (inject_Z 0) + t * Q2Qc (15 # 10) = t * Q2Qc (15 # 10))%Qc)
    by (apply Qc_ext; js2q; qlit; ring).
  rewrite Ha. split; [reflexivity|].
  unfold alternating. cbn [tl combine].
  repeat (apply Forall_cons; [cbn [fst snd add lift2]; unfold ofZ; f_equal;
                              apply Qc_ext; js2q; qlit; ring|]).
  apply Forall_nil.
Qed.

Lemma gears_counter_rotate_witness :
  exists a : Qc,
    (elapsed [lit 1 60; ofZ 2] * lit 15 10)%js = Fin a /\
    gears (run [lit 1 60; ofZ 2] constructor)
    = [Fin a; Fin (- a); Fin a; Fin (- a); Fin a; Fin (- a)].
Proof.
  destruct (gears_counter_rotate [lit 1 60; ofZ 2]) as (a & H1 & H2 & _).
  - repeat constructor.
  - exists a. split; assumption.
Defined.

End MallFacts.

(* ================================================================= *)
(** ** Elevator: the dwell at a stop *)

Module ElevatorDwellFacts.
Import Elevator ElevatorFacts FrameFacts SpaceNeedleFacts.



End ElevatorDwellFacts.
